(** * X25519 / X448 of mima-kit: the Montgomery ladder and its two curve instances

    A shallow embedding of [function cSwap], [function ladder] and of the two
    closures [x25519] and [x448] (clamp, gen, ecdh).  JavaScript [bigint]
    values are [Z]; the bit operators [&], [|], [^], [>>] and unary minus on
    bigints are the two's-complement operations [Z.land], [Z.lor], [Z.lxor],
    [Z.shiftr] and [Z.opp].  A [Uint8Array]/[U8] is a [list byte].

    After the curves come the two files of the Keccak-p[400] and
    Keccak-p[200] permutations ([KeccakP], [Keccak400], [Keccak200]) and
    the HMAC of [src/hash/hmac.ts] ([HMAC]). *)

From Stdlib Require Import String Ascii.
From Stdlib Require Import ZArith List Lia Bool Znumtheory Zpow_facts Ring Field.
From Stdlib Require Import Zmod DecimalString.
From coqutil Require Import Byte Word.LittleEndianList Z.bitblast.
From Bignums Require Import BigZ.
Import ListNotations.
Local Open Scope Z_scope.

(** ** The collaborators imported from [core/utils], [core/ec], [core/ecParams]
       and [./ecc] *)

(** What a call can throw: the [KitError] of the source and the [RangeError]
    that [TypedArray.prototype.set] raises when the source does not fit. *)
Inductive error : Type :=
| KitError (msg : string)
| RangeError.

Inductive result (A : Type) : Type :=
| Ok (a : A)
| Throw (e : error).
Arguments Ok {A} a.
Arguments Throw {A} e.

(** Modelled from the spec: [getBIBits] of [core/utils] is missing from the
    sources; the spec lists it as "a bit-length function over
    arbitrary-precision integers".  It is only used on unsigned integers. *)
Definition getBIBits (x : Z) : Z :=
  if x <=? 0 then 0 else Z.log2 x + 1.

Module U8.

(** [new U8(n)]: [n] zero bytes. *)
Definition new (n : Z) : list byte := repeat Byte.x00 (Z.to_nat n).

(** [U8.from(b)]: a copy of the bytes. *)
Definition from (b : list byte) : list byte := b.

(** Modelled from the spec: the byte-to-integer codec of [core/utils] is
    missing from the sources; the spec makes it little-endian. *)
Definition toBI (b : list byte) : Z := le_combine b.

(** Modelled from the spec: the integer-to-byte codec of [core/utils] is
    missing from the sources; the spec makes it little-endian.  Every call
    in the sources passes the integer alone, so the width is the one the
    integer needs, [(getBIBits x + 7) >> 3] bytes. *)
Definition fromBI (x : Z) : list byte :=
  le_split (Z.to_nat (Z.shiftr (getBIBits x + 7) 3)) x.

(** [Q.set(src)]: copy [src] to the front of [Q]; a [RangeError] when [src]
    is longer than [Q]. *)
Definition set (Q src : list byte) : result (list byte) :=
  if (length src <=? length Q)%nat
  then Ok (src ++ skipn (length src) Q)
  else Throw RangeError.

End U8.

(** Modelled from the spec: [Fp] of [core/ec] is missing from the sources;
    the spec describes "modular add, subtract, multiply, and exponentiation
    over a prime field".  [pow] is square-and-multiply over the binary
    digits of the exponent, every product reduced modulo [p]. *)
Record Fp_ops : Type := {
  plus : Z -> Z -> Z;
  subtract : Z -> Z -> Z;
  multiply : Z -> Z -> Z;
  pow : Z -> Z -> Z
}.

Fixpoint modPow_pos (a : Z) (e : positive) (p : Z) : Z :=
  match e with
  | xH => a mod p
  | xO e' => let r := modPow_pos a e' p in (r * r) mod p
  | xI e' => let r := modPow_pos a e' p in (((r * r) mod p) * a) mod p
  end.

Definition modPow (a e p : Z) : Z :=
  match e with
  | Z0 => 1 mod p
  | Zpos e' => modPow_pos a e' p
  | Zneg _ => 0
  end.

Definition Fp (p : Z) : Fp_ops := {|
  plus := fun a b => (a + b) mod p;
  subtract := fun a b => (a - b) mod p;
  multiply := fun a b => (a * b) mod p;
  pow := fun a e => modPow a e p
|}.

(** Modelled from the spec: the domain-parameter table of [core/ecParams] is
    missing from the sources; the spec has it yield the prime modulus, the
    generator u-coordinate and the group order of each curve.  The values
    are those of RFC 7748, the standard the spec names. *)
Record MontParams : Type := {
  p : Z;
  Gx : Z;
  n : Z
}.

Definition curve25519 : MontParams := {|
  p := 2 ^ 255 - 19;
  Gx := 9;
  n := 2 ^ 252 + 0x14def9dea2f79cd65812631a5cf5d3ed
|}.

Definition curve448 : MontParams := {|
  p := 2 ^ 448 - 2 ^ 224 - 1;
  Gx := 5;
  n := 2 ^ 446 - 0x8335dc163bb124b65129c96fde933d8d723a70aadc873d6d54a7bb0d
|}.

(** Modelled from the spec: [FpECC(curve).gen('private_key')] of [./ecc] is
    missing from the sources; the spec has it obtain the raw private key
    from "a uniform-random fixed-width byte generator", the only effect of
    the public operations.  The entropy source is the stream of the byte
    strings it will hand out, and a call takes the next one. *)
Record entropy : Type := {
  draw : nat -> list byte;
  used : nat
}.

Definition ec_gen_private_key (w : entropy) : list byte * entropy :=
  (draw w (used w), {| draw := draw w; used := S (used w) |}).

(** A key field [d] or [Q] of the source has type [bigint | Uint8Array]. *)
Inductive keyval : Type :=
| BI (z : Z)
| Bytes (b : list byte).

(** What [gen] returns: [{ Q, d }] or [{ d }]. *)
Inductive gen_output : Type :=
| KeyPair (Q d : list byte)
| PrivateKey (d : list byte).

(** The [type] argument of [gen]; ['public_key'] comes with [s_key]. *)
Inductive gen_type : Type :=
| key_pair
| private_key
| public_key (s_key : keyval).

(** ** X25519 & X448 Algorithms *)

Definition cSwap (swap x_2 x_3 : Z) : Z * Z :=
  let mask := - swap in
  let dummy := Z.land mask (Z.lxor x_2 x_3) in
  let x_2 := Z.lxor x_2 dummy in
  let x_3 := Z.lxor x_3 dummy in
  (x_2, x_3).

(** The variables the loop of [ladder] updates. *)
Record ladder_state : Type := {
  x_2 : Z; z_2 : Z; x_3 : Z; z_3 : Z; swap : Z
}.

(** The body of the [for] loop of [ladder] at bit index [i]. *)
Definition ladder_body (F : Fp_ops) (k u a24 : Z) (i : Z)
    (st : ladder_state) : ladder_state :=
  let k_t := Z.land (Z.shiftr k i) 1 in
  let swap := Z.lxor (swap st) k_t in
  let '(x_2, x_3) := cSwap swap (x_2 st) (x_3 st) in
  let '(z_2, z_3) := cSwap swap (z_2 st) (z_3 st) in
  let swap := k_t in
  let A := plus F x_2 z_2 in
  let AA := pow F A 2 in
  let B := subtract F x_2 z_2 in
  let BB := pow F B 2 in
  let E := subtract F AA BB in
  let C := plus F x_3 z_3 in
  let D := subtract F x_3 z_3 in
  let DA := multiply F D A in
  let CB := multiply F C B in
  let x_3 := pow F (plus F DA CB) 2 in
  let z_3 := multiply F u (pow F (subtract F DA CB) 2) in
  let x_2 := multiply F AA BB in
  let z_2 := multiply F E (plus F AA (multiply F E a24)) in
  {| x_2 := x_2; z_2 := z_2; x_3 := x_3; z_3 := z_3; swap := swap |}.

(** [for (let i = bit - 1n; i >= 0n; i--)] with [m] iterations left: the
    index of the next one is [m - 1]. *)
Fixpoint ladder_loop (F : Fp_ops) (k u a24 : Z) (m : nat)
    (st : ladder_state) : ladder_state :=
  match m with
  | O => st
  | S m' => ladder_loop F k u a24 m' (ladder_body F k u a24 (Z.of_nat m') st)
  end.

(** 蒙哥马利梯子算法 / Montgomery Ladder Algorithm *)
Definition ladder (k u p a24 bit : Z) : Z :=
  let F := Fp p in
  let st := {| x_2 := 1; z_2 := 0; x_3 := u; z_3 := 1; swap := 0 |} in
  let st := ladder_loop F k u a24 (Z.to_nat bit) st in
  let '(x_2, x_3) := cSwap (swap st) (x_2 st) (x_3 st) in
  let '(z_2, z_3) := cSwap (swap st) (z_2 st) (z_3 st) in
  multiply F x_2 (pow F z_2 (p - 2)).

(** The two reads [typeof v === 'bigint' ? v : U8.from(v).toBI()] and
    [typeof v === 'bigint' ? U8.fromBI(v) : U8.from(v)]. *)
Definition key_to_BI (v : keyval) : Z :=
  match v with
  | BI z => z
  | Bytes b => U8.toBI (U8.from b)
  end.

Definition key_to_U8 (v : keyval) : list byte :=
  match v with
  | BI z => U8.fromBI z
  | Bytes b => U8.from b
  end.

(** x25519 椭圆曲线算法 / Elliptic Curve Algorithm.  [gen] threads the
    entropy source that [ec.gen('private_key')] reads; [gen_with] and
    [ecdh_with] are [gen] and [ecdh] with the ladder they call as an
    argument. *)
Module x25519.

Definition p : Z := p curve25519.
Definition Gx : Z := Gx curve25519.
Definition p_bit : Z := getBIBits p.
Definition p_byte : Z := Z.shiftr (p_bit + 7) 3.
Definition a24 : Z := 121665.

Definition clamp (d : Z) : Z :=
  let d := Z.land d 0x7FFFFFFFFFFFFFFFFFFFFFFFFFFFFFFFFFFFFFFFFFFFFFFFFFFFFFFFFFFFFFF8 in
  let d := Z.lor d 0x4000000000000000000000000000000000000000000000000000000000000000 in
  d.

(** The tail shared by the two branches of [gen] that run the ladder,
    parametrised by the ladder it calls. *)
Definition gen_pair_with (lad : Z -> Z -> Z -> Z -> Z -> Z)
    (d_buffer : list byte) (d : Z) : result gen_output :=
  let x := lad (clamp d) Gx p a24 255 in
  let Q := U8.new p_byte in
  match U8.set Q (U8.fromBI x) with
  | Ok Q => Ok (KeyPair Q d_buffer)
  | Throw e => Throw e
  end.

Definition gen_with (lad : Z -> Z -> Z -> Z -> Z -> Z)
    (type : gen_type) (w : entropy) : result gen_output * entropy :=
  match type with
  | key_pair =>
      let '(d_buffer, w) := ec_gen_private_key w in
      let d := U8.toBI d_buffer in
      (gen_pair_with lad d_buffer d, w)
  | private_key =>
      let '(d_buffer, w) := ec_gen_private_key w in
      (Ok (PrivateKey d_buffer), w)
  | public_key s_key =>
      let d_buffer := key_to_U8 s_key in
      let d := U8.toBI d_buffer in
      if d =? 0 then (Throw (KitError "Invalid private key"), w)
      else (gen_pair_with lad d_buffer d, w)
  end.

Definition gen : gen_type -> entropy -> result gen_output * entropy :=
  gen_with ladder.

Definition ecdh_with (lad : Z -> Z -> Z -> Z -> Z -> Z)
    (s_key p_key : keyval) : list byte :=
  let u := key_to_BI p_key in
  let k := key_to_BI s_key in
  let x := lad (clamp k) u p a24 255 in
  U8.fromBI x.

Definition ecdh : keyval -> keyval -> list byte := ecdh_with ladder.

End x25519.

(** x448 椭圆曲线算法 / Elliptic Curve Algorithm *)
Module x448.

Definition p : Z := p curve448.
Definition Gx : Z := Gx curve448.
Definition n : Z := n curve448.
Definition n_bit : Z := getBIBits n.
Definition n_byte : Z := Z.shiftr (n_bit + 7) 3.
Definition a24 : Z := 39081.

Definition clamp (d : Z) : Z :=
  let d := Z.land d 0xFFFFFFFFFFFFFFFFFFFFFFFFFFFFFFFFFFFFFFFFFFFFFFFFFFFFFFFFFFFFFFFFFFFFFFFFFFFFFFFFFFFFFFFFFFFFFFFFFFFFFFFFFFFFFFFC in
  let d := Z.lor d 0x8000000000000000000000000000000000000000000000000000000000000000000000000000000000000000000000000000000000000000 in
  d.

Definition gen_pair_with (lad : Z -> Z -> Z -> Z -> Z -> Z)
    (d_buffer : list byte) (d : Z) : result gen_output :=
  let x := lad (clamp d) Gx p a24 448 in
  let Q := U8.new n_byte in
  match U8.set Q (U8.fromBI x) with
  | Ok Q => Ok (KeyPair Q d_buffer)
  | Throw e => Throw e
  end.

Definition gen_with (lad : Z -> Z -> Z -> Z -> Z -> Z)
    (type : gen_type) (w : entropy) : result gen_output * entropy :=
  match type with
  | key_pair =>
      let '(d_buffer, w) := ec_gen_private_key w in
      let d := U8.toBI d_buffer in
      (gen_pair_with lad d_buffer d, w)
  | private_key =>
      let '(d_buffer, w) := ec_gen_private_key w in
      (Ok (PrivateKey d_buffer), w)
  | public_key s_key =>
      let d_buffer := key_to_U8 s_key in
      let d := U8.toBI d_buffer in
      if d =? 0 then (Throw (KitError "Invalid private key"), w)
      else (gen_pair_with lad d_buffer d, w)
  end.

Definition gen : gen_type -> entropy -> result gen_output * entropy :=
  gen_with ladder.

Definition ecdh_with (lad : Z -> Z -> Z -> Z -> Z -> Z)
    (s_key p_key : keyval) : list byte :=
  let u := key_to_BI p_key in
  let k := key_to_BI s_key in
  let x := lad (clamp k) u p a24 448 in
  U8.fromBI x.

Definition ecdh : keyval -> keyval -> list byte := ecdh_with ladder.

End x448.

(** ** Hexadecimal test vectors *)

Definition hex_digit (c : ascii) : option Z :=
  let v := Z.of_nat (nat_of_ascii c) in
  if (48 <=? v) && (v <=? 57) then Some (v - 48)
  else if (97 <=? v) && (v <=? 102) then Some (v - 87)
  else if (65 <=? v) && (v <=? 70) then Some (v - 55)
  else None.

Fixpoint nibbles (s : string) : list Z :=
  match s with
  | EmptyString => []
  | String c s' =>
      match hex_digit c with
      | Some v => v :: nibbles s'
      | None => nibbles s'
      end
  end.

(** Two hexadecimal digits make a byte, the first one its high half; a last
    digit without a partner is the high half of a byte whose low half is 0. *)
Fixpoint bytes_of_nibbles (l : list Z) : list byte :=
  match l with
  | [] => []
  | [h] => [byte.of_Z (16 * h)]
  | h :: l0 :: rest => byte.of_Z (16 * h + l0) :: bytes_of_nibbles rest
  end.

Definition hex (s : string) : list byte := bytes_of_nibbles (nibbles s).

(** Trim or zero-pad a byte string to [w] bytes. *)
Definition fit (w : nat) (b : list byte) : list byte :=
  firstn w (b ++ repeat Byte.x00 w).

(** ** Test vectors *)

Module Vector.

(** The known-answer vector as the spec prints it: 63, 63 and 64 digits. *)
Definition spec_scalar : string :=
  "a546e36bf0527c9d3b16154b82465edd62144c0ac1fc5a18506a2244ba449ac".
Definition spec_u : string :=
  "e6db6867583030db3594c1a424b15f7c726624ec26b3353b10a903a6d0ab1c4".
Definition spec_secret : string :=
  "c3da55379de9c6908e94ea4df28d084f32eccf03491c71f754b4075577a28552".

(** The input of RFC 7748, section 5.2: 64 digits each. *)
Definition rfc_scalar : string :=
  "a546e36bf0527c9d3b16154b82465edd62144c0ac1fc5a18506a2244ba449ac4".
Definition rfc_u : string :=
  "e6db6867583030db3594c1a424b15f7c726624ec26b3353b10a903a6d0ab1c4c".

(** The ways to make 32 bytes of a string with an odd number of digits: the
    last digit as the high half of the last byte, a zero digit in front,
    the last digit dropped and a zero byte appended, the last digit as a
    byte of its own. *)
Definition readings (s : string) : list (list byte) :=
  let ns := nibbles s in
  [ fit 32 (bytes_of_nibbles ns);
    fit 32 (bytes_of_nibbles (0 :: ns));
    fit 32 (bytes_of_nibbles (removelast ns));
    fit 32 (bytes_of_nibbles (removelast ns ++ [0; last ns 0])) ].

(** Two private keys of 32 bytes; the entropy source that hands out the
    second one. *)
Definition skA : list byte := fit 32 (hex "a003").
Definition skB : list byte := fit 32 (hex "01").
Definition rngB : entropy := {| draw := fun _ => skB; used := 0 |}.

End Vector.

(** ** The public operations of one curve instance, as one entry point *)

Inductive curve : Type := CurveA | CurveB.

Inductive operation : Type :=
| Gen (type : gen_type)
| Ecdh (s_key p_key : keyval).

Inductive output : Type :=
| Keys (g : gen_output)
| Secret (b : list byte).

Definition lift_gen (r : result gen_output * entropy) : result output * entropy :=
  match r with
  | (Ok g, w) => (Ok (Keys g), w)
  | (Throw e, w) => (Throw e, w)
  end.

Definition invoke (c : curve) (o : operation) (w : entropy) : result output * entropy :=
  match c, o with
  | CurveA, Gen type => lift_gen (x25519.gen type w)
  | CurveA, Ecdh s_key p_key => (Ok (Secret (x25519.ecdh s_key p_key)), w)
  | CurveB, Gen type => lift_gen (x448.gen type w)
  | CurveB, Ecdh s_key p_key => (Ok (Secret (x448.ecdh s_key p_key)), w)
  end.

(** The encoded width of the spec: 32 bytes for Curve A, 56 for Curve B. *)
Definition size (c : curve) : nat :=
  match c with CurveA => 32%nat | CurveB => 56%nat end.

(** ** The ladder as the spec words it (sections 4.1 and 4.2) *)

Module Spec.

(** Section 4.1: [(x2, x3)] unchanged if [swap == 0], [(x3, x2)] if
    [swap == 1]. *)
Definition cswap (swap : bool) (a b : Z) : Z * Z :=
  if swap then (b, a) else (a, b).

Record state : Type := {
  P2 : Z * Z;
  P3 : Z * Z;
  sw : bool
}.

(** Steps 2 and 3 at bit index [i]; all arithmetic modulo [p]. *)
Definition step (k u p a24 : Z) (st : state) (i : Z) : state :=
  let k_t := Z.testbit k i in
  let swap := xorb (sw st) k_t in
  let '(x2, x3) := cswap swap (fst (P2 st)) (fst (P3 st)) in
  let '(z2, z3) := cswap swap (snd (P2 st)) (snd (P3 st)) in
  let A := (x2 + z2) mod p in
  let AA := A ^ 2 mod p in
  let B := (x2 - z2) mod p in
  let BB := B ^ 2 mod p in
  let E := (AA - BB) mod p in
  let C := (x3 + z3) mod p in
  let D := (x3 - z3) mod p in
  let DA := (D * A) mod p in
  let CB := (C * B) mod p in
  {| P3 := (((DA + CB) mod p) ^ 2 mod p, (u * (((DA - CB) mod p) ^ 2 mod p)) mod p);
     P2 := ((AA * BB) mod p, (E * ((AA + (E * a24) mod p) mod p)) mod p);
     sw := k_t |}.

(** The bit indices [bits-1] down to [0]. *)
Definition indices (bits : Z) : list Z :=
  rev (map Z.of_nat (seq 0 (Z.to_nat bits))).

Definition ladder (k u p a24 bits : Z) : Z :=
  let init := {| P2 := (1, 0); P3 := (u, 1); sw := false |} in
  let st := fold_left (step k u p a24) (indices bits) init in
  let '(x2, _) := cswap (sw st) (fst (P2 st)) (fst (P3 st)) in
  let '(z2, _) := cswap (sw st) (snd (P2 st)) (snd (P3 st)) in
  (x2 * (z2 ^ (p - 2) mod p)) mod p.

End Spec.

(** ** Clamping in closed form *)

(** A ladder that is [lad] on the scalars from [b] upwards and [lad0] on the
    scalars below [b]. *)
Definition only_from (b : Z) (lad lad0 : Z -> Z -> Z -> Z -> Z -> Z)
    : Z -> Z -> Z -> Z -> Z -> Z :=
  fun k u p a24 bit => if k <? b then lad0 k u p a24 bit else lad k u p a24 bit.


(** Keep the bits [lo .. hi-1] of [d] and set bit [hi-1]. *)
Definition clamp_mask (lo hi d : Z) : Z :=
  Z.lor (Z.land d (2 ^ hi - 2 ^ lo)) (2 ^ (hi - 1)).

(** ** Relating the source ladder to the spec ladder *)

(** The variables of the source loop read as a state of the spec. *)
Definition abstract (st : ladder_state) (s : Spec.state) : Prop :=
  Spec.P2 s = (x_2 st, z_2 st) /\
  Spec.P3 s = (x_3 st, z_3 st) /\
  swap st = Z.b2z (Spec.sw s).

(** ** The spec ladder on machine-word integers, to run it on test vectors *)

Module Big.

Definition bmod (a p : bigZ) : bigZ := BigZ.modulo a p.

Fixpoint pow_pos (a : bigZ) (e : positive) (p : bigZ) : bigZ :=
  match e with
  | xH => bmod a p
  | xO e' => let r := pow_pos a e' p in bmod (BigZ.mul r r) p
  | xI e' => let r := pow_pos a e' p in bmod (BigZ.mul (bmod (BigZ.mul r r) p) a) p
  end.

Definition pow (a : bigZ) (e : Z) (p : bigZ) : bigZ :=
  match e with
  | Z0 => bmod BigZ.one p
  | Zpos e' => pow_pos a e' p
  | Zneg _ => BigZ.zero
  end.

Record state : Type := {
  P2 : bigZ * bigZ;
  P3 : bigZ * bigZ;
  sw : bool
}.

Definition cswap (swap : bool) (a b : bigZ) : bigZ * bigZ :=
  if swap then (b, a) else (a, b).

Definition step (k : Z) (u p a24 : bigZ) (st : state) (i : Z) : state :=
  let k_t := Z.testbit k i in
  let swap := xorb (sw st) k_t in
  let '(x2, x3) := cswap swap (fst (P2 st)) (fst (P3 st)) in
  let '(z2, z3) := cswap swap (snd (P2 st)) (snd (P3 st)) in
  let A := bmod (BigZ.add x2 z2) p in
  let AA := bmod (BigZ.mul A A) p in
  let B := bmod (BigZ.sub x2 z2) p in
  let BB := bmod (BigZ.mul B B) p in
  let E := bmod (BigZ.sub AA BB) p in
  let C := bmod (BigZ.add x3 z3) p in
  let D := bmod (BigZ.sub x3 z3) p in
  let DA := bmod (BigZ.mul D A) p in
  let CB := bmod (BigZ.mul C B) p in
  let S := bmod (BigZ.add DA CB) p in
  let T := bmod (BigZ.sub DA CB) p in
  {| P3 := (bmod (BigZ.mul S S) p, bmod (BigZ.mul u (bmod (BigZ.mul T T) p)) p);
     P2 := (bmod (BigZ.mul AA BB) p,
            bmod (BigZ.mul E (bmod (BigZ.add AA (bmod (BigZ.mul E a24) p)) p)) p);
     sw := k_t |}.

Definition ladder (k u p a24 bits : Z) : Z :=
  let bp := BigZ.of_Z p in
  let bu := BigZ.of_Z u in
  let init := {| P2 := (BigZ.one, BigZ.zero); P3 := (bu, BigZ.one); sw := false |} in
  let st := fold_left (step k bu bp (BigZ.of_Z a24)) (Spec.indices bits) init in
  let '(x2, _) := cswap (sw st) (fst (P2 st)) (fst (P3 st)) in
  let '(z2, _) := cswap (sw st) (snd (P2 st)) (snd (P3 st)) in
  BigZ.to_Z (bmod (BigZ.mul x2 (pow z2 (p - 2) bp)) bp).

Definition toZ2 (q : bigZ * bigZ) : Z * Z := (BigZ.to_Z (fst q), BigZ.to_Z (snd q)).

Definition abs (st : state) : Spec.state :=
  {| Spec.P2 := toZ2 (P2 st); Spec.P3 := toZ2 (P3 st); Spec.sw := sw st |}.

End Big.

(** * The curves behind the ladder

    Key agreement is symmetric because the ladder computes the u-coordinate
    of a scalar multiple on a curve, a commutative group.  The curve is
    taken in Edwards form [x^2 + y^2 = 1 + d x^2 y^2] over the field of
    integers modulo [p], on which the addition law has no exceptional case;
    the u-coordinate of the Montgomery form is [sigma (1 + y) / (1 - y)]. *)

Module Ed.
Definition point (p : Z) : Type := (Zmod p * Zmod p)%type.

Definition on_curve {p : Z} (d : Zmod p) (P : point p) : Prop :=
  let '(x, y) := P in
  (x * x + y * y = 1 + d * x * x * y * y)%Zmod.

Definition add {p : Z} (d : Zmod p) (P Q : point p) : point p :=
  let '(x1, y1) := P in
  let '(x2, y2) := Q in
  ((x1 * y2 + y1 * x2) * Zmod.inv (1 + d * x1 * x2 * y1 * y2),
   (y1 * y2 - x1 * x2) * Zmod.inv (1 - d * x1 * x2 * y1 * y2))%Zmod.

Definition zero {p : Z} : point p := (Zmod.zero, Zmod.one).

Definition neg {p : Z} (P : point p) : point p := (Zmod.opp (fst P), snd P).

Fixpoint smul {p : Z} (d : Zmod p) (n : nat) (P : point p) : point p :=
  match n with
  | O => zero
  | S n' => add d P (smul d n' P)
  end.

(** A point as two fractions [nx/dx], [ny/dy]. *)
Record frac (p : Z) : Type := { nx : Zmod p; dx : Zmod p; ny : Zmod p; dy : Zmod p }.
Arguments nx {p} f.
Arguments dx {p} f.
Arguments ny {p} f.
Arguments dy {p} f.

Definition fadd {p : Z} (d : Zmod p) (a b : frac p) : frac p :=
  let D := (dx a * dy a * dx b * dy b)%Zmod in
  let T := (d * nx a * nx b * ny a * ny b)%Zmod in
  {| nx := (nx a * ny b * dx b * dy a + ny a * nx b * dx a * dy b)%Zmod;
     dx := (D + T)%Zmod;
     ny := (ny a * ny b * dx a * dx b - nx a * nx b * dy a * dy b)%Zmod;
     dy := (D - T)%Zmod |}.

Definition of_point {p : Z} (P : point p) : frac p :=
  {| nx := fst P; dx := Zmod.one; ny := snd P; dy := Zmod.one |}.

Definition represents {p : Z} (f : frac p) (P : point p) : Prop :=
  dx f <> Zmod.zero /\ dy f <> Zmod.zero /\
  (fst P * dx f = nx f)%Zmod /\ (snd P * dy f = ny f)%Zmod.
End Ed.

Module Mont.
Definition dbl {p : Z} (a24 : Zmod p) (q : Zmod p * Zmod p) : Zmod p * Zmod p :=
  let '(X, Z) := q in
  let A := (X + Z)%Zmod in
  let AA := (A * A)%Zmod in
  let B := (X - Z)%Zmod in
  let BB := (B * B)%Zmod in
  let E := (AA - BB)%Zmod in
  ((AA * BB)%Zmod, (E * (AA + E * a24))%Zmod).

Definition dadd {p : Z} (u : Zmod p) (q r : Zmod p * Zmod p) : Zmod p * Zmod p :=
  let '(X2, Z2) := q in
  let '(X3, Z3) := r in
  let A := (X2 + Z2)%Zmod in
  let B := (X2 - Z2)%Zmod in
  let C := (X3 + Z3)%Zmod in
  let D := (X3 - Z3)%Zmod in
  let DA := (D * A)%Zmod in
  let CB := (C * B)%Zmod in
  (((DA + CB) * (DA + CB))%Zmod, (u * ((DA - CB) * (DA - CB)))%Zmod).

Definition rep {p : Z} (sigma : Zmod p) (q : Zmod p * Zmod p) (P : Ed.point p) : Prop :=
  (fst q <> Zmod.zero \/ snd q <> Zmod.zero) /\
  (fst q * (1 - snd P) = sigma * snd q * (1 + snd P))%Zmod.

Definition U {p : Z} (sigma : Zmod p) (P : Ed.point p) : Zmod p :=
  (sigma * (1 + snd P) * Zmod.inv (1 - snd P))%Zmod.

Record state (p : Z) : Type := {
  P2 : Zmod p * Zmod p;
  P3 : Zmod p * Zmod p;
  sw : bool
}.
Arguments P2 {p} s.
Arguments P3 {p} s.
Arguments sw {p} s.

Definition step {p : Z} (a24 u : Zmod p) (k : Z) (st : state p) (i : Z) : state p :=
  let k_t := Z.testbit k i in
  let swap := xorb (sw st) k_t in
  let q := if swap then P3 st else P2 st in
  let r := if swap then P2 st else P3 st in
  {| P2 := dbl a24 q; P3 := dadd u q r; sw := k_t |}.

Definition init {p : Z} (u : Zmod p) : state p :=
  {| P2 := (Zmod.one, Zmod.zero); P3 := (u, Zmod.one); sw := false |}.

Definition low {p : Z} (st : state p) : Zmod p * Zmod p :=
  if sw st then P3 st else P2 st.

Definition high {p : Z} (st : state p) : Zmod p * Zmod p :=
  if sw st then P2 st else P3 st.

Definition result {p : Z} (st : state p) : Zmod p :=
  (fst (low st) * Zmod.inv (snd (low st)))%Zmod.

Definition ladder {p : Z} (a24 u : Zmod p) (k bits : Z) : Zmod p :=
  result (fold_left (step a24 u k) (Spec.indices bits) (init u)).

(** The scalar read so far: the bits of [k] at the indices [l], first is
    most significant. *)
Definition scalar (k : Z) (l : list Z) (m : nat) : nat :=
  fold_left (fun m i => if Z.testbit k i then S (2 * m) else (2 * m)%nat) l m.
End Mont.

(** A state of the spec ladder read in the field. *)
Definition of_pair (p : Z) (q : Z * Z) : Zmod p * Zmod p :=
  (Zmod.of_Z p (fst q), Zmod.of_Z p (snd q)).

Definition of_state (p : Z) (st : Spec.state) : Mont.state p :=
  {| Mont.P2 := of_pair p (Spec.P2 st);
     Mont.P3 := of_pair p (Spec.P3 st);
     Mont.sw := Spec.sw st |}.

(** The ladder invariant: the pair in the low slot stands for [m P] and the
    pair in the high slot for [(m+1) P]. *)
Definition ladder_inv {p : Z} (d sigma : Zmod p) (P : Ed.point p)
    (st : Mont.state p) (m : nat) : Prop :=
  Mont.rep sigma (Mont.low st) (Ed.smul d m P) /\
  Mont.rep sigma (Mont.high st) (Ed.smul d (S m) P).

(** ** Primality certificates *)

Module Primality.

(** Trial division: no [d' >= d] with [d' * d' <= n] divides [n]. *)
Fixpoint no_divisor (n d : Z) (fuel : nat) : bool :=
  match fuel with
  | O => false
  | S fuel' =>
      if n <? d * d then true
      else if n mod d =? 0 then false
      else no_divisor n (d + 1) fuel'
  end.

Definition product (l : list Z) : Z := fold_right Z.mul 1 l.

Fixpoint distinct (l : list Z) : bool :=
  match l with
  | [] => true
  | q :: l' => negb (existsb (Z.eqb q) l') && distinct l'
  end.

(** One line of a Pocklington certificate of [N]: a prime [q] dividing
    [N - 1] and a witness [a]. *)
Definition witness_ok (pw : Z -> Z -> Z -> Z) (N : Z) (qa : Z * Z) : bool :=
  let '(q, a) := qa in
  (0 <? q) && ((N - 1) mod q =? 0) && (pw a (N - 1) N =? 1) &&
  (Z.gcd (pw a ((N - 1) / q) N - 1) N =? 1).

Definition pocklington (pw : Z -> Z -> Z -> Z) (N : Z) (fs : list (Z * Z)) : bool :=
  let F := product (map fst fs) in
  (1 <? N) && (N <? (F + 1) * (F + 1)) && distinct (map fst fs) &&
  forallb (witness_ok pw N) fs.

End Primality.

(** Modular exponentiation on the fast integers, for the checks that are
    run inside the proofs. *)
Definition fast_pow (a e n : Z) : Z :=
  BigZ.to_Z (Big.pow (BigZ.of_Z a) e (BigZ.of_Z n)).

(** ** The two curves in Edwards form

    Curve25519 is birationally equivalent to [x^2 + y^2 = 1 + d x^2 y^2]
    over the same field with [d = 121665 / 121666] under
    [u = (1 + y) / (1 - y)]; curve448 to the same shape with
    [d = 39082 / 39081] under [u = - (1 + y) / (1 - y)].  Neither [d] is a
    square.  [G] is a point over the generator's u-coordinate. *)
Module edwards25519.

Definition d : Z :=
  20800338683988658368647408995589388737092878452977063003340006470870624536394.
Definition Gx : Z :=
  9771384041963202563870679428059935816164187996444183106833894008023910952347.
Definition Gy : Z :=
  46316835694926478169428394003475163141307993866256225615783033603165251855960.

Definition D : Zmod x25519.p := Zmod.of_Z _ d.
Definition sigma : Zmod x25519.p := Zmod.one.
Definition a24 : Zmod x25519.p := Zmod.of_Z _ x25519.a24.
Definition G : Ed.point x25519.p := (Zmod.of_Z _ Gx, Zmod.of_Z _ Gy).

End edwards25519.

Module edwards448.

Definition d : Z :=
  611975850744529176160423220965553317543219696871016626328968936415087860042636474891785599283666020414768678979989378147065462815545017.
Definition Gx : Z :=
  345397493039729516374008604150537410266655260075183290216406970281645695073672344430481787759340633221708391583424041788924124567700732.
Definition Gy : Z :=
  363419362147803445274661903944002267176820680343659030140745099590306164083365386343198191849338272965044442230921818680526749009182721.

Definition D : Zmod x448.p := Zmod.of_Z _ d.
Definition sigma : Zmod x448.p := Zmod.opp Zmod.one.
Definition a24 : Zmod x448.p := Zmod.of_Z _ x448.a24.
Definition G : Ed.point x448.p := (Zmod.of_Z _ Gx, Zmod.of_Z _ Gy).

End edwards448.

(** ** Two parties

    The private keys of the Diffie-Hellman examples of RFC 7748, section
    6, handed out by the entropy source, and the public keys that go with
    them. *)
Module Parties.

Definition alice25519 : list byte :=
  hex "77076d0a7318a57d3c16c17251b26645df4c2f87ebc0992ab177fba51db92c2a".
Definition bob25519 : list byte :=
  hex "5dab087e624a8a4b79e17f8b83800ee66f3bb1292618b6fd1c2f8b27ff88e0eb".
Definition alice25519_pub : list byte :=
  hex "8520f0098930a754748b7ddcb43ef75a0dbf3a0d26381af4eba4a98eaa9b4e6a".
Definition bob25519_pub : list byte :=
  hex "de9edb7d7b7dc1b4d35b61c2ece435373f8343c85b78674dadfc7e146f882b4f".

Definition alice448 : list byte :=
  hex "9a8f4925d1519f5775cf46b04b5800d4ee9ee8bae8bc5565d498c28dd9c9baf574a9419744897391006382a6f127ab1d9ac2d8c0a598726b".
Definition bob448 : list byte :=
  hex "1c306a7ac2a0e2e0990b294470cba339e6453772b075811d8fad0d1d6927c120bb5ee8972b0d3e21374c9c921b09d1b0366f10b65173992d".
Definition alice448_pub : list byte :=
  hex "9b08f7cc31b7e3e67d22d5aea121074a273bd2b83de09c63faa73d2c22c5d9bbc836647241d953d40c5b12da88120d53177f80e532c41fa0".
Definition bob448_pub : list byte :=
  hex "3eb7a829b0cd20f5bcfc0b599b6feccf6da4627107bdb0d4f345b43027d8b972fc3e34fb4232a13ca706dcb57aec3dae07bdc1c67bf33609".

(** An entropy source that hands out [key] at every call, after [n]
    calls. *)
Definition rng (key : list byte) (n : nat) : entropy :=
  {| draw := fun _ => key; used := n |}.

End Parties.

(** ** The zero draw

    The all-zero private key of each width, as the entropy source may hand
    it out, and the public key that goes with it. *)
Module ZeroDraw.


End ZeroDraw.

(** * Keccak-p[400] and Keccak-p[200]

    The two files of the permutation are the same code at the lane widths
    16 and 8: shared here as [KeccakP], over the record of constants
    [KeccakPermutation] and the three things each file binds for itself,
    the rotation table [R], the round constants [RC] and the rotation
    imported from [core/utils]; [Keccak400] and [Keccak200] are the two
    files.  A lane is a [Z]; a [Uint16Array] or [Uint8Array] cell holds it
    modulo [2^w] ([store]).  The JavaScript operators [^], [&] and [~]
    work on 32-bit integers, of which only the low [w] bits are stored:
    they are [Z.lxor], [Z.land] and [Z.lnot]. *)

(** A [Uint8Array]: a window of [byteLength] bytes at [byteOffset] of the
    [ArrayBuffer] it is a view of. *)
Record Uint8Array : Type := {
  buffer : list byte;
  byteOffset : nat;
  byteLength : nat
}.

(** The bytes a [Uint8Array] shows. *)
Definition contents (S : Uint8Array) : list byte :=
  firstn (byteLength S) (skipn (byteOffset S) (buffer S)).

(** What the language guarantees of a view: its window lies inside its
    buffer. *)
Definition inside_buffer (S : Uint8Array) : Prop :=
  (byteOffset S + byteLength S <= length (buffer S))%nat.

(** [new Uint8Array(bytes)]: a view of all of a buffer of its own. *)
Definition whole (bytes : list byte) : Uint8Array :=
  {| buffer := bytes; byteOffset := 0; byteLength := length bytes |}.

Module KeccakP.

Record KeccakPermutation : Type := {
  b : Z;
  bByte : Z;
  w : Z;
  wByte : Z;
  l : Z;
  nr : Z
}.

Inductive exn : Type :=
| Error (msg : string)
| RangeError.

Inductive outcome (A : Type) : Type :=
| Returns (a : A)
| Throws (e : exn).
Arguments Returns {A} a.
Arguments Throws {A} e.

Definition StateArray : Type := list (list Z).

(** Writing a cell of a typed array keeps the value modulo [2^w]. *)
Definition store (w v : Z) : Z := v mod 2 ^ w.

Fixpoint update {T : Type} (n : nat) (f : T -> T) (l : list T) : list T :=
  match l, n with
  | [], _ => []
  | a :: l', O => f a :: l'
  | a :: l', S n' => a :: update n' f l'
  end.

(** [A[x][y]] *)
Definition lane (A : StateArray) (x y : nat) : Z := nth y (nth x A []) 0.

(** [A[x][y] = v] *)
Definition set_lane (w : Z) (A : StateArray) (x y : nat) (v : Z) : StateArray :=
  update x (update y (fun _ => store w v)) A.

(** [for (let x = 0; x < 5; x++) body] *)
Definition for5 {T : Type} (body : nat -> T -> T) (a : T) : T :=
  fold_left (fun a x => body x a) (seq 0 5) a.

(** create a 5x5 State Array *)
Definition createStateArray : StateArray := repeat (repeat 0 5) 5.

(** [view.getUint16(off, true)] and [view.getUint8(off)] of a [DataView]
    over all of [buf]: the little-endian integer of [wByte] bytes, a
    [RangeError] ([None]) past the end of the buffer. *)
Definition getUint (wByte : nat) (buf : list byte) (off : nat) : option Z :=
  if (off + wByte <=? length buf)%nat
  then Some (le_combine (firstn wByte (skipn off buf)))
  else None.

(** [view.setUint16(off, v, true)] and [view.setUint8(off, v)] *)
Definition setUint (wByte : nat) (buf : list byte) (off : nat) (v : Z)
    : option (list byte) :=
  if (off + wByte <=? length buf)%nat
  then Some (firstn off buf ++ le_split wByte v ++ skipn (off + wByte) buf)
  else None.

Section Permutation.
Variable PERMUTATION : KeccakPermutation.
Variable R : list (list Z).
Variable rotateL : Z -> Z -> Z.

(** Converting State to State Arrays.  The [DataView] is over
    [S.buffer], the whole buffer. *)
Definition toStateArray (S : Uint8Array) : option StateArray :=
  let view := buffer S in
  for5 (fun x A =>
    for5 (fun y A =>
      match A with
      | None => None
      | Some A =>
          match getUint (Z.to_nat (wByte PERMUTATION)) view
                  ((y * 5 + x) * Z.to_nat (wByte PERMUTATION)) with
          | None => None
          | Some v => Some (set_lane (w PERMUTATION) A x y v)
          end
      end) A) (Some createStateArray).

(** Converting State Arrays to State *)
Definition toState (A : StateArray) : option (list byte) :=
  let S := repeat Byte.x00 (Z.to_nat (bByte PERMUTATION)) in
  for5 (fun x S =>
    for5 (fun y S =>
      match S with
      | None => None
      | Some S' =>
          setUint (Z.to_nat (wByte PERMUTATION)) S'
            ((y * 5 + x) * Z.to_nat (wByte PERMUTATION)) (lane A x y)
      end) S) (Some S).

(** Algorithm 1: θ(A).  [C] is filled first; [D[x]] is read in the
    iteration that writes it and nowhere else; [A] is updated in place. *)
Definition theta (A : StateArray) : StateArray :=
  let C := for5 (fun x C =>
             update x (fun _ => store (w PERMUTATION)
               (Z.lxor (Z.lxor (Z.lxor (Z.lxor (lane A x 0) (lane A x 1))
                  (lane A x 2)) (lane A x 3)) (lane A x 4))) C)
             (repeat 0 5) in
  for5 (fun x A =>
    let D_x := store (w PERMUTATION)
                 (Z.lxor (nth ((x + 4) mod 5) C 0)
                         (rotateL (nth ((x + 1) mod 5) C 0) 1)) in
    for5 (fun y A => set_lane (w PERMUTATION) A x y (Z.lxor (lane A x y) D_x)) A) A.

(** Algorithm 2: ρ(A) *)
Definition rho (A : StateArray) : StateArray :=
  for5 (fun x _A =>
    for5 (fun y _A =>
      set_lane (w PERMUTATION) _A x y (rotateL (lane A x y) (lane R x y))) _A)
    createStateArray.

(** Algorithm 3: π(A) *)
Definition pi (A : StateArray) : StateArray :=
  for5 (fun x _A =>
    for5 (fun y _A =>
      set_lane (w PERMUTATION) _A y ((2 * x + 3 * y) mod 5) (lane A x y)) _A)
    createStateArray.

(** 合并执行 π(ρ(A)) *)
Definition rhoPi (A : StateArray) : StateArray :=
  for5 (fun x _A =>
    for5 (fun y _A =>
      set_lane (w PERMUTATION) _A y ((2 * x + 3 * y) mod 5)
        (rotateL (lane A x y) (lane R x y))) _A)
    createStateArray.

(** Algorithm 4: χ(A) *)
Definition chi (A : StateArray) : StateArray :=
  for5 (fun x _A =>
    for5 (fun y _A =>
      set_lane (w PERMUTATION) _A x y
        (Z.lxor (lane A x y)
           (Z.land (Z.lnot (lane A ((x + 1) mod 5) y)) (lane A ((x + 2) mod 5) y)))) _A)
    createStateArray.

(** Algorithm 6: ι(A, ir) *)
Definition iota (A : StateArray) (RC : Z) : StateArray :=
  set_lane (w PERMUTATION) A 0 0 (Z.lxor (lane A 0 0) RC).

(** The round loop of the permutation.  [_RC[i]] past the end of the
    table is [undefined], which [^] reads as 0. *)
Definition rounds (_RC : list Z) (nr : Z) (A : StateArray) : StateArray :=
  fold_left (fun A i => iota (chi (rhoPi (theta A))) (nth i _RC 0))
    (seq 0 (Z.to_nat nr)) A.

(** The permutation function, for a number of rounds [nr] that is an
    integer or left out.  [RCGen] of [core/keccakUtils] is missing from
    the sources and is a parameter. *)
Definition Keccak_p (RC : list Z) (RCGen : KeccakPermutation -> Z -> list Z)
    (nr : option Z) : Uint8Array -> outcome (list byte) :=
  let nr := match nr with
            | None | Some 0 => KeccakP.nr PERMUTATION
            | Some n => n
            end in
  let _RC := if nr =? KeccakP.nr PERMUTATION then RC else RCGen PERMUTATION nr in
  fun S =>
    if negb (Z.of_nat (byteLength S) =? bByte PERMUTATION)
    then Throws (Error "Invalid state size")
    else
      match toStateArray S with
      | None => Throws RangeError
      | Some A =>
          match toState (rounds _RC nr A) with
          | None => Throws RangeError
          | Some S' => Returns S'
          end
      end.

End Permutation.

End KeccakP.

(** Keccak-p[400] *)
Module Keccak400.

Definition PERMUTATION : KeccakP.KeccakPermutation := {|
  KeccakP.b := 400;
  KeccakP.bByte := 50;
  KeccakP.w := 16;
  KeccakP.wByte := 2;
  KeccakP.l := 4;
  KeccakP.nr := 20
|}.

Definition R : list (list Z) :=
  [ [0; 4; 3; 9; 2];
    [1; 12; 10; 13; 2];
    [14; 6; 11; 15; 13];
    [12; 4; 8; 8; 7];
    [11; 4; 2; 2; 13] ].

Definition RC : list Z :=
  [0x8000; 0x4101; 0x5101; 0x0001; 0xD101; 0x8000; 0x8101; 0x9001; 0x5100; 0x1100;
   0x9001; 0x5000; 0xD101; 0xD100; 0x9101; 0xC001; 0x4001; 0x0100; 0x5001; 0x5000].

Definition toStateArray := KeccakP.toStateArray PERMUTATION.
Definition toState := KeccakP.toState PERMUTATION.
Definition theta (rotateL16 : Z -> Z -> Z) := KeccakP.theta PERMUTATION rotateL16.
Definition rho (rotateL16 : Z -> Z -> Z) := KeccakP.rho PERMUTATION R rotateL16.
Definition pi := KeccakP.pi PERMUTATION.
Definition rhoPi (rotateL16 : Z -> Z -> Z) := KeccakP.rhoPi PERMUTATION R rotateL16.
Definition chi := KeccakP.chi PERMUTATION.
Definition iota := KeccakP.iota PERMUTATION.

Definition Keccak_p_400 (rotateL16 : Z -> Z -> Z)
    (RCGen : KeccakP.KeccakPermutation -> Z -> list Z) (nr : option Z)
    : Uint8Array -> KeccakP.outcome (list byte) :=
  KeccakP.Keccak_p PERMUTATION R rotateL16 RC RCGen nr.

(** [Sponge] of [core/keccakUtils] is missing from the sources and is a
    parameter; [f] is the permutation handed over, [Keccak_p_400()] when
    left out. *)
Definition Sponge_400 {T : Type} (rotateL16 : Z -> Z -> Z)
    (RCGen : KeccakP.KeccakPermutation -> Z -> list Z)
    (Sponge : (Uint8Array -> KeccakP.outcome (list byte)) -> Z -> Z -> T)
    (rByte : Z) (f : option (Uint8Array -> KeccakP.outcome (list byte))) : T :=
  let f := match f with
           | Some f => f
           | None => Keccak_p_400 rotateL16 RCGen None
           end in
  Sponge f (KeccakP.bByte PERMUTATION) rByte.

End Keccak400.

(** Keccak-p[200] *)
Module Keccak200.

Definition PERMUTATION : KeccakP.KeccakPermutation := {|
  KeccakP.b := 200;
  KeccakP.bByte := 25;
  KeccakP.w := 8;
  KeccakP.wByte := 1;
  KeccakP.l := 3;
  KeccakP.nr := 18
|}.

Definition R : list (list Z) :=
  [ [0; 4; 3; 1; 2];
    [1; 4; 2; 5; 2];
    [6; 6; 3; 7; 5];
    [4; 7; 1; 5; 0];
    [3; 4; 7; 0; 6] ].

Definition RC : list Z :=
  [0x80; 0x41; 0x51; 0x00; 0xD1; 0x80; 0x81; 0x90; 0x51; 0x11;
   0x90; 0x50; 0xD1; 0xD1; 0x91; 0xC0; 0x40; 0x01].

Definition toStateArray := KeccakP.toStateArray PERMUTATION.
Definition toState := KeccakP.toState PERMUTATION.
Definition theta (rotateL8 : Z -> Z -> Z) := KeccakP.theta PERMUTATION rotateL8.
Definition rho (rotateL8 : Z -> Z -> Z) := KeccakP.rho PERMUTATION R rotateL8.
Definition pi := KeccakP.pi PERMUTATION.
Definition rhoPi (rotateL8 : Z -> Z -> Z) := KeccakP.rhoPi PERMUTATION R rotateL8.
Definition chi := KeccakP.chi PERMUTATION.
Definition iota := KeccakP.iota PERMUTATION.

Definition Keccak_p_200 (rotateL8 : Z -> Z -> Z)
    (RCGen : KeccakP.KeccakPermutation -> Z -> list Z) (nr : option Z)
    : Uint8Array -> KeccakP.outcome (list byte) :=
  KeccakP.Keccak_p PERMUTATION R rotateL8 RC RCGen nr.

Definition Sponge_200 {T : Type} (rotateL8 : Z -> Z -> Z)
    (RCGen : KeccakP.KeccakPermutation -> Z -> list Z)
    (Sponge : (Uint8Array -> KeccakP.outcome (list byte)) -> Z -> Z -> T)
    (rByte : Z) (f : option (Uint8Array -> KeccakP.outcome (list byte))) : T :=
  let f := match f with
           | Some f => f
           | None => Keccak_p_200 rotateL8 RCGen None
           end in
  Sponge f (KeccakP.bByte PERMUTATION) rByte.

End Keccak200.

(** The shape [createStateArray] gives and the typed arrays keep: five
    arrays of five cells of [w] bits. *)
Definition well_formed (w : Z) (A : KeccakP.StateArray) : Prop :=
  length A = 5%nat /\
  Forall (fun row => length row = 5%nat /\ Forall (fun v => 0 <= v < 2 ^ w) row) A.

(** * HMAC

    [hash] is an object of [core/hash]: a function on bytes that carries
    its name and its sizes, in bytes.  [joinBuffer] of [core/utils] and
    [createKeyHash] of [core/hash] are missing from the sources and are
    parameters.  The arrays of this file are read through their own
    windows only and are the lists of their bytes. *)
Module HMAC.

Record Hash : Type := {
  call : list byte -> list byte;
  ALGORITHM : string;
  BLOCK_SIZE : nat;
  DIGEST_SIZE : nat
}.

Record KeyHashDescription : Type := {
  description_ALGORITHM : string;
  description_BLOCK_SIZE : nat;
  description_DIGEST_SIZE : Z;
  description_KEY_SIZE : Z
}.

(** The 32-bit integer that [>>] and [<<] make of an integer. *)
Definition ToInt32 (z : Z) : Z := (z + 2 ^ 31) mod 2 ^ 32 - 2 ^ 31.

(** An integer in a template literal. *)
Definition decimal (z : Z) : string := NilZero.string_of_int (Z.to_int z).

(** [b.slice(0, e)]: a negative [e] counts from the end. *)
Definition slice_0 (b : list byte) (e : Z) : list byte :=
  let len := Z.of_nat (length b) in
  let final := if e <? 0 then Z.max (len + e) 0 else Z.min e len in
  firstn (Z.to_nat final) b.

Section Imports.
Variable joinBuffer : list byte -> list byte -> list byte.

Definition _hmac (hash : Hash) (K M : list byte) : result (list byte) :=
  let K0 := U8.new (Z.of_nat (BLOCK_SIZE hash)) in
  match U8.set K0 (if (BLOCK_SIZE hash <? length K)%nat then call hash K else K) with
  | Throw e => Throw e
  | Ok K0 =>
      let iPad := map (fun byte => byte.xor byte Byte.x36) K0 in
      let oPad := map (fun byte => byte.xor byte Byte.x5c) K0 in
      let innerBuffer := call hash (joinBuffer iPad M) in
      let outerBuffer := call hash (joinBuffer oPad innerBuffer) in
      Ok outerBuffer
  end.

(** [d_size] and [k_size] after their first assignments in [hmac], in
    bytes; an argument left out is [None], and 0 is taken for left out. *)
Definition d_size_bytes (hash : Hash) (d_size : option Z) : Z :=
  match d_size with
  | None | Some 0 => Z.of_nat (DIGEST_SIZE hash)
  | Some d => Z.min (Z.shiftr (ToInt32 d) 3) (Z.of_nat (DIGEST_SIZE hash))
  end.

Definition k_size_bytes (hash : Hash) (k_size : option Z) : Z :=
  match k_size with
  | None | Some 0 => Z.of_nat (DIGEST_SIZE hash)
  | Some k => Z.shiftr (ToInt32 k) 3
  end.

(** The two arguments that [hmac] hands to [createKeyHash]. *)
Definition hmac_description (hash : Hash) (d_size k_size : option Z)
    : KeyHashDescription := {|
  description_ALGORITHM :=
    "HMAC-" ++ ALGORITHM hash ++ "-" ++
    decimal (ToInt32 (d_size_bytes hash d_size * 2 ^ 3));
  description_BLOCK_SIZE := BLOCK_SIZE hash;
  description_DIGEST_SIZE := d_size_bytes hash d_size;
  description_KEY_SIZE := k_size_bytes hash k_size
|}.

Definition hmac_digest (hash : Hash) (d_size : option Z) (K M : list byte)
    : result (list byte) :=
  match _hmac hash K M with
  | Ok mac => Ok (slice_0 mac (d_size_bytes hash d_size))
  | Throw e => Throw e
  end.

Definition hmac {KeyHash : Type}
    (createKeyHash : (list byte -> list byte -> result (list byte)) ->
                     KeyHashDescription -> KeyHash)
    (hash : Hash) (d_size k_size : option Z) : KeyHash :=
  createKeyHash (hmac_digest hash d_size) (hmac_description hash d_size k_size).

End Imports.

End HMAC.

(** A hash to run the HMAC properties on: the first four bytes of its
    input, zero bytes standing in for missing ones; and buffers joined by
    concatenation. *)
Module Toy.

Definition hash : HMAC.Hash := {|
  HMAC.call := fun m => firstn 4 (m ++ repeat Byte.x00 4);
  HMAC.ALGORITHM := "FIRST4";
  HMAC.BLOCK_SIZE := 8;
  HMAC.DIGEST_SIZE := 4
|}.

Definition joinBuffer (a b : list byte) : list byte := a ++ b.

End Toy.

(** * Properties *)

(** ** The field operations *)

Lemma modPow_pos_spec (a : Z) (e : positive) (p : Z) :
  modPow_pos a e p = a ^ Zpos e mod p.
Proof.
  destruct (Z.eq_dec p 0) as [-> | Hp].
  - induction e as [e IH | e IH | ]; cbn [modPow_pos]; rewrite ?Z.mod_0_r in *.
    + rewrite IH, Pos2Z.inj_xI, Z.pow_add_r, Z.pow_1_r, <- Z.add_diag, Z.pow_add_r by lia.
      reflexivity.
    + rewrite IH, Pos2Z.inj_xO, <- Z.add_diag, Z.pow_add_r by lia. reflexivity.
    + now rewrite Z.pow_1_r.
  - induction e as [e IH | e IH | ]; cbn [modPow_pos].
    + rewrite IH, Pos2Z.inj_xI, Z.pow_add_r, Z.pow_1_r, <- Z.add_diag, Z.pow_add_r by lia.
      rewrite Z.mul_mod_idemp_l, <- Z.mul_assoc, Z.mul_mod_idemp_l by assumption.
      rewrite (Z.mul_comm (a ^ Z.pos e mod p)), !Z.mul_assoc.
      rewrite Z.mul_mod_idemp_r by assumption.
      f_equal. ring.
    + rewrite IH, Pos2Z.inj_xO, <- Z.add_diag, Z.pow_add_r by lia.
      now rewrite <- Z.mul_mod by assumption.
    + now rewrite Z.pow_1_r.
Qed.

Lemma modPow_spec (a e p : Z) : modPow a e p = a ^ e mod p.
Proof.
  destruct e as [ | e | e]; cbn [modPow].
  - now rewrite Z.pow_0_r.
  - apply modPow_pos_spec.
  - now rewrite Z.pow_neg_r by lia.
Qed.

Lemma Fp_pow_2 (p a : Z) : pow (Fp p) a 2 = a ^ 2 mod p.
Proof. apply modPow_spec. Qed.

(** ** The conditional swap *)

Lemma cSwap_0 (a b : Z) : cSwap 0 a b = (a, b).
Proof.
  unfold cSwap. cbn [Z.opp].
  now rewrite Z.land_0_l, !Z.lxor_0_r.
Qed.

Lemma cSwap_1 (a b : Z) : cSwap 1 a b = (b, a).
Proof.
  unfold cSwap. change (- (1)) with (-1).
  rewrite Z.land_m1_l.
  f_equal.
  - now rewrite <- Z.lxor_assoc, Z.lxor_nilpotent, Z.lxor_0_l.
  - now rewrite (Z.lxor_comm a b), <- Z.lxor_assoc, Z.lxor_nilpotent, Z.lxor_0_l.
Qed.

Lemma bit_of_shift (k i : Z) :
  0 <= i -> Z.land (Z.shiftr k i) 1 = Z.b2z (Z.testbit k i).
Proof.
  intros Hi.
  change 1 with (Z.ones 1).
  rewrite Z.land_ones by lia.
  change (2 ^ 1) with 2.
  rewrite <- Z.bit0_mod, Z.shiftr_spec by lia.
  now rewrite Z.add_0_l.
Qed.

Lemma lxor_b2z (a b : bool) : Z.lxor (Z.b2z a) (Z.b2z b) = Z.b2z (xorb a b).
Proof. now destruct a, b. Qed.

Lemma cSwap_b2z (s : bool) (a b : Z) : cSwap (Z.b2z s) a b = Spec.cswap s a b.
Proof. destruct s; [apply cSwap_1 | apply cSwap_0]. Qed.

(** ** The ladder of the source against the ladder of the spec *)

Lemma ladder_body_step (k u p a24 i : Z) (st : ladder_state) (s : Spec.state) :
  0 <= i ->
  abstract st s ->
  abstract (ladder_body (Fp p) k u a24 i st) (Spec.step k u p a24 s i).
Proof.
  intros Hi (H2 & H3 & Hs).
  unfold ladder_body, Spec.step.
  rewrite bit_of_shift, Hs, lxor_b2z, !cSwap_b2z by assumption.
  rewrite H2, H3. cbn [fst snd].
  destruct (xorb (Spec.sw s) (Z.testbit k i)); cbn [Spec.cswap];
    rewrite !Fp_pow_2; repeat split.
Qed.

Lemma ladder_loop_fold (k u p a24 : Z) (m : nat) :
  forall st s,
    abstract st s ->
    abstract (ladder_loop (Fp p) k u a24 m st)
             (fold_left (Spec.step k u p a24) (Spec.indices (Z.of_nat m)) s).
Proof.
  unfold Spec.indices. rewrite Nat2Z.id.
  induction m as [ | m IH]; intros st s Hab.
  - exact Hab.
  - rewrite seq_S, map_app, rev_app_distr. cbn [ladder_loop].
    cbn [Nat.add map rev app fold_left].
    apply IH, ladder_body_step; [lia | exact Hab].
Qed.

Lemma ladder_spec_eq (k u p a24 bits : Z) :
  ladder k u p a24 bits = Spec.ladder k u p a24 bits.
Proof.
  unfold ladder, Spec.ladder.
  set (st0 := {| x_2 := 1; z_2 := 0; x_3 := u; z_3 := 1; swap := 0 |}).
  set (s0 := {| Spec.P2 := (1, 0); Spec.P3 := (u, 1); Spec.sw := false |}).
  assert (H0 : abstract st0 s0) by (repeat split).
  pose proof (ladder_loop_fold k u p a24 (Z.to_nat bits) st0 s0 H0) as Hab.
  replace (Spec.indices (Z.of_nat (Z.to_nat bits))) with (Spec.indices bits) in Hab
    by (unfold Spec.indices; now rewrite Nat2Z.id).
  destruct Hab as (H2 & H3 & Hs).
  rewrite Hs, !cSwap_b2z, H2, H3. cbn [fst snd].
  destruct (Spec.sw _); cbn [Spec.cswap multiply pow Fp];
    now rewrite modPow_spec.
Qed.

(** C1: for every scalar [k], u-coordinate [u], modulus [p], constant [a24]
    and bit-length [bits], the [ladder] of the source returns what the
    algorithm of the spec returns: from [(x2,z2) = (1,0)], [(x3,z3) = (u,1)],
    [swap = 0], for the bit indices [bits-1] down to [0] the swap update
    followed by the addition-and-doubling formulas modulo [p], then one last
    conditional swap and [x2 * z2^(p-2) mod p]. *)
Theorem ladder_refines_spec (k u p a24 bits : Z) :
  ladder k u p a24 bits = Spec.ladder k u p a24 bits.
Proof. apply ladder_spec_eq. Qed.

(** C5: [cSwap] returns [(x2, x3)] unchanged when the selector is 0 and
    [(x3, x2)] when it is 1, for all integers [x2] and [x3]; it computes
    them without a branch, from the mask [-swap] (all zeros or all ones),
    [dummy = mask & (x2 ^ x3)], and [dummy] xored into both values. *)
Theorem cSwap_selects (x2 x3 : Z) :
  cSwap 0 x2 x3 = (x2, x3) /\
  cSwap 1 x2 x3 = (x3, x2) /\
  (forall i, 0 <= i -> Z.testbit (- 0) i = false /\ Z.testbit (- 1) i = true) /\
  (forall s, cSwap s x2 x3 =
     (Z.lxor x2 (Z.land (- s) (Z.lxor x2 x3)),
      Z.lxor x3 (Z.land (- s) (Z.lxor x2 x3)))).
Proof.
  split; [apply cSwap_0 | ].
  split; [apply cSwap_1 | ].
  split; [ | reflexivity].
  intros i Hi. split.
  - apply Z.testbit_0_l.
  - now apply Z.bits_m1.
Qed.

(** ** The machine-word ladder computes the spec ladder *)

Lemma Big_pow_pos_spec (a : bigZ) (e : positive) (p : bigZ) :
  BigZ.to_Z (Big.pow_pos a e p) = modPow_pos (BigZ.to_Z a) e (BigZ.to_Z p).
Proof.
  induction e as [e IH | e IH | ]; cbn [Big.pow_pos modPow_pos]; unfold Big.bmod;
    rewrite ?BigZ.spec_modulo, ?BigZ.spec_mul, ?BigZ.spec_modulo, ?BigZ.spec_mul, ?IH;
    reflexivity.
Qed.

Lemma Big_pow_spec (a : bigZ) (e : Z) (p : bigZ) :
  BigZ.to_Z (Big.pow a e p) = BigZ.to_Z a ^ e mod BigZ.to_Z p.
Proof.
  rewrite <- modPow_spec.
  destruct e; cbn [Big.pow modPow]; unfold Big.bmod.
  - now rewrite BigZ.spec_modulo.
  - apply Big_pow_pos_spec.
  - reflexivity.
Qed.

Lemma Big_step_abs (k : Z) (u p a24 : bigZ) (st : Big.state) (i : Z) :
  Big.abs (Big.step k u p a24 st i) =
  Spec.step k (BigZ.to_Z u) (BigZ.to_Z p) (BigZ.to_Z a24) (Big.abs st) i.
Proof.
  unfold Big.step, Spec.step, Big.abs, Big.toZ2, Big.bmod. cbn [Spec.sw Spec.P2 Spec.P3 fst snd].
  destruct (xorb (Big.sw st) (Z.testbit k i)); cbn [Big.cswap Spec.cswap Big.P2 Big.P3 Big.sw fst snd];
    rewrite !Z.pow_2_r;
    repeat (rewrite ?BigZ.spec_modulo, ?BigZ.spec_mul, ?BigZ.spec_add, ?BigZ.spec_sub);
    reflexivity.
Qed.

Lemma Big_fold_abs (k : Z) (u p a24 : bigZ) (l : list Z) :
  forall st,
    Big.abs (fold_left (Big.step k u p a24) l st) =
    fold_left (Spec.step k (BigZ.to_Z u) (BigZ.to_Z p) (BigZ.to_Z a24)) l (Big.abs st).
Proof.
  induction l as [ | i l IH]; intros st; cbn [fold_left].
  - reflexivity.
  - now rewrite IH, Big_step_abs.
Qed.

Lemma Big_ladder_spec (k u p a24 bits : Z) :
  Big.ladder k u p a24 bits = Spec.ladder k u p a24 bits.
Proof.
  unfold Big.ladder, Spec.ladder.
  set (init := {| Big.P2 := _ |}).
  set (st := fold_left _ _ init).
  pose proof (Big_fold_abs k (BigZ.of_Z u) (BigZ.of_Z p) (BigZ.of_Z a24)
                (Spec.indices bits) init) as H.
  fold st in H. rewrite !BigZ.spec_of_Z in H.
  assert (Hinit : Big.abs init =
                  {| Spec.P2 := (1, 0); Spec.P3 := (u, 1); Spec.sw := false |}).
  { unfold Big.abs, Big.toZ2, init. cbn [Big.P2 Big.P3 Big.sw fst snd].
    now rewrite BigZ.spec_of_Z. }
  rewrite Hinit in H. rewrite <- H.
  unfold Big.abs, Big.toZ2. cbn [Spec.sw Spec.P2 Spec.P3 fst snd]. unfold Big.bmod.
  destruct (Big.sw st); cbn [Big.cswap Spec.cswap];
    now rewrite BigZ.spec_modulo, BigZ.spec_mul, Big_pow_spec, !BigZ.spec_of_Z.
Qed.

Lemma ladder_Big (k u p a24 bits : Z) :
  ladder k u p a24 bits = Big.ladder k u p a24 bits.
Proof. now rewrite Big_ladder_spec, ladder_spec_eq. Qed.

(** ** Clamping *)

Lemma mask_bits (lo hi i : Z) :
  0 <= lo <= hi ->
  Z.testbit (2 ^ hi - 2 ^ lo) i = (lo <=? i) && (i <? hi).
Proof.
  intros H.
  replace (2 ^ hi - 2 ^ lo) with (Z.shiftl (Z.ones (hi - lo)) lo).
  2: { rewrite Z.shiftl_mul_pow2, Z.ones_equiv, <- Z.sub_1_r, Z.mul_sub_distr_r by lia.
       rewrite <- Z.pow_add_r by lia. f_equal; [f_equal | ]; lia. }
  destruct (Z.ltb_spec i 0) as [Hneg | Hpos].
  - rewrite Z.testbit_neg_r by assumption.
    symmetry. apply andb_false_intro1. apply Z.leb_gt. lia.
  - rewrite Z.shiftl_spec, Z.testbit_ones by lia.
    destruct (Z.leb_spec lo i), (Z.leb_spec 0 (i - lo)),
      (Z.ltb_spec (i - lo) (hi - lo)), (Z.ltb_spec i hi); try reflexivity; lia.
Qed.

Lemma clamp_mask_bits (lo hi d i : Z) :
  0 <= lo < hi ->
  Z.testbit (clamp_mask lo hi d) i =
  (i =? hi - 1) || (Z.testbit d i && ((lo <=? i) && (i <? hi))).
Proof.
  intros H. unfold clamp_mask.
  rewrite Z.lor_spec, Z.land_spec, mask_bits, Z.pow2_bits_eqb by lia.
  rewrite (Z.eqb_sym (hi - 1) i). apply orb_comm.
Qed.

Lemma clamp_mask_idem (lo hi d : Z) :
  0 <= lo < hi ->
  clamp_mask lo hi (clamp_mask lo hi d) = clamp_mask lo hi d.
Proof.
  intros H. apply Z.bits_inj'. intros i _.
  rewrite !clamp_mask_bits by assumption.
  destruct (i =? hi - 1), (Z.testbit d i), ((lo <=? i) && (i <? hi)); reflexivity.
Qed.

Lemma clamp_mask_nonneg (lo hi d : Z) :
  0 <= lo < hi -> 0 <= clamp_mask lo hi d.
Proof.
  intros H. unfold clamp_mask.
  apply Z.lor_nonneg. split.
  - apply Z.land_nonneg. right.
    assert (2 ^ lo <= 2 ^ hi) by (apply Z.pow_le_mono_r; lia). lia.
  - apply Z.pow_nonneg. lia.
Qed.

Lemma clamp_mask_range (lo hi d : Z) :
  0 <= lo < hi ->
  2 ^ (hi - 1) <= clamp_mask lo hi d < 2 ^ hi.
Proof.
  intros H.
  pose proof (clamp_mask_nonneg lo hi d H) as Hnn.
  set (c := clamp_mask lo hi d) in *.
  assert (Htop : Z.testbit c (hi - 1) = true).
  { unfold c. rewrite clamp_mask_bits by assumption. now rewrite Z.eqb_refl. }
  assert (Hpos : 0 < c).
  { destruct (Z.eq_dec c 0) as [E | E]; [ | lia].
    rewrite E, Z.testbit_0_l in Htop. discriminate. }
  split.
  - destruct (Z.le_gt_cases (2 ^ (hi - 1)) c) as [Hle | Hlt]; [exact Hle | ].
    apply Z.log2_lt_pow2 in Hlt; [ | assumption].
    rewrite Z.bits_above_log2 in Htop by lia. discriminate.
  - destruct (Z.lt_ge_cases c (2 ^ hi)) as [Hlt | Hge]; [exact Hlt | ].
    apply Z.log2_le_pow2 in Hge; [ | assumption].
    pose proof (Z.bit_log2 c Hpos) as Hb.
    unfold c in Hb at 1. rewrite clamp_mask_bits in Hb by assumption.
    fold c in Hb.
    destruct (Z.eqb_spec (Z.log2 c) (hi - 1)); [lia | ].
    destruct (Z.ltb_spec (Z.log2 c) hi); [lia | ].
    rewrite andb_false_r, andb_false_r in Hb. discriminate.
Qed.

Lemma x25519_clamp_mask (d : Z) : x25519.clamp d = clamp_mask 3 255 d.
Proof. reflexivity. Qed.

Lemma x448_clamp_mask (d : Z) : x448.clamp d = clamp_mask 2 448 d.
Proof. reflexivity. Qed.

(** C3: on Curve A [clamp] maps every integer [d] to
    [(d AND (2^255-8)) OR 2^254]: bit 254 is set, the bits 3 to 253 are those
    of [d], and every other bit (the bottom three, bit 255 and above) is
    clear; on Curve B it maps [d] to [(d AND (2^448-4)) OR 2^447]: bit 447
    is set, the bits 2 to 446 are those of [d], every other bit is clear.
    Both are total functions on the integers. *)
Theorem clamp_formulas (d : Z) :
  x25519.clamp d = Z.lor (Z.land d (2 ^ 255 - 8)) (2 ^ 254) /\
  (forall i, Z.testbit (x25519.clamp d) i =
             (i =? 254) || (Z.testbit d i && ((3 <=? i) && (i <? 255)))) /\
  x448.clamp d = Z.lor (Z.land d (2 ^ 448 - 4)) (2 ^ 447) /\
  (forall i, Z.testbit (x448.clamp d) i =
             (i =? 447) || (Z.testbit d i && ((2 <=? i) && (i <? 448)))).
Proof.
  split; [reflexivity | ].
  split; [intros i; rewrite x25519_clamp_mask; apply clamp_mask_bits; lia | ].
  split; [reflexivity | ].
  intros i; rewrite x448_clamp_mask; apply clamp_mask_bits; lia.
Qed.

Lemma only_from_ge (b : Z) (lad lad0 : Z -> Z -> Z -> Z -> Z -> Z) (k u p a24 bit : Z) :
  b <= k -> only_from b lad lad0 k u p a24 bit = lad k u p a24 bit.
Proof.
  intros H. unfold only_from.
  destruct (Z.ltb_spec k b); [lia | reflexivity].
Qed.

Lemma x25519_clamp_range (d : Z) : 2 ^ 254 <= x25519.clamp d < 2 ^ 255.
Proof. rewrite x25519_clamp_mask. apply (clamp_mask_range 3 255). lia. Qed.

Lemma x448_clamp_range (d : Z) : 2 ^ 447 <= x448.clamp d < 2 ^ 448.
Proof. rewrite x448_clamp_mask. apply (clamp_mask_range 2 448). lia. Qed.

(** C10: on each curve [clamp] is idempotent and its value is at least
    [2^254] (Curve A) or [2^447] (Curve B), hence nonzero; and the public
    operations call the ladder on such scalars only: what a ladder returns
    on scalars below that bound changes no result of [gen] or [ecdh],
    whatever the private key, one that decodes to zero included. *)
Theorem clamp_idempotent_nonzero (d : Z) :
  (x25519.clamp (x25519.clamp d) = x25519.clamp d /\
   2 ^ 254 <= x25519.clamp d /\ x25519.clamp d <> 0) /\
  (x448.clamp (x448.clamp d) = x448.clamp d /\
   2 ^ 447 <= x448.clamp d /\ x448.clamp d <> 0) /\
  (forall lad lad0 s_key p_key type w,
     x25519.ecdh_with (only_from (2 ^ 254) lad lad0) s_key p_key =
       x25519.ecdh_with lad s_key p_key /\
     x25519.gen_with (only_from (2 ^ 254) lad lad0) type w =
       x25519.gen_with lad type w /\
     x448.ecdh_with (only_from (2 ^ 447) lad lad0) s_key p_key =
       x448.ecdh_with lad s_key p_key /\
     x448.gen_with (only_from (2 ^ 447) lad lad0) type w =
       x448.gen_with lad type w).
Proof.
  pose proof (x25519_clamp_range d) as Ha.
  pose proof (x448_clamp_range d) as Hb.
  assert (0 < 2 ^ 254) by (apply Z.pow_pos_nonneg; lia).
  assert (0 < 2 ^ 447) by (apply Z.pow_pos_nonneg; lia).
  split; [ | split].
  - rewrite !x25519_clamp_mask. split; [apply clamp_mask_idem | ]; lia.
  - rewrite !x448_clamp_mask. split; [apply clamp_mask_idem | ]; lia.
  - intros lad lad0 s_key p_key type w.
    unfold x25519.ecdh_with, x448.ecdh_with, x25519.gen_with, x448.gen_with,
      x25519.gen_pair_with, x448.gen_pair_with.
    repeat split.
    + now rewrite only_from_ge by apply x25519_clamp_range.
    + destruct type; cbn [ec_gen_private_key];
        now rewrite ?only_from_ge by apply x25519_clamp_range.
    + now rewrite only_from_ge by apply x448_clamp_range.
    + destruct type; cbn [ec_gen_private_key];
        now rewrite ?only_from_ge by apply x448_clamp_range.
Qed.

(** ** The byte codec *)

Lemma getBIBits_nonneg (x : Z) : 0 <= getBIBits x.
Proof.
  unfold getBIBits. destruct (Z.leb_spec x 0); [lia | ].
  pose proof (Z.log2_nonneg x). lia.
Qed.

Lemma lt_pow2_getBIBits (x : Z) : 0 <= x -> x < 2 ^ getBIBits x.
Proof.
  intros Hx. unfold getBIBits. destruct (Z.leb_spec x 0) as [H0 | Hpos].
  - replace x with 0 by lia. reflexivity.
  - rewrite Z.add_1_r. now apply Z.log2_spec.
Qed.

Lemma getBIBits_le (x m : Z) : 0 <= m -> x < 2 ^ m -> getBIBits x <= m.
Proof.
  intros Hm Hx. unfold getBIBits. destruct (Z.leb_spec x 0) as [H0 | Hpos]; [lia | ].
  apply Z.log2_lt_pow2 in Hx; [lia | assumption].
Qed.

Lemma fromBI_length (x : Z) :
  length (U8.fromBI x) = Z.to_nat ((getBIBits x + 7) / 8).
Proof.
  unfold U8.fromBI. rewrite length_le_split, Z.shiftr_div_pow2 by lia.
  reflexivity.
Qed.

Lemma fromBI_length_le (x : Z) (w : nat) :
  x < 2 ^ (8 * Z.of_nat w) -> (length (U8.fromBI x) <= w)%nat.
Proof.
  intros Hx. rewrite fromBI_length.
  pose proof (getBIBits_le x (8 * Z.of_nat w) ltac:(lia) Hx) as Hb.
  pose proof (getBIBits_nonneg x) as Hnn.
  assert ((getBIBits x + 7) / 8 <= Z.of_nat w).
  { apply Z.lt_succ_r, Z.div_lt_upper_bound; lia. }
  lia.
Qed.

Lemma toBI_fromBI (x : Z) : 0 <= x -> U8.toBI (U8.fromBI x) = x.
Proof.
  intros Hx. unfold U8.toBI, U8.fromBI.
  rewrite le_combine_split, Z.shiftr_div_pow2 by lia.
  change (2 ^ 3) with 8.
  pose proof (getBIBits_nonneg x) as Hnn.
  pose proof (lt_pow2_getBIBits x Hx) as Hlt.
  set (b := getBIBits x) in *.
  rewrite Z2Nat.id by (apply Z.div_pos; lia).
  apply Z.mod_small. split; [assumption | ].
  eapply Z.lt_le_trans; [exact Hlt | ].
  apply Z.pow_le_mono_r; [lia | ].
  pose proof (Z.mod_pos_bound (b + 7) 8 ltac:(lia)).
  pose proof (Z.div_mod (b + 7) 8 ltac:(lia)). lia.
Qed.

Lemma toBI_padded (x : Z) (m : nat) :
  0 <= x -> U8.toBI (U8.fromBI x ++ repeat Byte.x00 m) = x.
Proof.
  intros Hx. unfold U8.toBI. rewrite le_combine_app_0.
  now apply toBI_fromBI.
Qed.

Lemma fromBI_0 : U8.fromBI 0 = [].
Proof. reflexivity. Qed.

Lemma set_new (w : Z) (src : list byte) :
  (length src <= Z.to_nat w)%nat ->
  U8.set (U8.new w) src = Ok (src ++ repeat Byte.x00 (Z.to_nat w - length src)).
Proof.
  intros H. unfold U8.set, U8.new. rewrite repeat_length.
  destruct (Nat.leb_spec (length src) (Z.to_nat w)) as [_ | Hgt]; [ | lia].
  do 2 f_equal.
  replace (Z.to_nat w) with (length src + (Z.to_nat w - length src))%nat at 1 by lia.
  rewrite repeat_app, skipn_app, repeat_length, Nat.sub_diag.
  rewrite skipn_all2 by (rewrite repeat_length; lia).
  reflexivity.
Qed.

(** ** The ladder stays in the field *)

Lemma ladder_range (k u p a24 bit : Z) :
  0 < p -> 0 <= ladder k u p a24 bit < p.
Proof.
  intros Hp. unfold ladder.
  destruct (cSwap _ _ _) as [x2 x3]. destruct (cSwap _ _ _) as [z2 z3].
  cbn [multiply Fp]. now apply Z.mod_pos_bound.
Qed.

Lemma x25519_p_pos : 0 < x25519.p < 2 ^ (8 * Z.of_nat 32).
Proof. now vm_compute. Qed.

Lemma x448_p_pos : 0 < x448.p < 2 ^ (8 * Z.of_nat 56).
Proof. now vm_compute. Qed.

Lemma x25519_p_byte : x25519.p_byte = 32.
Proof. reflexivity. Qed.

Lemma x448_n_byte : x448.n_byte = 56.
Proof. reflexivity. Qed.

(** The public key that both ladder branches of [gen] build. *)
Lemma x25519_gen_pair (d_buffer : list byte) (d : Z) :
  exists x Q,
    x = ladder (x25519.clamp d) x25519.Gx x25519.p x25519.a24 255 /\
    length Q = 32%nat /\
    U8.toBI Q = x /\
    x25519.gen_pair_with ladder d_buffer d = Ok (KeyPair Q d_buffer).
Proof.
  pose proof (ladder_range (x25519.clamp d) x25519.Gx x25519.p x25519.a24 255
                (proj1 x25519_p_pos)) as Hr.
  unfold x25519.gen_pair_with.
  remember (ladder (x25519.clamp d) x25519.Gx x25519.p x25519.a24 255) as x eqn:Hx.
  assert (Hlen : (length (U8.fromBI x) <= 32)%nat).
  { apply fromBI_length_le. pose proof x25519_p_pos. lia. }
  exists x, (U8.fromBI x ++ repeat Byte.x00 (32 - length (U8.fromBI x))).
  split; [reflexivity | ]. split; [ | split].
  - rewrite length_app, repeat_length. lia.
  - apply toBI_padded. lia.
  - rewrite x25519_p_byte, set_new by (exact Hlen). reflexivity.
Qed.
Lemma x448_gen_pair (d_buffer : list byte) (d : Z) :
  exists x Q,
    x = ladder (x448.clamp d) x448.Gx x448.p x448.a24 448 /\
    length Q = 56%nat /\
    U8.toBI Q = x /\
    x448.gen_pair_with ladder d_buffer d = Ok (KeyPair Q d_buffer).
Proof.
  pose proof (ladder_range (x448.clamp d) x448.Gx x448.p x448.a24 448
                (proj1 x448_p_pos)) as Hr.
  unfold x448.gen_pair_with.
  remember (ladder (x448.clamp d) x448.Gx x448.p x448.a24 448) as x eqn:Hx.
  assert (Hlen : (length (U8.fromBI x) <= 56)%nat).
  { apply fromBI_length_le. pose proof x448_p_pos. lia. }
  exists x, (U8.fromBI x ++ repeat Byte.x00 (56 - length (U8.fromBI x))).
  split; [reflexivity | ]. split; [ | split].
  - rewrite length_app, repeat_length. lia.
  - apply toBI_padded. lia.
  - rewrite x448_n_byte, set_new by (exact Hlen). reflexivity.
Qed.
(** ** What the operations return *)

Lemma x25519_gen_public_key (lad : Z -> Z -> Z -> Z -> Z -> Z) (s_key : keyval) (w : entropy) :
  x25519.gen_with lad (public_key s_key) w =
  if U8.toBI (key_to_U8 s_key) =? 0
  then (Throw (KitError "Invalid private key"), w)
  else (x25519.gen_pair_with lad (key_to_U8 s_key) (U8.toBI (key_to_U8 s_key)), w).
Proof. reflexivity. Qed.

Lemma x448_gen_public_key (lad : Z -> Z -> Z -> Z -> Z -> Z) (s_key : keyval) (w : entropy) :
  x448.gen_with lad (public_key s_key) w =
  if U8.toBI (key_to_U8 s_key) =? 0
  then (Throw (KitError "Invalid private key"), w)
  else (x448.gen_pair_with lad (key_to_U8 s_key) (U8.toBI (key_to_U8 s_key)), w).
Proof. reflexivity. Qed.

Lemma x25519_gen_throws (type : gen_type) (w : entropy) (e : error) :
  fst (x25519.gen type w) = Throw e <->
  exists s_key, type = public_key s_key /\ U8.toBI (key_to_U8 s_key) = 0 /\
                e = KitError "Invalid private key".
Proof.
  unfold x25519.gen. destruct type as [ | | s_key]; cbn [x25519.gen_with ec_gen_private_key fst].
  - destruct (x25519_gen_pair (draw w (used w)) (U8.toBI (draw w (used w))))
      as (x & Q & _ & _ & _ & ->).
    split; [discriminate | intros (s & Hs & _); discriminate].
  - split; [discriminate | intros (s & Hs & _); discriminate].
  - destruct (Z.eqb_spec (U8.toBI (key_to_U8 s_key)) 0) as [E | E]; cbn [fst].
    + split.
      * intros [= <-]. now exists s_key.
      * intros (s & [= <-] & _ & ->). reflexivity.
    + destruct (x25519_gen_pair (key_to_U8 s_key) (U8.toBI (key_to_U8 s_key)))
        as (x & Q & _ & _ & _ & ->).
      split; [discriminate | intros (s & [= <-] & Hz & _); contradiction].
Qed.

Lemma x448_gen_throws (type : gen_type) (w : entropy) (e : error) :
  fst (x448.gen type w) = Throw e <->
  exists s_key, type = public_key s_key /\ U8.toBI (key_to_U8 s_key) = 0 /\
                e = KitError "Invalid private key".
Proof.
  unfold x448.gen. destruct type as [ | | s_key]; cbn [x448.gen_with ec_gen_private_key fst].
  - destruct (x448_gen_pair (draw w (used w)) (U8.toBI (draw w (used w))))
      as (x & Q & _ & _ & _ & ->).
    split; [discriminate | intros (s & Hs & _); discriminate].
  - split; [discriminate | intros (s & Hs & _); discriminate].
  - destruct (Z.eqb_spec (U8.toBI (key_to_U8 s_key)) 0) as [E | E]; cbn [fst].
    + split.
      * intros [= <-]. now exists s_key.
      * intros (s & [= <-] & _ & ->). reflexivity.
    + destruct (x448_gen_pair (key_to_U8 s_key) (U8.toBI (key_to_U8 s_key)))
        as (x & Q & _ & _ & _ & ->).
      split; [discriminate | intros (s & [= <-] & Hz & _); contradiction].
Qed.

Lemma lift_gen_throws (r : result gen_output * entropy) (e : error) :
  fst (lift_gen r) = Throw e <-> fst r = Throw e.
Proof. destruct r as [[g | e'] w]; cbn; split; congruence. Qed.

(** C4: on both curves a public operation raises an error if and only if it
    is derive-public-key ([gen] with ['public_key']) and the private key
    decodes to the integer 0, and the error is then the invalid-key error;
    [gen] decides this before it calls the ladder, whatever the ladder is.
    Generating a key pair or a private key and key agreement never raise:
    key agreement returns a byte string for every private key and every
    peer value. *)
Theorem error_iff_zero_private_key (c : curve) (o : operation) (w : entropy) (e : error) :
  (fst (invoke c o w) = Throw e <->
   exists s_key, o = Gen (public_key s_key) /\ U8.toBI (key_to_U8 s_key) = 0 /\
                 e = KitError "Invalid private key") /\
  (forall lad s_key,
     x25519.gen_with lad (public_key s_key) w =
       (if U8.toBI (key_to_U8 s_key) =? 0
        then (Throw (KitError "Invalid private key"), w)
        else (x25519.gen_pair_with lad (key_to_U8 s_key) (U8.toBI (key_to_U8 s_key)), w)) /\
     x448.gen_with lad (public_key s_key) w =
       (if U8.toBI (key_to_U8 s_key) =? 0
        then (Throw (KitError "Invalid private key"), w)
        else (x448.gen_pair_with lad (key_to_U8 s_key) (U8.toBI (key_to_U8 s_key)), w))) /\
  (forall s_key p_key,
     invoke c (Ecdh s_key p_key) w =
       (Ok (Secret (match c with
                    | CurveA => x25519.ecdh s_key p_key
                    | CurveB => x448.ecdh s_key p_key
                    end)), w)).
Proof.
  split; [ | split].
  - destruct c, o as [type | sk pk]; cbn [invoke].
    + rewrite lift_gen_throws, x25519_gen_throws.
      split; intros (s & H1 & H2); exists s; (split; [congruence | exact H2]).
    + cbn [fst]. split; [discriminate | intros (s & Hs & _); discriminate].
    + rewrite lift_gen_throws, x448_gen_throws.
      split; intros (s & H1 & H2); exists s; (split; [congruence | exact H2]).
    + cbn [fst]. split; [discriminate | intros (s & Hs & _); discriminate].
  - intros lad s_key. split; reflexivity.
  - intros s_key p_key. destruct c; reflexivity.
Qed.





(** C9: derive-public-key and key agreement are deterministic on both
    curves: their result is the same whatever the state of the entropy
    source they are invoked in, they leave that state as it is, and so two
    invocations in a row on the same arguments return the same value. *)
Theorem derive_and_agree_deterministic (c : curve) (s_key p_key : keyval)
    (w1 w2 : entropy) :
  let derive := invoke c (Gen (public_key s_key)) in
  let agree := invoke c (Ecdh s_key p_key) in
  fst (derive w1) = fst (derive w2) /\ snd (derive w1) = w1 /\
  fst (derive (snd (derive w1))) = fst (derive w1) /\
  fst (agree w1) = fst (agree w2) /\ snd (agree w1) = w1 /\
  fst (agree (snd (agree w1))) = fst (agree w1).
Proof.
  assert (Hd : forall w, invoke c (Gen (public_key s_key)) w =
                         (fst (invoke c (Gen (public_key s_key)) w1), w)).
  { intros w. destruct c; cbn [invoke].
    - unfold x25519.gen. rewrite !x25519_gen_public_key.
      destruct (_ =? 0); [reflexivity | ].
      now destruct (x25519.gen_pair_with _ _ _).
    - unfold x448.gen. rewrite !x448_gen_public_key.
      destruct (_ =? 0); [reflexivity | ].
      now destruct (x448.gen_pair_with _ _ _). }
  assert (Ha : forall w, invoke c (Ecdh s_key p_key) w =
                         (fst (invoke c (Ecdh s_key p_key) w1), w)).
  { intros w. destruct c; reflexivity. }
  cbv zeta.
  rewrite (Hd w2), (Hd (snd _)), (Ha w2), (Ha (snd _)).
  cbn [fst snd]. rewrite (Hd w1), (Ha w1). cbn [fst snd].
  repeat split.
Qed.

(** ** Running the operations on test vectors *)

Lemma x25519_ecdh_Big (s_key p_key : keyval) :
  x25519.ecdh s_key p_key = x25519.ecdh_with Big.ladder s_key p_key.
Proof. unfold x25519.ecdh, x25519.ecdh_with. now rewrite ladder_Big. Qed.

Lemma x448_ecdh_Big (s_key p_key : keyval) :
  x448.ecdh s_key p_key = x448.ecdh_with Big.ladder s_key p_key.
Proof. unfold x448.ecdh, x448.ecdh_with. now rewrite ladder_Big. Qed.

Lemma x25519_gen_Big (type : gen_type) (w : entropy) :
  x25519.gen type w = x25519.gen_with Big.ladder type w.
Proof.
  unfold x25519.gen, x25519.gen_with, x25519.gen_pair_with.
  destruct type; cbn [ec_gen_private_key]; rewrite ?ladder_Big; reflexivity.
Qed.

Lemma x448_gen_Big (type : gen_type) (w : entropy) :
  x448.gen type w = x448.gen_with Big.ladder type w.
Proof.
  unfold x448.gen, x448.gen_with, x448.gen_pair_with.
  destruct type; cbn [ec_gen_private_key]; rewrite ?ladder_Big; reflexivity.
Qed.

(** C6, as the spec states it: whichever way the 63 digits of the scalar
    and of the u-coordinate are made into 32 bytes, key agreement on
    Curve A does not return the secret of the spec. *)
Lemma spec_vector_mismatch :
  Forall (fun k =>
    Forall (fun u => x25519.ecdh (Bytes k) (Bytes u) <> hex Vector.spec_secret)
           (Vector.readings Vector.spec_u))
    (Vector.readings Vector.spec_scalar).
Proof.
  unfold Vector.readings.
  repeat (apply Forall_cons || apply Forall_nil);
    rewrite x25519_ecdh_Big; vm_compute; discriminate.
Qed.

(** C6, amended: key agreement on Curve A applied to the input of RFC 7748,
    section 5.2 (the scalar a546...9ac4 and the u-coordinate e6db...1c4c, 64
    digits each, read as 32 little-endian bytes) returns the 32 bytes
    c3da55379de9c6908e94ea4df28d084f32eccf03491c71f754b4075577a28552. *)
Theorem rfc7748_vector :
  x25519.ecdh (Bytes (hex Vector.rfc_scalar)) (Bytes (hex Vector.rfc_u)) =
  hex Vector.spec_secret.
Proof. rewrite x25519_ecdh_Big. vm_compute. reflexivity. Qed.

(** C2, on the code: the public key of a generated pair has 32 bytes, and
    key agreement between two private keys of 32 bytes returns 31 bytes;
    with the all-zero peer value it returns no byte at all, on both
    curves. *)
Theorem ecdh_secret_not_fixed_width :
  (exists pkB w',
     x25519.gen key_pair Vector.rngB = (Ok (KeyPair pkB Vector.skB), w') /\
     length pkB = 32%nat /\
     length (x25519.ecdh (Bytes Vector.skA) (Bytes pkB)) = 31%nat) /\
  x25519.ecdh (Bytes Vector.skA) (Bytes (repeat Byte.x00 32)) = [] /\
  x448.ecdh (Bytes (fit 56 Vector.skA)) (Bytes (repeat Byte.x00 56)) = [].
Proof.
  split; [ | split].
  - eexists. eexists.
    rewrite x25519_gen_Big.
    split; [vm_compute; reflexivity | ].
    split; [reflexivity | ].
    rewrite x25519_ecdh_Big. vm_compute. reflexivity.
  - rewrite x25519_ecdh_Big. vm_compute. reflexivity.
  - rewrite x448_ecdh_Big. vm_compute. reflexivity.
Qed.

(** The widths that do hold: the public key that [gen] returns has the width
    of the curve. *)
Lemma x25519_public_key_width (type : gen_type) (w : entropy) (Q d : list byte) :
  fst (x25519.gen type w) = Ok (KeyPair Q d) -> length Q = 32%nat.
Proof.
  unfold x25519.gen.
  destruct type as [ | | s_key]; cbn [x25519.gen_with ec_gen_private_key fst].
  - destruct (x25519_gen_pair (draw w (used w)) (U8.toBI (draw w (used w))))
      as (x & Q' & _ & Hlen & _ & ->).
    now intros [= <- _].
  - intros [=].
  - destruct (_ =? 0); cbn [fst]; [discriminate | ].
    destruct (x25519_gen_pair (key_to_U8 s_key) (U8.toBI (key_to_U8 s_key)))
      as (x & Q' & _ & Hlen & _ & ->).
    now intros [= <- _].
Qed.

Lemma x448_public_key_width (type : gen_type) (w : entropy) (Q d : list byte) :
  fst (x448.gen type w) = Ok (KeyPair Q d) -> length Q = 56%nat.
Proof.
  unfold x448.gen.
  destruct type as [ | | s_key]; cbn [x448.gen_with ec_gen_private_key fst].
  - destruct (x448_gen_pair (draw w (used w)) (U8.toBI (draw w (used w))))
      as (x & Q' & _ & Hlen & _ & ->).
    now intros [= <- _].
  - intros [=].
  - destruct (_ =? 0); cbn [fst]; [discriminate | ].
    destruct (x448_gen_pair (key_to_U8 s_key) (U8.toBI (key_to_U8 s_key)))
      as (x & Q' & _ & Hlen & _ & ->).
    now intros [= <- _].
Qed.


(** * The group law and the ladder *)

Lemma fast_pow_spec (a e n : Z) : 0 <= e -> fast_pow a e n = a ^ e mod n.
Proof. intros _. unfold fast_pow. now rewrite Big_pow_spec, !BigZ.spec_of_Z. Qed.

Section Field.
Context {p : Z} (Hp : Z.prime p) (Hp2 : 2 < p).
Local Open Scope Zmod_scope.

Add Field Fp_field : (Zmod.field_theory p Hp).

Lemma F_integral (a b : Zmod p) : a * b = 0 -> a = 0 \/ b = 0.
Proof. intros H. now apply (Zmod.mul_0_iff_prime Hp). Qed.

Lemma F_mul_nz (a b : Zmod p) : a <> 0 -> b <> 0 -> a * b <> 0.
Proof. intros Ha Hb H. destruct (F_integral _ _ H); contradiction. Qed.

Lemma F_1_neq_0 : (1 : Zmod p) <> 0.
Proof. apply Zmod.one_neq_zero. lia. Qed.

Lemma F_2_neq_0 : (1 + 1 : Zmod p) <> 0.
Proof.
  intros H. apply (f_equal Zmod.to_Z) in H.
  rewrite Zmod.unsigned_add, Zmod.unsigned_1_pos, Zmod.unsigned_0 in H by lia.
  rewrite Z.mod_small in H by lia. discriminate.
Qed.

Lemma F_eq_dec (a b : Zmod p) : a = b \/ a <> b.
Proof. destruct (Zmod.eqb_spec a b); [now left | now right]. Qed.

Lemma F_inv_r (a : Zmod p) : a <> 0 -> a * Zmod.inv a = 1.
Proof. intros H. now apply Zmod.mul_inv_same_r_prime. Qed.

Lemma F_lin2 (A B c1 e1 c2 e2 : Zmod p) :
  e1 = 0 -> e2 = 0 -> A = B + c1 * e1 + c2 * e2 -> A = B.
Proof. intros -> -> ->. ring. Qed.

Lemma F_lin3 (A B c1 e1 c2 e2 c3 e3 : Zmod p) :
  e1 = 0 -> e2 = 0 -> e3 = 0 -> A = B + c1 * e1 + c2 * e2 + c3 * e3 -> A = B.
Proof. intros -> -> -> ->. ring. Qed.

Lemma F_sub_0 (a b : Zmod p) : a = b -> a - b = 0.
Proof. intros ->. ring. Qed.

Lemma F_frac_eq (a b c e : Zmod p) :
  b <> 0 -> e <> 0 -> a * e = c * b -> a * Zmod.inv b = c * Zmod.inv e.
Proof. intros Hb He H. field_simplify_eq; [ | split; assumption]. rewrite H. ring. Qed.


Lemma p_odd : (2 * ((p - 1) / 2) = p - 1)%Z.
Proof.
  destruct Hp as [_ Hdiv].
  assert (Hm : (p mod 2 <> 0)%Z).
  { intros H. apply (Hdiv 2%Z ltac:(lia)). now apply Z.mod_divide. }
  pose proof (Z.mod_pos_bound p 2 ltac:(lia)).
  pose proof (Z.div_mod (p - 1) 2 ltac:(lia)).
  pose proof (Z.div_mod p 2 ltac:(lia)).
  pose proof (Z.mod_pos_bound (p - 1) 2 ltac:(lia)).
  lia.
Qed.

(** Euler's criterion, the half that is needed: an element whose
    [(p - 1) / 2]-th power is [p - 1] is not a square. *)
Lemma euler_nonsquare (dz : Z) :
  fast_pow dz ((p - 1) / 2) p = (p - 1)%Z ->
  forall s : Zmod p, s * s <> Zmod.of_Z p dz.
Proof.
  intros Hpow s Hs.
  assert (He : (0 <= (p - 1) / 2)%Z) by (apply Z.div_pos; lia).
  rewrite fast_pow_spec in Hpow by exact He.
  assert (Hd : Zmod.pow (Zmod.of_Z p dz) ((p - 1) / 2) = Zmod.opp 1).
  { apply Zmod.unsigned_inj.
    rewrite Zmod.unsigned_pow_nonneg_r, Zmod.unsigned_of_Z by exact He.
    rewrite <- Zpower_mod by lia.
    rewrite Hpow. now rewrite Zmod.unsigned_m1_pos by lia. }
  assert (Hs0 : s <> 0).
  { intros ->. rewrite <- Hs in Hd.
    apply (f_equal Zmod.to_Z) in Hd.
    rewrite Zmod.unsigned_pow_nonneg_r, Zmod.unsigned_m1_pos in Hd by lia.
    replace (0 * 0 : Zmod p) with (0 : Zmod p) in Hd by ring.
    rewrite Zmod.unsigned_0 in Hd.
    destruct (Z.eq_dec ((p - 1) / 2) 0) as [E | E].
    - pose proof p_odd. lia.
    - rewrite Z.pow_0_l in Hd by lia. cbn in Hd. lia. }
  rewrite <- Hs in Hd.
  rewrite <- Zmod.pow_2_r in Hd.
  rewrite <- Zmod.pow_mul_r_nonneg in Hd by lia.
  rewrite p_odd in Hd.
  replace (p - 1)%Z with (Z.pred p) in Hd by lia.
  rewrite Zmod.fermat_nz in Hd by assumption.
  apply (f_equal (fun z => z + 1)) in Hd.
  replace (Zmod.opp 1 + 1 : Zmod p) with (0 : Zmod p) in Hd by ring.
  now apply F_2_neq_0.
Qed.

Lemma frac_of_product (s x y : Zmod p) :
  1 - y <> 0 -> x * (1 - y) = s * (1 + y) -> s * (1 + y) * Zmod.inv (1 - y) = x.
Proof. intros Hy H. rewrite <- H. field. exact Hy. Qed.

Section Edwards.
Variable d : Zmod p.
Hypothesis Hd : forall s : Zmod p, s * s <> d.

Lemma on_curve_eq0 (x y : Zmod p) :
  Ed.on_curve d (x, y) -> x * x + y * y - 1 - d * x * x * y * y = 0.
Proof. unfold Ed.on_curve. intros H. rewrite H. ring. Qed.

Lemma no_unit_product (x1 y1 x2 y2 : Zmod p) :
  Ed.on_curve d (x1, y1) -> Ed.on_curve d (x2, y2) ->
  let e := d * x1 * x2 * y1 * y2 in
  e * e <> 1.
Proof.
  intros H1 H2 e He.
  apply on_curve_eq0 in H1, H2.
  assert (H3 : e * e - 1 = 0) by (rewrite He; ring).
  assert (Hnz : e <> 0).
  { intros E0. rewrite E0 in He. apply F_1_neq_0. rewrite <- He. ring. }
  assert (Hx1 : x1 <> 0) by (intros E0; apply Hnz; unfold e; rewrite E0; ring).
  assert (Hy1 : y1 <> 0) by (intros E0; apply Hnz; unfold e; rewrite E0; ring).
  assert (Hx2 : x2 <> 0) by (intros E0; apply Hnz; unfold e; rewrite E0; ring).
  assert (A : (x1 + e * y1) * (x1 + e * y1) =
              d * ((x1 * y1 * (x2 + y2)) * (x1 * y1 * (x2 + y2)))).
  { apply (F_lin3 _ _ 1 _ (- (d * x1 * x1 * y1 * y1)) _ (y1 * y1 - 1) _ H1 H2 H3).
    unfold e. ring. }
  assert (B : (x1 - e * y1) * (x1 - e * y1) =
              d * ((x1 * y1 * (x2 - y2)) * (x1 * y1 * (x2 - y2)))).
  { apply (F_lin3 _ _ 1 _ (- (d * x1 * x1 * y1 * y1)) _ (y1 * y1 - 1) _ H1 H2 H3).
    unfold e. ring. }
  assert (Sq : forall a w : Zmod p, w <> 0 -> a * a = d * (w * w) -> False).
  { intros a w Hw Haw. apply (Hd (a * Zmod.inv w)).
    field_simplify_eq; [ | exact Hw]. rewrite Haw. ring. }
  destruct (F_eq_dec (x2 + y2) 0) as [Hs | Hs].
  - destruct (F_eq_dec (x2 - y2) 0) as [Hm | Hm].
    + apply Hx2.
      assert (H2x : (1 + 1) * x2 = 0).
      { transitivity ((x2 + y2) + (x2 - y2)); [ring | rewrite Hs, Hm; ring]. }
      destruct (F_integral _ _ H2x) as [E2 | E2]; [now apply F_2_neq_0 in E2 | exact E2].
    + apply (Sq _ _ (F_mul_nz _ _ (F_mul_nz _ _ Hx1 Hy1) Hm) B).
  - apply (Sq _ _ (F_mul_nz _ _ (F_mul_nz _ _ Hx1 Hy1) Hs) A).
Qed.

Lemma denominators_nz (x1 y1 x2 y2 : Zmod p) :
  Ed.on_curve d (x1, y1) -> Ed.on_curve d (x2, y2) ->
  1 + d * x1 * x2 * y1 * y2 <> 0 /\ 1 - d * x1 * x2 * y1 * y2 <> 0.
Proof.
  intros H1 H2. pose proof (no_unit_product x1 y1 x2 y2 H1 H2) as Hu.
  cbv zeta in Hu. set (e := d * x1 * x2 * y1 * y2) in *.
  split; intros E0; apply Hu.
  - transitivity (1 + (1 + e) * (e - 1)); [ring | rewrite E0; ring].
  - transitivity (1 - (1 - e) * (1 + e)); [ring | rewrite E0; ring].
Qed.

Lemma of_point_represents (P : Ed.point p) : Ed.represents (Ed.of_point P) P.
Proof.
  unfold Ed.represents, Ed.of_point. cbn.
  repeat split; try apply F_1_neq_0; ring.
Qed.

Lemma represents_inj (f g : Ed.frac p) (P Q : Ed.point p) :
  Ed.represents f P -> Ed.represents g Q ->
  Ed.nx f * Ed.dx g = Ed.nx g * Ed.dx f ->
  Ed.ny f * Ed.dy g = Ed.ny g * Ed.dy f ->
  P = Q.
Proof.
  destruct P as [x y], Q as [x' y'].
  intros (Hdx & Hdy & Hx & Hy) (Hdx' & Hdy' & Hx' & Hy') Ex Ey.
  cbn [fst snd] in *.
  rewrite <- Hx, <- Hx' in Ex. rewrite <- Hy, <- Hy' in Ey.
  f_equal.
  - assert (E0 : (x - x') * (Ed.dx f * Ed.dx g) = 0).
    { transitivity (x * Ed.dx f * Ed.dx g - x' * Ed.dx g * Ed.dx f); [ring | ].
      rewrite Ex. ring. }
    destruct (F_integral _ _ E0) as [E1 | E1].
    + transitivity (x' + (x - x')); [ring | rewrite E1; ring].
    + destruct (F_integral _ _ E1); contradiction.
  - assert (E0 : (y - y') * (Ed.dy f * Ed.dy g) = 0).
    { transitivity (y * Ed.dy f * Ed.dy g - y' * Ed.dy g * Ed.dy f); [ring | ].
      rewrite Ey. ring. }
    destruct (F_integral _ _ E0) as [E1 | E1].
    + transitivity (y' + (y - y')); [ring | rewrite E1; ring].
    + destruct (F_integral _ _ E1); contradiction.
Qed.

Lemma fadd_represents (f g : Ed.frac p) (P Q : Ed.point p) :
  Ed.on_curve d P -> Ed.on_curve d Q ->
  Ed.represents f P -> Ed.represents g Q ->
  Ed.represents (Ed.fadd d f g) (Ed.add d P Q).
Proof.
  destruct P as [x1 y1], Q as [x2 y2].
  intros H1 H2 (Hdx & Hdy & Hx & Hy) (Hdx' & Hdy' & Hx' & Hy').
  destruct (denominators_nz x1 y1 x2 y2 H1 H2) as [Dp Dm].
  cbn [fst snd] in *.
  unfold Ed.represents, Ed.fadd, Ed.add. cbn [Ed.nx Ed.dx Ed.ny Ed.dy fst snd].
  rewrite <- Hx, <- Hy, <- Hx', <- Hy'.
  assert (HD : Ed.dx f * Ed.dy f * Ed.dx g * Ed.dy g <> 0)
    by (repeat apply F_mul_nz; assumption).
  split; [ | split; [ | split]].
  - replace (_ + _) with ((1 + d * x1 * x2 * y1 * y2) *
                          (Ed.dx f * Ed.dy f * Ed.dx g * Ed.dy g)) by ring.
    now apply F_mul_nz.
  - replace (_ - _) with ((1 - d * x1 * x2 * y1 * y2) *
                          (Ed.dx f * Ed.dy f * Ed.dx g * Ed.dy g)) by ring.
    now apply F_mul_nz.
  - field. exact Dp.
  - field. exact Dm.
Qed.

Lemma closure_cert (x1 y1 x2 y2 : Zmod p) :
  Ed.on_curve d (x1, y1) -> Ed.on_curve d (x2, y2) ->
  let f := Ed.fadd d (Ed.of_point (x1, y1)) (Ed.of_point (x2, y2)) in
  Ed.nx f * Ed.nx f * (Ed.dy f * Ed.dy f) + Ed.ny f * Ed.ny f * (Ed.dx f * Ed.dx f) =
  Ed.dx f * Ed.dx f * (Ed.dy f * Ed.dy f) +
  d * (Ed.nx f * Ed.nx f) * (Ed.ny f * Ed.ny f).
Proof.
  intros H1 H2. apply on_curve_eq0 in H1, H2.
  cbv [Ed.fadd Ed.of_point Ed.nx Ed.dx Ed.ny Ed.dy fst snd].
  apply (F_lin2 _ _
    (
     y2*y2*y2*y2 + (1+1+1+1)*x2*x2*y2*y2 - (1+1)*x2*x2*y2*y2*y2*y2 +
     x2*x2*x2*x2 - (1+1)*x2*x2*x2*x2*y2*y2 - (1+1)*d*x2*x2*y2*y2 +
     (1+1)*d*x2*x2*x2*x2*y2*y2*y2*y2 - d*y1*y1*x2*x2*y2*y2*y2*y2 -
     d*y1*y1*x2*x2*x2*x2*y2*y2 - d*x1*x1*x2*x2*y2*y2*y2*y2 -
     d*x1*x1*x2*x2*x2*x2*y2*y2 - d*d*x2*x2*x2*x2*y2*y2*y2*y2 +
     d*d*y1*y1*x2*x2*x2*x2*y2*y2*y2*y2 + d*d*x1*x1*x2*x2*x2*x2*y2*y2*y2*y2 +
     d*d*d*x1*x1*y1*y1*x2*x2*x2*x2*y2*y2*y2*y2)
    _
    (
     1 + y2*y2 + x2*x2 - (1+1)*x2*x2*y2*y2 - y1*y1*y2*y2 - y1*y1*x2*x2 +
     (1+1)*y1*y1*x2*x2*y2*y2 - x1*x1*y2*y2 - x1*x1*x2*x2 +
     (1+1)*x1*x1*x2*x2*y2*y2 + d*x2*x2*y2*y2 - (1+1)*d*y1*y1*x2*x2*y2*y2 +
     d*y1*y1*y1*y1*x2*x2*y2*y2 - (1+1)*d*x1*x1*x2*x2*y2*y2 +
     d*x1*x1*x1*x1*x2*x2*y2*y2)
    _ H1 H2).
  ring.
Qed.

Lemma add_on_curve (P Q : Ed.point p) :
  Ed.on_curve d P -> Ed.on_curve d Q -> Ed.on_curve d (Ed.add d P Q).
Proof.
  intros H1 H2.
  pose proof (fadd_represents _ _ P Q H1 H2 (of_point_represents P) (of_point_represents Q))
    as (Hdx & Hdy & Hx & Hy).
  destruct P as [x1 y1], Q as [x2 y2].
  pose proof (closure_cert x1 y1 x2 y2 H1 H2) as Hc. cbv zeta in Hc.
  set (f := Ed.fadd d _ _) in *.
  destruct (Ed.add d (x1, y1) (x2, y2)) as [X Y]. cbn [fst snd] in *.
  unfold Ed.on_curve.
  rewrite <- Hx, <- Hy in Hc.
  assert (E0 : (X * X + Y * Y - (1 + d * X * X * Y * Y)) *
               (Ed.dx f * Ed.dx f * (Ed.dy f * Ed.dy f)) = 0).
  { transitivity (X * Ed.dx f * (X * Ed.dx f) * (Ed.dy f * Ed.dy f) +
                  Y * Ed.dy f * (Y * Ed.dy f) * (Ed.dx f * Ed.dx f) -
                  (Ed.dx f * Ed.dx f * (Ed.dy f * Ed.dy f) +
                   d * (X * Ed.dx f * (X * Ed.dx f)) * (Y * Ed.dy f * (Y * Ed.dy f))));
      [ring | rewrite Hc; ring]. }
  destruct (F_integral _ _ E0) as [E1 | E1].
  - transitivity ((1 + d * X * X * Y * Y) + (X * X + Y * Y - (1 + d * X * X * Y * Y)));
      [ring | rewrite E1; ring].
  - exfalso. revert E1. repeat apply F_mul_nz; assumption.
Qed.

Lemma assoc_cert (x1 y1 x2 y2 x3 y3 : Zmod p) :
  Ed.on_curve d (x1, y1) -> Ed.on_curve d (x2, y2) -> Ed.on_curve d (x3, y3) ->
  let f1 := Ed.of_point (x1, y1) in
  let f2 := Ed.of_point (x2, y2) in
  let f3 := Ed.of_point (x3, y3) in
  let l := Ed.fadd d (Ed.fadd d f1 f2) f3 in
  let r := Ed.fadd d f1 (Ed.fadd d f2 f3) in
  Ed.nx l * Ed.dx r = Ed.nx r * Ed.dx l /\
  Ed.ny l * Ed.dy r = Ed.ny r * Ed.dy l.
Proof.
  intros H1 H2 H3. apply on_curve_eq0 in H1, H2, H3.
  cbv [Ed.fadd Ed.of_point Ed.nx Ed.dx Ed.ny Ed.dy fst snd].
  split.
  - apply (F_lin3 _ _
      (
     - d*y1*x2*y2*y2*y2*y2*x3*x3*y3 - d*y1*x2*x2*y2*y2*y2*x3 +
     d*y1*x2*x2*y2*y2*y2*x3*x3*x3 - d*y1*x2*x2*x2*y2*y2*y3 +
     d*y1*x2*x2*x2*y2*y2*y3*y3*y3 - d*y1*x2*x2*x2*x2*y2*x3*y3*y3 +
     d*x1*x2*y2*y2*y2*y2*x3*y3*y3 - d*x1*x2*x2*y2*y2*y2*y3 +
     d*x1*x2*x2*y2*y2*y2*y3*y3*y3 + d*x1*x2*x2*x2*y2*y2*x3 -
     d*x1*x2*x2*x2*y2*y2*x3*x3*x3 - d*x1*x2*x2*x2*x2*y2*x3*x3*y3 +
     d*d*y1*x2*x2*x2*y2*y2*y2*y2*x3*x3*y3 +
     d*d*y1*x2*x2*x2*x2*y2*y2*y2*x3*y3*y3 -
     d*d*x1*x2*x2*x2*y2*y2*y2*y2*x3*y3*y3 +
     d*d*x1*x2*x2*x2*x2*y2*y2*y2*x3*x3*y3)
      _
      (
     y1*y2*x3 - y1*y2*x3*y3*y3 - y1*y2*x3*x3*x3 + y1*x2*y3 - y1*x2*y3*y3*y3
     - y1*x2*x3*x3*y3 - y1*y1*y1*y2*x3 + y1*y1*y1*y2*x3*y3*y3 +
     y1*y1*y1*y2*x3*x3*x3 - y1*y1*y1*x2*y3 + y1*y1*y1*x2*y3*y3*y3 +
     y1*y1*y1*x2*x3*x3*y3 + x1*y2*y3 - x1*y2*y3*y3*y3 - x1*y2*x3*x3*y3 -
     x1*x2*x3 + x1*x2*x3*y3*y3 + x1*x2*x3*x3*x3 - x1*y1*y1*y2*y3 +
     x1*y1*y1*y2*y3*y3*y3 + x1*y1*y1*y2*x3*x3*y3 + x1*y1*y1*x2*x3 -
     x1*y1*y1*x2*x3*y3*y3 - x1*y1*y1*x2*x3*x3*x3 - x1*x1*y1*y2*x3 +
     x1*x1*y1*y2*x3*y3*y3 + x1*x1*y1*y2*x3*x3*x3 - x1*x1*y1*x2*y3 +
     x1*x1*y1*x2*y3*y3*y3 + x1*x1*y1*x2*x3*x3*y3 - x1*x1*x1*y2*y3 +
     x1*x1*x1*y2*y3*y3*y3 + x1*x1*x1*y2*x3*x3*y3 + x1*x1*x1*x2*x3 -
     x1*x1*x1*x2*x3*y3*y3 - x1*x1*x1*x2*x3*x3*x3 + d*y1*y2*x3*x3*x3*y3*y3 +
     d*y1*x2*x3*x3*y3*y3*y3 - d*y1*x2*y2*y2*x3*x3*y3 -
     d*y1*x2*x2*y2*x3*y3*y3 - d*y1*y1*y1*y2*x3*x3*x3*y3*y3 -
     d*y1*y1*y1*x2*x3*x3*y3*y3*y3 + d*y1*y1*y1*x2*y2*y2*x3*x3*y3 +
     d*y1*y1*y1*x2*x2*y2*x3*y3*y3 + d*x1*y2*x3*x3*y3*y3*y3 -
     d*x1*x2*x3*x3*x3*y3*y3 + d*x1*x2*y2*y2*x3*y3*y3 -
     d*x1*x2*x2*y2*x3*x3*y3 - d*x1*y1*y1*y2*x3*x3*y3*y3*y3 +
     d*x1*y1*y1*x2*x3*x3*x3*y3*y3 - d*x1*y1*y1*x2*y2*y2*x3*y3*y3 +
     d*x1*y1*y1*x2*x2*y2*x3*x3*y3 - d*x1*x1*y1*y2*x3*x3*x3*y3*y3 -
     d*x1*x1*y1*x2*x3*x3*y3*y3*y3 + d*x1*x1*y1*x2*y2*y2*x3*x3*y3 +
     d*x1*x1*y1*x2*x2*y2*x3*y3*y3 - d*x1*x1*x1*y2*x3*x3*y3*y3*y3 +
     d*x1*x1*x1*x2*x3*x3*x3*y3*y3 - d*x1*x1*x1*x2*y2*y2*x3*y3*y3 +
     d*x1*x1*x1*x2*x2*y2*x3*x3*y3 + d*d*x1*y1*y1*x2*y2*y2*x3*x3*x3*y3*y3 -
     d*d*x1*y1*y1*x2*x2*y2*x3*x3*y3*y3*y3 -
     d*d*x1*x1*y1*x2*y2*y2*x3*x3*y3*y3*y3 -
     d*d*x1*x1*y1*x2*x2*y2*x3*x3*x3*y3*y3)
      _
      (
     - y1*y2*x3 + y1*y2*y2*y2*x3 - y1*x2*y3 + y1*x2*y2*y2*y3 +
     y1*x2*x2*y2*x3 + y1*x2*x2*x2*y3 + y1*y1*y1*y2*x3 - y1*y1*y1*y2*y2*y2*x3
     + y1*y1*y1*x2*y3 - y1*y1*y1*x2*y2*y2*y3 - y1*y1*y1*x2*x2*y2*x3 -
     y1*y1*y1*x2*x2*x2*y3 - x1*y2*y3 + x1*y2*y2*y2*y3 + x1*x2*x3 -
     x1*x2*y2*y2*x3 + x1*x2*x2*y2*y3 - x1*x2*x2*x2*x3 + x1*y1*y1*y2*y3 -
     x1*y1*y1*y2*y2*y2*y3 - x1*y1*y1*x2*x3 + x1*y1*y1*x2*y2*y2*x3 -
     x1*y1*y1*x2*x2*y2*y3 + x1*y1*y1*x2*x2*x2*x3 + x1*x1*y1*y2*x3 -
     x1*x1*y1*y2*y2*y2*x3 + x1*x1*y1*x2*y3 - x1*x1*y1*x2*y2*y2*y3 -
     x1*x1*y1*x2*x2*y2*x3 - x1*x1*y1*x2*x2*x2*y3 + x1*x1*x1*y2*y3 -
     x1*x1*x1*y2*y2*y2*y3 - x1*x1*x1*x2*x3 + x1*x1*x1*x2*y2*y2*x3 -
     x1*x1*x1*x2*x2*y2*y3 + x1*x1*x1*x2*x2*x2*x3 - d*x1*y1*y1*x2*y2*y2*x3 +
     d*x1*y1*y1*x2*x2*y2*y3 + d*x1*x1*y1*x2*y2*y2*y3 +
     d*x1*x1*y1*x2*x2*y2*x3)
      _ H1 H2 H3).
    ring.
  - apply (F_lin3 _ _
      (
     d*y1*x2*y2*y2*y2*y2*x3*y3*y3 - d*y1*x2*x2*y2*y2*y2*y3 +
     d*y1*x2*x2*y2*y2*y2*y3*y3*y3 + d*y1*x2*x2*x2*y2*y2*x3 -
     d*y1*x2*x2*x2*y2*y2*x3*x3*x3 - d*y1*x2*x2*x2*x2*y2*x3*x3*y3 +
     d*x1*x2*y2*y2*y2*y2*x3*x3*y3 + d*x1*x2*x2*y2*y2*y2*x3 -
     d*x1*x2*x2*y2*y2*y2*x3*x3*x3 + d*x1*x2*x2*x2*y2*y2*y3 -
     d*x1*x2*x2*x2*y2*y2*y3*y3*y3 + d*x1*x2*x2*x2*x2*y2*x3*y3*y3 -
     d*d*y1*x2*x2*x2*y2*y2*y2*y2*x3*y3*y3 +
     d*d*y1*x2*x2*x2*x2*y2*y2*y2*x3*x3*y3 -
     d*d*x1*x2*x2*x2*y2*y2*y2*y2*x3*x3*y3 -
     d*d*x1*x2*x2*x2*x2*y2*y2*y2*x3*y3*y3)
      _
      (
     y1*y2*y3 - y1*y2*y3*y3*y3 - y1*y2*x3*x3*y3 - y1*x2*x3 + y1*x2*x3*y3*y3
     + y1*x2*x3*x3*x3 - y1*y1*y1*y2*y3 + y1*y1*y1*y2*y3*y3*y3 +
     y1*y1*y1*y2*x3*x3*y3 + y1*y1*y1*x2*x3 - y1*y1*y1*x2*x3*y3*y3 -
     y1*y1*y1*x2*x3*x3*x3 - x1*y2*x3 + x1*y2*x3*y3*y3 + x1*y2*x3*x3*x3 -
     x1*x2*y3 + x1*x2*y3*y3*y3 + x1*x2*x3*x3*y3 + x1*y1*y1*y2*x3 -
     x1*y1*y1*y2*x3*y3*y3 - x1*y1*y1*y2*x3*x3*x3 + x1*y1*y1*x2*y3 -
     x1*y1*y1*x2*y3*y3*y3 - x1*y1*y1*x2*x3*x3*y3 - x1*x1*y1*y2*y3 +
     x1*x1*y1*y2*y3*y3*y3 + x1*x1*y1*y2*x3*x3*y3 + x1*x1*y1*x2*x3 -
     x1*x1*y1*x2*x3*y3*y3 - x1*x1*y1*x2*x3*x3*x3 + x1*x1*x1*y2*x3 -
     x1*x1*x1*y2*x3*y3*y3 - x1*x1*x1*y2*x3*x3*x3 + x1*x1*x1*x2*y3 -
     x1*x1*x1*x2*y3*y3*y3 - x1*x1*x1*x2*x3*x3*y3 + d*y1*y2*x3*x3*y3*y3*y3 -
     d*y1*x2*x3*x3*x3*y3*y3 + d*y1*x2*y2*y2*x3*y3*y3 -
     d*y1*x2*x2*y2*x3*x3*y3 - d*y1*y1*y1*y2*x3*x3*y3*y3*y3 +
     d*y1*y1*y1*x2*x3*x3*x3*y3*y3 - d*y1*y1*y1*x2*y2*y2*x3*y3*y3 +
     d*y1*y1*y1*x2*x2*y2*x3*x3*y3 - d*x1*y2*x3*x3*x3*y3*y3 -
     d*x1*x2*x3*x3*y3*y3*y3 + d*x1*x2*y2*y2*x3*x3*y3 +
     d*x1*x2*x2*y2*x3*y3*y3 + d*x1*y1*y1*y2*x3*x3*x3*y3*y3 +
     d*x1*y1*y1*x2*x3*x3*y3*y3*y3 - d*x1*y1*y1*x2*y2*y2*x3*x3*y3 -
     d*x1*y1*y1*x2*x2*y2*x3*y3*y3 - d*x1*x1*y1*y2*x3*x3*y3*y3*y3 +
     d*x1*x1*y1*x2*x3*x3*x3*y3*y3 - d*x1*x1*y1*x2*y2*y2*x3*y3*y3 +
     d*x1*x1*y1*x2*x2*y2*x3*x3*y3 + d*x1*x1*x1*y2*x3*x3*x3*y3*y3 +
     d*x1*x1*x1*x2*x3*x3*y3*y3*y3 - d*x1*x1*x1*x2*y2*y2*x3*x3*y3 -
     d*x1*x1*x1*x2*x2*y2*x3*y3*y3 + d*d*x1*y1*y1*x2*y2*y2*x3*x3*y3*y3*y3 +
     d*d*x1*y1*y1*x2*x2*y2*x3*x3*x3*y3*y3 +
     d*d*x1*x1*y1*x2*y2*y2*x3*x3*x3*y3*y3 -
     d*d*x1*x1*y1*x2*x2*y2*x3*x3*y3*y3*y3)
      _
      (
     - y1*y2*y3 + y1*y2*y2*y2*y3 + y1*x2*x3 - y1*x2*y2*y2*x3 +
     y1*x2*x2*y2*y3 - y1*x2*x2*x2*x3 + y1*y1*y1*y2*y3 - y1*y1*y1*y2*y2*y2*y3
     - y1*y1*y1*x2*x3 + y1*y1*y1*x2*y2*y2*x3 - y1*y1*y1*x2*x2*y2*y3 +
     y1*y1*y1*x2*x2*x2*x3 + x1*y2*x3 - x1*y2*y2*y2*x3 + x1*x2*y3 -
     x1*x2*y2*y2*y3 - x1*x2*x2*y2*x3 - x1*x2*x2*x2*y3 - x1*y1*y1*y2*x3 +
     x1*y1*y1*y2*y2*y2*x3 - x1*y1*y1*x2*y3 + x1*y1*y1*x2*y2*y2*y3 +
     x1*y1*y1*x2*x2*y2*x3 + x1*y1*y1*x2*x2*x2*y3 + x1*x1*y1*y2*y3 -
     x1*x1*y1*y2*y2*y2*y3 - x1*x1*y1*x2*x3 + x1*x1*y1*x2*y2*y2*x3 -
     x1*x1*y1*x2*x2*y2*y3 + x1*x1*y1*x2*x2*x2*x3 - x1*x1*x1*y2*x3 +
     x1*x1*x1*y2*y2*y2*x3 - x1*x1*x1*x2*y3 + x1*x1*x1*x2*y2*y2*y3 +
     x1*x1*x1*x2*x2*y2*x3 + x1*x1*x1*x2*x2*x2*y3 - d*x1*y1*y1*x2*y2*y2*y3 -
     d*x1*y1*y1*x2*x2*y2*x3 - d*x1*x1*y1*x2*y2*y2*x3 +
     d*x1*x1*y1*x2*x2*y2*y3)
      _ H1 H2 H3).
    ring.
Qed.

Lemma add_assoc (P Q R : Ed.point p) :
  Ed.on_curve d P -> Ed.on_curve d Q -> Ed.on_curve d R ->
  Ed.add d (Ed.add d P Q) R = Ed.add d P (Ed.add d Q R).
Proof.
  intros H1 H2 H3.
  pose proof (add_on_curve P Q H1 H2) as H12.
  pose proof (add_on_curve Q R H2 H3) as H23.
  pose proof (fadd_represents _ _ _ _ H12 H3
                (fadd_represents _ _ _ _ H1 H2 (of_point_represents P) (of_point_represents Q))
                (of_point_represents R)) as HL.
  pose proof (fadd_represents _ _ _ _ H1 H23 (of_point_represents P)
                (fadd_represents _ _ _ _ H2 H3 (of_point_represents Q) (of_point_represents R)))
    as HR.
  destruct P as [x1 y1], Q as [x2 y2], R as [x3 y3].
  destruct (assoc_cert x1 y1 x2 y2 x3 y3 H1 H2 H3) as [Ex Ey].
  exact (represents_inj _ _ _ _ HL HR Ex Ey).
Qed.

Lemma add_comm (P Q : Ed.point p) : Ed.add d P Q = Ed.add d Q P.
Proof.
  destruct P as [x1 y1], Q as [x2 y2]. unfold Ed.add.
  f_equal; (f_equal; [ring | f_equal; ring]).
Qed.

Lemma zero_on_curve : Ed.on_curve d Ed.zero.
Proof. unfold Ed.on_curve, Ed.zero. ring. Qed.

Lemma add_zero_l (P : Ed.point p) : Ed.add d Ed.zero P = P.
Proof.
  destruct P as [x y]. unfold Ed.add, Ed.zero.
  replace (1 + d * 0 * x * 1 * y) with (1 : Zmod p) by ring.
  replace (1 - d * 0 * x * 1 * y) with (1 : Zmod p) by ring.
  rewrite Zmod.inv_1. f_equal; ring.
Qed.

Lemma add_zero_r (P : Ed.point p) : Ed.add d P Ed.zero = P.
Proof. rewrite add_comm. apply add_zero_l. Qed.

Lemma neg_on_curve (P : Ed.point p) : Ed.on_curve d P -> Ed.on_curve d (Ed.neg P).
Proof.
  destruct P as [x y]. unfold Ed.on_curve, Ed.neg. cbn [fst snd].
  intros H. transitivity (x * x + y * y); [ring | rewrite H; ring].
Qed.

Lemma add_neg_r (P : Ed.point p) : Ed.on_curve d P -> Ed.add d P (Ed.neg P) = Ed.zero.
Proof.
  intros H. pose proof (neg_on_curve P H) as Hn.
  destruct P as [x y]. unfold Ed.neg in *. cbn [fst snd] in *.
  destruct (denominators_nz _ _ _ _ H Hn) as [Dp Dm].
  unfold Ed.add, Ed.zero. unfold Ed.on_curve in H.
  f_equal.
  - replace (x * y + y * - x) with (0 : Zmod p) by ring. ring.
  - replace (y * y - x * - x) with (1 - d * x * - x * y * y).
    + now apply F_inv_r.
    + transitivity (1 + d * x * x * y * y); [ring | rewrite <- H; ring].
Qed.

Lemma smul_on_curve (n : nat) (P : Ed.point p) :
  Ed.on_curve d P -> Ed.on_curve d (Ed.smul d n P).
Proof.
  intros H. induction n as [ | n IH]; cbn [Ed.smul].
  - apply zero_on_curve.
  - now apply add_on_curve.
Qed.

Lemma smul_add (m n : nat) (P : Ed.point p) :
  Ed.on_curve d P ->
  Ed.smul d (m + n) P = Ed.add d (Ed.smul d m P) (Ed.smul d n P).
Proof.
  intros H. induction m as [ | m IH]; cbn [Ed.smul Nat.add].
  - now rewrite add_zero_l.
  - rewrite IH, add_assoc; auto using smul_on_curve.
Qed.

Lemma smul_mul (m n : nat) (P : Ed.point p) :
  Ed.on_curve d P ->
  Ed.smul d (m * n) P = Ed.smul d m (Ed.smul d n P).
Proof.
  intros H. induction m as [ | m IH]; cbn [Ed.smul Nat.mul].
  - reflexivity.
  - now rewrite smul_add, IH.
Qed.

Lemma smul_smul_comm (m n : nat) (P : Ed.point p) :
  Ed.on_curve d P ->
  Ed.smul d m (Ed.smul d n P) = Ed.smul d n (Ed.smul d m P).
Proof.
  intros H. now rewrite <- !smul_mul, Nat.mul_comm.
Qed.

Lemma add_sub_cancel (P Q : Ed.point p) :
  Ed.on_curve d P -> Ed.on_curve d Q ->
  Ed.add d (Ed.add d P Q) (Ed.neg Q) = P.
Proof.
  intros HP HQ.
  rewrite add_assoc, add_neg_r, add_zero_r; auto using neg_on_curve.
Qed.

(** Montgomery x-line arithmetic read on the Edwards curve *)
Section Montgomery.
Variables a24 sigma : Zmod p.
Hypothesis Htype :
  (sigma = 1 /\ a24 * (1 - d) = d) \/ (sigma = - (1) /\ a24 * (d - 1) = 1).

Lemma d_nz : d <> 0.
Proof. intros E0. apply (Hd 0). rewrite E0. ring. Qed.

Lemma d_neq_1 : 1 - d <> 0.
Proof. intros E0. apply (Hd 1). transitivity (d + (1 - d)); [ring | rewrite E0; ring]. Qed.

Lemma sigma_sq : sigma * sigma = 1.
Proof. destruct Htype as [[-> _] | [-> _]]; ring. Qed.

Lemma sigma_nz : sigma <> 0.
Proof. intros E0. apply F_1_neq_0. rewrite <- sigma_sq, E0. ring. Qed.

Lemma a24_nz : a24 <> 0.
Proof.
  intros E0. destruct Htype as [[_ H] | [_ H]]; rewrite E0 in H.
  - apply d_nz. rewrite <- H. ring.
  - apply F_1_neq_0. rewrite <- H. ring.
Qed.

Lemma a24_succ_nz : a24 + 1 <> 0.
Proof.
  intros E0. destruct Htype as [[_ H] | [_ H]].
  - apply F_1_neq_0. transitivity ((a24 + 1) * (1 - d) - (a24 * (1 - d) - d)); [ring | ].
    rewrite E0, H. ring.
  - apply d_nz. transitivity ((a24 + 1) * (d - 1) - (a24 * (d - 1) - 1)); [ring | ].
    rewrite E0, H. ring.
Qed.

Lemma F_sq_0 (a : Zmod p) : a * a = 0 -> a = 0.
Proof. intros H. destruct (F_integral _ _ H); assumption. Qed.

Lemma F_eq_of_sub (a b : Zmod p) : a - b = 0 -> a = b.
Proof. intros H. transitivity (b + (a - b)); [ring | rewrite H; ring]. Qed.

Lemma F_cancel (m a b : Zmod p) : m <> 0 -> m * (a - b) = 0 -> a = b.
Proof.
  intros Hm H. destruct (F_integral _ _ H) as [E0 | E0]; [contradiction | ].
  now apply F_eq_of_sub.
Qed.

Lemma rep_param (X Z : Zmod p) (P : Ed.point p) :
  Mont.rep sigma (X, Z) P ->
  exists lam, lam <> 0 /\ X = lam * (1 + snd P) /\ Z = lam * sigma * (1 - snd P).
Proof.
  destruct P as [x y]. unfold Mont.rep. cbn [fst snd].
  intros [Hnz Hrel].
  pose proof sigma_sq as Hss. pose proof sigma_nz as Hsn.
  destruct (F_eq_dec (1 - y) 0) as [Hy | Hy].
  - (* the neutral element *)
    assert (HZ : Z = 0).
    { rewrite Hy in Hrel.
      assert (E0 : sigma * (1 + 1) * Z = 0).
      { transitivity (sigma * Z * (1 + y) + sigma * Z * (1 - y)); [ring | ].
        rewrite <- Hrel, Hy. ring. }
      destruct (F_integral _ _ E0) as [E1 | E1]; [ | exact E1].
      exfalso. revert E1. apply F_mul_nz; [exact Hsn | apply F_2_neq_0]. }
    assert (HX : X <> 0) by (destruct Hnz; [assumption | contradiction]).
    exists (X * Zmod.inv (1 + 1)). repeat split.
    + apply F_mul_nz; [exact HX | ]. apply Zmod.inv_nz_prime; [exact Hp | apply F_2_neq_0].
    + replace (1 + y) with ((1 + 1) - (1 - y)) by ring. rewrite Hy.
      field. apply F_2_neq_0.
    + rewrite Hy, HZ. ring.
  - exists (sigma * Z * Zmod.inv (1 - y)). repeat split.
    + apply F_mul_nz; [apply F_mul_nz; [exact Hsn | ] | ].
      * intros HZ. destruct Hnz as [HX | HZ']; [ | contradiction].
        rewrite HZ in Hrel.
        assert (E0 : X * (1 - y) = 0) by (rewrite Hrel; ring).
        destruct (F_integral _ _ E0); contradiction.
      * apply Zmod.inv_nz_prime; assumption.
    + transitivity (X * (1 - y) * Zmod.inv (1 - y)); [field; exact Hy | ].
      rewrite Hrel. ring.
    + transitivity (sigma * sigma * Z); [rewrite Hss; ring | field; exact Hy].
Qed.

Lemma dbl_nz (X Z : Zmod p) :
  X <> 0 \/ Z <> 0 ->
  fst (Mont.dbl a24 (X, Z)) <> 0 \/ snd (Mont.dbl a24 (X, Z)) <> 0.
Proof.
  intros Hnz. unfold Mont.dbl. cbn [fst snd].
  destruct (F_eq_dec ((X + Z) * (X + Z) * ((X - Z) * (X - Z))) 0) as [E0 | E0];
    [ | now left].
  right.
  assert (HX : X <> 0 /\ (X + Z = 0 \/ X - Z = 0)).
  { destruct (F_integral _ _ E0) as [E1 | E1]; apply F_sq_0 in E1.
    - split; [ | now left]. intros HX. rewrite HX in *.
      destruct Hnz as [H | H]; [now apply H | apply H].
      transitivity (0 + Z); [ring | exact E1].
    - split; [ | now right]. intros HX. rewrite HX in *.
      destruct Hnz as [H | H]; [now apply H | apply H].
      transitivity (- (0 - Z)); [ring | rewrite E1; ring]. }
  destruct HX as [HX [Hs | Hs]].
  - (* Z = - X *)
    assert (HZ : Z = - X) by (transitivity ((X + Z) - X); [ring | rewrite Hs; ring]).
    rewrite HZ.
    replace ((X + - X) * (X + - X) - (X - - X) * (X - - X)) with (- ((1 + 1) * (1 + 1) * X * X)) by ring.
    replace ((X + - X) * (X + - X) + - ((1 + 1) * (1 + 1) * X * X) * a24)
      with (- ((1 + 1) * (1 + 1) * X * X * a24)) by ring.
    replace (- ((1 + 1) * (1 + 1) * X * X) * - ((1 + 1) * (1 + 1) * X * X * a24))
      with (((1 + 1) * (1 + 1) * X * X) * ((1 + 1) * (1 + 1) * X * X) * a24) by ring.
    repeat apply F_mul_nz; try apply F_2_neq_0; try exact HX. apply a24_nz.
  - assert (HZ : Z = X) by (symmetry; now apply F_eq_of_sub).
    rewrite HZ.
    replace ((X + X) * (X + X) - (X - X) * (X - X)) with ((1 + 1) * (1 + 1) * X * X) by ring.
    replace ((X + X) * (X + X) + (1 + 1) * (1 + 1) * X * X * a24)
      with ((1 + 1) * (1 + 1) * X * X * (a24 + 1)) by ring.
    repeat apply F_mul_nz; try apply F_2_neq_0; try exact HX. apply a24_succ_nz.
Qed.

Lemma dbl_rep (q : Zmod p * Zmod p) (P : Ed.point p) :
  Ed.on_curve d P -> Mont.rep sigma q P ->
  Mont.rep sigma (Mont.dbl a24 q) (Ed.add d P P).
Proof.
  intros Hon Hrep. destruct q as [X Z].
  split; [apply dbl_nz, Hrep | ].
  destruct (rep_param X Z P Hrep) as (lam & Hlam & -> & ->).
  pose proof (fadd_represents _ _ P P Hon Hon (of_point_represents P) (of_point_represents P))
    as (_ & HD & _ & HY).
  destruct P as [x y]. pose proof (on_curve_eq0 x y Hon) as HE.
  destruct (Ed.add d (x, y) (x, y)) as [X2 Y2].
  cbv [Ed.fadd Ed.of_point Ed.nx Ed.dx Ed.ny Ed.dy fst snd] in HD, HY.
  unfold Mont.dbl. cbn [fst snd].
  set (D := 1 * 1 * 1 * 1 - d * x * x * y * y) in *.
  set (N := y * y * 1 * 1 - x * x * 1 * 1) in *.
  set (c16 := (1 + 1) * (1 + 1) * ((1 + 1) * (1 + 1)) : Zmod p).
  destruct Htype as [[-> Hrel] | [-> Hrel]].
  - apply (F_cancel (D * (1 - d))); [apply F_mul_nz; [exact HD | apply d_neq_1] | ].
    assert (Hr0 : a24 * (1 - d) - d = 0) by (rewrite Hrel; ring).
    set (X' := lam * (1 + y)) in *. set (Z' := lam * 1 * (1 - y)) in *.
    transitivity ((1 - d) *
      ((X' + Z') * (X' + Z') * ((X' - Z') * (X' - Z')) * (D - Y2 * D) -
       1 * (((X' + Z') * (X' + Z') - (X' - Z') * (X' - Z')) *
            ((X' + Z') * (X' + Z') +
             ((X' + Z') * (X' + Z') - (X' - Z') * (X' - Z')) * a24)) * (D + Y2 * D)));
      [ring | ].
    rewrite HY.
    apply (F_lin2 _ _
      (c16 * lam * lam * lam * lam * (1 - d * y * y * y * y)) _
      (- (((X' + Z') * (X' + Z') - (X' - Z') * (X' - Z')) *
          ((X' + Z') * (X' + Z') - (X' - Z') * (X' - Z')) * (D + N))) _ HE Hr0).
    unfold X', Z', D, N, c16. ring.
  - assert (Hd1 : d - 1 <> 0).
    { intros E0. apply d_neq_1. transitivity (- (d - 1)); [ring | rewrite E0; ring]. }
    apply (F_cancel (D * (d - 1))); [apply F_mul_nz; [exact HD | exact Hd1] | ].
    assert (Hr0 : a24 * (d - 1) - 1 = 0) by (rewrite Hrel; ring).
    set (X' := lam * (1 + y)) in *. set (Z' := lam * - (1) * (1 - y)) in *.
    transitivity ((d - 1) *
      ((X' + Z') * (X' + Z') * ((X' - Z') * (X' - Z')) * (D - Y2 * D) -
       - (1) * (((X' + Z') * (X' + Z') - (X' - Z') * (X' - Z')) *
            ((X' + Z') * (X' + Z') +
             ((X' + Z') * (X' + Z') - (X' - Z') * (X' - Z')) * a24)) * (D + Y2 * D)));
      [ring | ].
    rewrite HY.
    apply (F_lin2 _ _
      (- (c16 * lam * lam * lam * lam * (1 - d * y * y * y * y))) _
      (((X' + Z') * (X' + Z') - (X' - Z') * (X' - Z')) *
       ((X' + Z') * (X' + Z') - (X' - Z') * (X' - Z')) * (D + N)) _ HE Hr0).
    unfold X', Z', D, N, c16. ring.
Qed.

Lemma dadd_comm (u : Zmod p) (q r : Zmod p * Zmod p) :
  Mont.dadd u q r = Mont.dadd u r q.
Proof.
  destruct q as [X2 Z2], r as [X3 Z3]. unfold Mont.dadd. f_equal; ring.
Qed.

Lemma dadd_rep (q r : Zmod p * Zmod p) (Q R : Ed.point p) (u : Zmod p) :
  Ed.on_curve d Q -> Ed.on_curve d R ->
  Mont.rep sigma q Q -> Mont.rep sigma r R ->
  1 - snd (Ed.add d R (Ed.neg Q)) <> 0 ->
  1 + snd (Ed.add d R (Ed.neg Q)) <> 0 ->
  u * (1 - snd (Ed.add d R (Ed.neg Q))) = sigma * (1 + snd (Ed.add d R (Ed.neg Q))) ->
  Mont.rep sigma (Mont.dadd u q r) (Ed.add d Q R).
Proof.
  intros HQ HR Hq Hr Hm Hpl Hu. destruct q as [X2 Z2], r as [X3 Z3].
  destruct (rep_param X2 Z2 Q Hq) as (lam & Hlam & -> & ->).
  destruct (rep_param X3 Z3 R Hr) as (mu & Hmu & -> & ->).
  pose proof (fadd_represents _ _ Q R HQ HR (of_point_represents Q) (of_point_represents R))
    as (_ & HDS & _ & HYS).
  pose proof (fadd_represents _ _ R (Ed.neg Q) HR (neg_on_curve Q HQ)
                (of_point_represents R) (of_point_represents (Ed.neg Q)))
    as (_ & HDD & _ & HYD).
  destruct Q as [x1 y1], R as [x2 y2].
  pose proof (on_curve_eq0 x1 y1 HQ) as HE1. pose proof (on_curve_eq0 x2 y2 HR) as HE2.
  unfold Ed.neg in *. cbn [fst snd] in *.
  destruct (Ed.add d (x1, y1) (x2, y2)) as [XS YS].
  destruct (Ed.add d (x2, y2) (- x1, y1)) as [XD YD].
  cbv [Ed.fadd Ed.of_point Ed.nx Ed.dx Ed.ny Ed.dy fst snd] in HDS, HYS, HDD, HYD.
  cbn [fst snd] in *.
  set (DS := 1 * 1 * 1 * 1 - d * x1 * x2 * y1 * y2) in *.
  set (NS := y1 * y2 * 1 * 1 - x1 * x2 * 1 * 1) in *.
  set (DD := 1 * 1 * 1 * 1 - d * x2 * - x1 * y2 * y1) in *.
  set (ND := y2 * y1 * 1 * 1 - x2 * - x1 * 1 * 1) in *.
  pose proof sigma_sq as Hss. pose proof sigma_nz as Hsn.
  assert (Ht : DD - ND <> 0).
  { replace (DD - ND) with (DD * (1 - YD)) by (rewrite <- HYD; ring).
    now apply F_mul_nz. }
  assert (Hut : u * (DD - ND) = sigma * (DD + ND)).
  { transitivity (u * (1 - YD) * DD); [rewrite <- HYD; ring | ].
    rewrite Hu, <- HYD. ring. }
  assert (Hunz : u <> 0).
  { intros E0. rewrite E0 in Hu.
    assert (E1 : sigma * (1 + YD) = 0) by (rewrite <- Hu; ring).
    destruct (F_integral _ _ E1); contradiction. }
  set (c4 := (1 + 1) * (1 + 1) : Zmod p).
  assert (Hc4 : c4 <> 0) by (apply F_mul_nz; apply F_2_neq_0).
  unfold Mont.dadd, Mont.rep. cbn [fst snd].
  set (DA := (mu * (1 + y2) - mu * sigma * (1 - y2)) *
             (lam * (1 + y1) + lam * sigma * (1 - y1))).
  set (CB := (mu * (1 + y2) + mu * sigma * (1 - y2)) *
             (lam * (1 + y1) - lam * sigma * (1 - y1))).
  assert (Hsum : DA + CB = c4 * lam * mu * (y1 + y2)).
  { transitivity ((1 + 1) * lam * mu * ((1 + y1) * (1 + y2) - sigma * sigma * ((1 - y1) * (1 - y2))));
      [unfold DA, CB; ring | rewrite Hss; unfold c4; ring]. }
  assert (Hdif : DA - CB = c4 * lam * mu * sigma * (y2 - y1)).
  { unfold DA, CB, c4. ring. }
  rewrite Hsum, Hdif.
  split.
  - destruct (F_eq_dec (y1 + y2) 0) as [E0 | E0].
    + right.
      assert (Hy : y2 - y1 <> 0).
      { intros E1.
        assert (E2 : (1 + 1) * y2 = 0)
          by (transitivity ((y1 + y2) + (y2 - y1)); [ring | rewrite E0, E1; ring]).
        assert (Hy2 : y2 = 0)
          by (destruct (F_integral _ _ E2) as [E3 | E3]; [now apply F_2_neq_0 in E3 | exact E3]).
        assert (Hy1 : y1 = 0)
          by (transitivity ((y1 + y2) - y2); [ring | rewrite E0, Hy2; ring]).
        subst y1 y2.
        assert (HY : YD = x1 * x2).
        { transitivity (YD * DD); [unfold DD; ring | rewrite HYD; unfold ND; ring]. }
        assert (E4 : (1 - YD) * (1 + YD) = 0).
        { rewrite HY.
          transitivity (- (x1 * x1 + 0 * 0 - 1 - d * x1 * x1 * 0 * 0) * (x2 * x2) -
                        (x2 * x2 + 0 * 0 - 1 - d * x2 * x2 * 0 * 0)); [ring | ].
          rewrite HE1, HE2. ring. }
        destruct (F_integral _ _ E4); contradiction. }
      repeat apply F_mul_nz; try assumption; apply F_2_neq_0.
    + left. repeat apply F_mul_nz; try assumption; apply F_2_neq_0.
  - apply (F_cancel (DS * (DD - ND))); [now apply F_mul_nz | ].
    transitivity
      ((DD - ND) * (c4 * lam * mu * (y1 + y2) * (c4 * lam * mu * (y1 + y2))) * (DS - YS * DS) -
       sigma * (u * (DD - ND)) *
         (c4 * lam * mu * sigma * (y2 - y1) * (c4 * lam * mu * sigma * (y2 - y1))) *
         (DS + YS * DS)); [ring | ].
    rewrite HYS, Hut.
    transitivity
      (c4 * c4 * lam * lam * mu * mu *
       ((y1 + y2) * (y1 + y2) * (DS - NS) * (DD - ND) -
        (sigma * sigma) * (sigma * sigma) * ((y2 - y1) * (y2 - y1)) * (DD + ND) * (DS + NS)));
      [ring | ].
    rewrite Hss.
    apply (F_lin2 _ _
      (c4 * c4 * lam * lam * mu * mu * (c4 * y1 * x2 * x2 * y2 * (d * y2 * y2 - 1))) _
      (c4 * c4 * lam * lam * mu * mu * (c4 * y1 * y2 * (y1 * y1 - 1))) _ HE1 HE2).
    unfold DS, NS, DD, ND, c4. ring.
Qed.

Lemma rep_U (q : Zmod p * Zmod p) (P : Ed.point p) :
  Mont.rep sigma q P -> fst q * Zmod.inv (snd q) = Mont.U sigma P.
Proof.
  intros Hrep. destruct q as [X Z].
  destruct (rep_param X Z P Hrep) as (lam & Hlam & -> & ->).
  destruct P as [x y]. unfold Mont.U. cbn [fst snd].
  pose proof sigma_sq as Hss. pose proof sigma_nz as Hsn.
  destruct (F_eq_dec (1 - y) 0) as [Hy | Hy].
  - rewrite Hy. replace (lam * sigma * 0) with (0 : Zmod p) by ring.
    rewrite Zmod.inv_0. ring.
  - transitivity (sigma * sigma * (lam * (1 + y) * Zmod.inv (lam * sigma * (1 - y))));
      [rewrite Hss; ring | ].
    field. repeat split; assumption.
Qed.

(** The ladder on the field *)

Lemma step_inv (P : Ed.point p) (u : Zmod p) (k i : Z) (st : Mont.state p) (m : nat) :
  Ed.on_curve d P ->
  1 - snd P <> 0 -> 1 + snd P <> 0 ->
  u * (1 - snd P) = sigma * (1 + snd P) ->
  ladder_inv d sigma P st m ->
  ladder_inv d sigma P (Mont.step a24 u k st i) (if Z.testbit k i then S (2 * m) else (2 * m)%nat).
Proof.
  intros HP Hm Hpl Hu [Hlo Hhi].
  pose proof (smul_on_curve m P HP) as HQ.
  pose proof (smul_on_curve (S m) P HP) as HR.
  assert (Hdiff : Ed.add d (Ed.smul d (S m) P) (Ed.neg (Ed.smul d m P)) = P).
  { cbn [Ed.smul]. now apply add_sub_cancel. }
  assert (Hsum : Mont.rep sigma (Mont.dadd u (Mont.low st) (Mont.high st))
                   (Ed.smul d (S (2 * m)) P)).
  { replace (S (2 * m)) with (m + S m)%nat by lia. rewrite smul_add by assumption.
    apply dadd_rep; try assumption; rewrite Hdiff; assumption. }
  assert (Hdlo : Mont.rep sigma (Mont.dbl a24 (Mont.low st)) (Ed.smul d (2 * m) P)).
  { replace (2 * m)%nat with (m + m)%nat by lia. rewrite smul_add by assumption.
    now apply dbl_rep. }
  assert (Hdhi : Mont.rep sigma (Mont.dbl a24 (Mont.high st)) (Ed.smul d (S (S (2 * m))) P)).
  { replace (S (S (2 * m))) with (S m + S m)%nat by lia. rewrite smul_add by assumption.
    now apply dbl_rep. }
  unfold ladder_inv, Mont.step, Mont.low, Mont.high in *.
  destruct (Mont.sw st), (Z.testbit k i); cbn [xorb Mont.sw Mont.P2 Mont.P3];
    split; try assumption; rewrite dadd_comm; assumption.
Qed.

Lemma fold_inv (P : Ed.point p) (u : Zmod p) (k : Z) (l : list Z) :
  Ed.on_curve d P ->
  1 - snd P <> 0 -> 1 + snd P <> 0 ->
  u * (1 - snd P) = sigma * (1 + snd P) ->
  forall st m,
    ladder_inv d sigma P st m ->
    ladder_inv d sigma P (fold_left (Mont.step a24 u k) l st) (Mont.scalar k l m).
Proof.
  intros HP Hm Hpl Hu. induction l as [ | i l IH]; intros st m Hinv.
  - exact Hinv.
  - cbn [fold_left Mont.scalar]. apply IH. now apply step_inv.
Qed.

Lemma init_inv (P : Ed.point p) (u : Zmod p) :
  u * (1 - snd P) = sigma * (1 + snd P) ->
  ladder_inv d sigma P (Mont.init u) 0.
Proof.
  intros Hu. unfold ladder_inv, Mont.init, Mont.low, Mont.high, Mont.rep.
  cbn [Mont.sw Mont.P2 Mont.P3 Ed.smul fst snd Ed.zero].
  rewrite add_zero_r.
  repeat split.
  - left. apply F_1_neq_0.
  - ring.
  - right. apply F_1_neq_0.
  - rewrite Hu. ring.
Qed.

Lemma U_spec (P : Ed.point p) :
  1 - snd P <> 0 ->
  Mont.U sigma P * (1 - snd P) = sigma * (1 + snd P).
Proof. intros H. unfold Mont.U. field. exact H. Qed.

Lemma ladder_generic (P : Ed.point p) (k bits : Z) :
  Ed.on_curve d P ->
  1 - snd P <> 0 -> 1 + snd P <> 0 ->
  Mont.ladder a24 (Mont.U sigma P) k bits =
  Mont.U sigma (Ed.smul d (Mont.scalar k (Spec.indices bits) 0) P).
Proof.
  intros HP Hm Hpl. unfold Mont.ladder, Mont.result.
  pose proof (U_spec P Hm) as Hu.
  destruct (fold_inv P _ k (Spec.indices bits) HP Hm Hpl Hu _ _ (init_inv P _ Hu)) as [Hlo _].
  now apply rep_U.
Qed.

(** The u-coordinate 0 *)

Lemma step_zero (k i : Z) (st : Mont.state p) :
  snd (Mont.P2 st) = 0 -> snd (Mont.P3 st) = 0 ->
  snd (Mont.P2 (Mont.step a24 0 k st i)) = 0 /\
  snd (Mont.P3 (Mont.step a24 0 k st i)) = 0.
Proof.
  intros H2 H3. unfold Mont.step. cbn [Mont.P2 Mont.P3].
  destruct (Mont.P2 st) as [X2 Z2], (Mont.P3 st) as [X3 Z3]. cbn [snd] in *. subst.
  destruct (xorb _ _); unfold Mont.dbl, Mont.dadd; cbn [snd]; split; ring.
Qed.

Lemma step_init_zero (k i : Z) :
  snd (Mont.P2 (Mont.step a24 0 k (Mont.init 0) i)) = 0 /\
  snd (Mont.P3 (Mont.step a24 0 k (Mont.init 0) i)) = 0.
Proof.
  unfold Mont.step, Mont.init. cbn [Mont.P2 Mont.P3 Mont.sw].
  destruct (xorb _ _); unfold Mont.dbl, Mont.dadd; cbn [snd]; split; ring.
Qed.

Lemma fold_zero (k : Z) (l : list Z) :
  forall st,
    snd (Mont.P2 st) = 0 -> snd (Mont.P3 st) = 0 ->
    Mont.result (fold_left (Mont.step a24 0 k) l st) = 0.
Proof.
  induction l as [ | i l IH]; intros st H2 H3; cbn [fold_left].
  - unfold Mont.result, Mont.low. destruct (Mont.sw st); rewrite ?H2, ?H3, Zmod.inv_0; ring.
  - destruct (step_zero k i st H2 H3). now apply IH.
Qed.

Lemma indices_pos (bits : Z) :
  (0 < bits)%Z -> Spec.indices bits = (bits - 1)%Z :: Spec.indices (bits - 1)%Z.
Proof.
  intros H. unfold Spec.indices.
  replace (Z.to_nat bits) with (S (Z.to_nat (bits - 1)%Z)) by lia.
  rewrite seq_S, map_app, rev_app_distr. cbn [Nat.add map rev app].
  f_equal. lia.
Qed.

Lemma ladder_zero (k bits : Z) :
  (0 < bits)%Z -> Mont.ladder a24 0 k bits = 0.
Proof.
  intros H. unfold Mont.ladder. rewrite indices_pos by assumption.
  cbn [fold_left]. destruct (step_init_zero k (bits - 1)%Z). now apply fold_zero.
Qed.

Lemma torsion_x (x y : Zmod p) :
  Ed.on_curve d (x, y) -> 1 - y = 0 \/ 1 + y = 0 -> x = 0 /\ y * y = 1.
Proof.
  intros Hon Hy.
  assert (Hyy : y * y = 1).
  { destruct Hy as [E0 | E0].
    - transitivity (1 - (1 - y) * (1 + y)); [ring | rewrite E0; ring].
    - transitivity (1 - (1 - y) * (1 + y)); [ring | rewrite E0; ring]. }
  split; [ | exact Hyy].
  apply on_curve_eq0 in Hon.
  assert (E1 : x * x * (1 - d) = 0).
  { transitivity ((x * x + y * y - 1 - d * x * x * y * y) -
                  (1 - d * x * x) * (y * y - 1)); [ring | rewrite Hon, Hyy; ring]. }
  destruct (F_integral _ _ E1) as [E2 | E2].
  - now apply F_sq_0.
  - now apply d_neq_1 in E2.
Qed.

Lemma smul_torsion (n : nat) (y : Zmod p) :
  y * y = 1 ->
  fst (Ed.smul d n (0, y)) = 0 /\
  snd (Ed.smul d n (0, y)) * snd (Ed.smul d n (0, y)) = 1.
Proof.
  intros Hy. induction n as [ | n [IHx IHy]]; cbn [Ed.smul].
  - unfold Ed.zero. cbn. split; ring.
  - destruct (Ed.smul d n (0, y)) as [x' y']. cbn [fst snd] in *. subst x'.
    unfold Ed.add. cbn [fst snd].
    replace (1 + d * 0 * 0 * y * y') with (1 : Zmod p) by ring.
    replace (1 - d * 0 * 0 * y * y') with (1 : Zmod p) by ring.
    rewrite Zmod.inv_1. split; [ring | ].
    transitivity ((y * y) * (y' * y')); [ring | rewrite Hy, IHy; ring].
Qed.

Lemma U_torsion (x y : Zmod p) :
  x = 0 -> y * y = 1 -> Mont.U sigma (x, y) = 0.
Proof.
  intros _ Hy. unfold Mont.U. cbn [snd].
  destruct (F_eq_dec (1 - y) 0) as [E0 | E0].
  - rewrite E0, Zmod.inv_0. ring.
  - assert (E1 : (1 - y) * (1 + y) = 0)
      by (transitivity (1 - y * y); [ring | rewrite Hy; ring]).
    destruct (F_integral _ _ E1) as [E2 | E2]; [contradiction | ].
    rewrite E2. ring.
Qed.

(** The ladder computes the u-coordinate of the scalar multiple. *)
Lemma ladder_smul (P : Ed.point p) (k len : Z) :
  Ed.on_curve d P -> (0 < len)%Z ->
  Mont.ladder a24 (Mont.U sigma P) k len =
  Mont.U sigma (Ed.smul d (Mont.scalar k (Spec.indices len) 0) P).
Proof.
  intros HP Hlen.
  destruct (F_eq_dec (1 - snd P) 0) as [Hm | Hm];
    [ | destruct (F_eq_dec (1 + snd P) 0) as [Hpl | Hpl]].
  3: now apply ladder_generic.
  all: destruct P as [x y]; cbn [snd] in *;
    destruct (torsion_x x y HP ltac:(auto)) as [-> Hyy];
    rewrite (U_torsion 0 y eq_refl Hyy), ladder_zero by assumption;
    destruct (smul_torsion (Mont.scalar k (Spec.indices len) 0) y Hyy) as [Hx' Hy'];
    destruct (Ed.smul d _ (0, y)) as [x' y']; cbn [fst snd] in *;
    symmetry; now apply U_torsion.
Qed.

(** The ladder of the source is the ladder on the field *)

Lemma of_state_step (k u a24z : Z) (st : Spec.state) (i : Z) :
  of_state p (Spec.step k u p a24z st i) =
  Mont.step (Zmod.of_Z p a24z) (Zmod.of_Z p u) k (of_state p st) i.
Proof.
  unfold Spec.step, Mont.step, of_state, of_pair.
  cbn [Mont.sw Mont.P2 Mont.P3].
  destruct (xorb (Spec.sw st) (Z.testbit k i));
    cbn [Spec.cswap fst snd Spec.P2 Spec.P3 Spec.sw];
    unfold Mont.dbl, Mont.dadd; cbn [fst snd];
    repeat rewrite ?Zmod.of_Z_mod, ?Z.pow_2_r, ?Zmod.of_Z_mul, ?Zmod.of_Z_add, ?Zmod.of_Z_sub;
    reflexivity.
Qed.

Lemma of_state_fold (k u a24z : Z) (l : list Z) :
  forall st,
    of_state p (fold_left (Spec.step k u p a24z) l st) =
    fold_left (Mont.step (Zmod.of_Z p a24z) (Zmod.of_Z p u) k) l (of_state p st).
Proof.
  induction l as [ | i l IH]; intros st; cbn [fold_left].
  - reflexivity.
  - now rewrite IH, of_state_step.
Qed.

Lemma of_Z_power (a e : Z) :
  (0 <= e)%Z -> Zmod.pow (Zmod.of_Z p a) e = Zmod.of_Z p (a ^ e).
Proof.
  intros He. apply Zmod.unsigned_inj.
  rewrite Zmod.unsigned_pow_nonneg_r, !Zmod.unsigned_of_Z by assumption.
  rewrite <- Zpower_mod by lia. reflexivity.
Qed.

Lemma of_Z_fermat_inv (z : Z) :
  Zmod.of_Z p (z ^ (p - 2)) = Zmod.inv (Zmod.of_Z p z).
Proof.
  rewrite <- of_Z_power by lia.
  destruct (F_eq_dec (Zmod.of_Z p z) 0) as [E0 | E0].
  - rewrite E0, Zmod.inv_0. apply Zmod.unsigned_inj.
    rewrite Zmod.unsigned_pow_nonneg_r, Zmod.unsigned_0 by lia.
    rewrite Z.pow_0_l by lia. reflexivity.
  - now apply Zmod.fermat_inv.
Qed.

Lemma of_Z_spec_ladder (k u a24z len : Z) :
  Zmod.of_Z p (Spec.ladder k u p a24z len) =
  Mont.ladder (Zmod.of_Z p a24z) (Zmod.of_Z p u) k len.
Proof.
  unfold Spec.ladder, Mont.ladder, Mont.result, Mont.low.
  change (Mont.init (Zmod.of_Z p u))
    with (of_state p {| Spec.P2 := (1, 0)%Z; Spec.P3 := (u, 1%Z); Spec.sw := false |}).
  rewrite <- of_state_fold.
  set (st := fold_left _ _ _).
  unfold of_state, of_pair. cbn [Mont.sw Mont.P2 Mont.P3].
  destruct (Spec.sw st); cbn [Spec.cswap fst snd];
    now rewrite Zmod.of_Z_mod, Zmod.of_Z_mul, Zmod.of_Z_mod, of_Z_fermat_inv.
Qed.

Lemma scalar_spec (k : Z) (n : nat) :
  forall m : nat,
    Z.of_nat (Mont.scalar k (Spec.indices (Z.of_nat n)) m) =
    (Z.of_nat m * 2 ^ Z.of_nat n + k mod 2 ^ Z.of_nat n)%Z.
Proof.
  induction n as [ | n IH]; intros m.
  - cbn. rewrite Z.mod_1_r. lia.
  - rewrite indices_pos by lia.
    replace (Z.of_nat (S n) - 1)%Z with (Z.of_nat n) by lia.
    unfold Mont.scalar. cbn [fold_left].
    fold (Mont.scalar k (Spec.indices (Z.of_nat n))
            (if Z.testbit k (Z.of_nat n) then S (2 * m) else (2 * m)%nat)).
    rewrite IH.
    replace (Z.of_nat (S n)) with (Z.succ (Z.of_nat n)) by lia.
    rewrite Z.pow_succ_r by lia.
    rewrite (Z.mul_comm 2 (2 ^ Z.of_nat n)).
    rewrite Z.rem_mul_r by (try apply Z.pow_nonzero; lia).
    rewrite <- Z.testbit_spec' by lia.
    destruct (Z.testbit k (Z.of_nat n)); cbn [Z.b2z]; lia.
Qed.

Lemma scalar_small (k len : Z) :
  (0 <= k < 2 ^ len)%Z -> (0 <= len)%Z ->
  Mont.scalar k (Spec.indices len) 0 = Z.to_nat k.
Proof.
  intros Hk Hlen. apply Nat2Z.inj.
  pose proof (scalar_spec k (Z.to_nat len) 0) as H.
  rewrite Z2Nat.id in H by assumption. rewrite H.
  rewrite Z.mod_small by assumption. lia.
Qed.

(** The ladder of the source, read on the curve: applied to the
    u-coordinate of [P] it returns the u-coordinate of [k P]. *)
Lemma ladder_on_curve (a24z : Z) (P : Ed.point p) (k len : Z) :
  Zmod.of_Z p a24z = a24 ->
  Ed.on_curve d P ->
  (0 < len)%Z -> (0 <= k < 2 ^ len)%Z ->
  ladder k (Zmod.to_Z (Mont.U sigma P)) p a24z len =
  Zmod.to_Z (Mont.U sigma (Ed.smul d (Z.to_nat k) P)).
Proof.
  intros Ha HP Hlen Hk.
  pose proof (ladder_range k (Zmod.to_Z (Mont.U sigma P)) p a24z len ltac:(lia)) as Hr.
  rewrite <- (Zmod.unsigned_of_Z_small (ladder _ _ _ _ _)) by exact Hr.
  f_equal.
  rewrite ladder_spec_eq, of_Z_spec_ladder, Ha, Zmod.of_Z_unsigned.
  rewrite ladder_smul by assumption.
  now rewrite scalar_small by lia.
Qed.

Lemma ladder_commutes (a24z gxz : Z) (G : Ed.point p) (a b len : Z) :
  Zmod.of_Z p a24z = a24 ->
  Ed.on_curve d G ->
  gxz = Zmod.to_Z (Mont.U sigma G) ->
  (0 < len)%Z -> (0 <= a < 2 ^ len)%Z -> (0 <= b < 2 ^ len)%Z ->
  ladder a (ladder b gxz p a24z len) p a24z len =
  ladder b (ladder a gxz p a24z len) p a24z len.
Proof.
  intros Ha HG -> Hlen Hka Hkb.
  rewrite (ladder_on_curve a24z G b len), (ladder_on_curve a24z G a len) by assumption.
  rewrite !ladder_on_curve by (try apply smul_on_curve; assumption).
  now rewrite smul_smul_comm.
Qed.
End Montgomery.
End Edwards.
End Field.

(** * Primality *)

Section PrimalityProofs.
Import Primality.

Lemma exists_prime_divisor (n : Z) : 1 < n -> exists r, prime r /\ (r | n).
Proof.
  assert (H : forall k : nat, forall n, 1 < n <= Z.of_nat k -> exists r, prime r /\ (r | n)).
  { induction k as [ | k IH]; intros m Hm; [lia | ].
    destruct (prime_dec m) as [Hpr | Hnp].
    - exists m. split; [exact Hpr | apply Z.divide_refl].
    - destruct (not_prime_divide m ltac:(lia) Hnp) as (c & Hc & Hdiv).
      destruct (IH c ltac:(lia)) as (r & Hr & Hrc).
      exists r. split; [exact Hr | now apply Z.divide_trans with c]. }
  intros Hn. apply (H (Z.to_nat n)). lia.
Qed.

Lemma composite_factor (N : Z) :
  1 < N -> ~ prime N -> exists r, prime r /\ (r | N) /\ r * r <= N.
Proof.
  intros HN Hnp.
  destruct (not_prime_divide N HN Hnp) as (m & Hm & [c Hc]).
  assert (Hc1 : 1 < c) by nia.
  destruct (exists_prime_divisor (Z.min m c) ltac:(lia)) as (r & Hr & Hdiv).
  pose proof (prime_ge_2 r Hr) as Hr2.
  assert (Hle : r <= Z.min m c) by (apply Z.divide_pos_le; [lia | exact Hdiv]).
  exists r. split; [exact Hr | split].
  - apply Z.divide_trans with (Z.min m c); [exact Hdiv | ].
    destruct (Z.min_spec m c) as [[_ ->] | [_ ->]].
    + exists c. lia.
    + exists m. lia.
  - nia.
Qed.

Lemma no_divisor_sound (n : Z) (fuel : nat) :
  forall d,
    2 <= d ->
    no_divisor n d fuel = true ->
    (forall e, 2 <= e < d -> n mod e <> 0) ->
    forall e, 2 <= e -> e * e <= n -> n mod e <> 0.
Proof.
  induction fuel as [ | fuel IH]; intros d Hd Hrun Hlow e He Hee; cbn [no_divisor] in Hrun.
  - discriminate.
  - destruct (Z.ltb_spec n (d * d)) as [Hlt | Hge].
    + apply Hlow. nia.
    + destruct (Z.eqb_spec (n mod d) 0) as [E0 | E0]; [discriminate | ].
      apply (IH (d + 1)); try assumption; try lia.
      intros e' He'. destruct (Z.eq_dec e' d) as [-> | Hne]; [exact E0 | apply Hlow; lia].
Qed.

Lemma trial_division_sound (n : Z) (fuel : nat) :
  1 < n -> no_divisor n 2 fuel = true -> prime n.
Proof.
  intros Hn Hrun. destruct (prime_dec n) as [Hpr | Hnp]; [exact Hpr | exfalso].
  destruct (composite_factor n Hn Hnp) as (r & Hr & Hdiv & Hrr).
  pose proof (prime_ge_2 r Hr).
  apply (no_divisor_sound n fuel 2 ltac:(lia) Hrun ltac:(intros; lia) r); try lia.
  now apply Zdivide_mod.
Qed.

Lemma Zmod_nz_coprime (r : Z) (b : Zmod r) :
  Z.prime r -> b <> Zmod.zero -> Z.gcd (Zmod.to_Z b) r = 1.
Proof.
  intros Hr Hb.
  pose proof (Z.prime_ge_2 _ Hr).
  pose proof (Zmod.unsigned_pos_bound b ltac:(lia)).
  apply Zmod.unsigned_nz in Hb.
  rewrite Z.gcd_comm. apply Zgcd_1_rel_prime, prime_rel_prime.
  - now apply prime_alt.
  - intros Hdiv. apply Z.divide_pos_le in Hdiv; lia.
Qed.

Lemma order_divides (r q : Z) (b : Zmod r) :
  Z.prime r -> prime q ->
  Zmod.pow b q = Zmod.one -> b <> Zmod.one -> (q | r - 1).
Proof.
  intros Hr Hq Hbq Hb1.
  pose proof (Z.prime_ge_2 _ Hr) as Hr2. pose proof (prime_ge_2 _ Hq) as Hq2.
  destruct (Zdivide_dec q (r - 1)) as [Hdiv | Hndiv]; [exact Hdiv | exfalso].
  assert (Hb0 : b <> Zmod.zero).
  { intros E0. rewrite E0 in Hbq. apply (f_equal Zmod.to_Z) in Hbq.
    rewrite Zmod.unsigned_pow_nonneg_r, Zmod.unsigned_0, Zmod.unsigned_1_pos in Hbq by lia.
    rewrite Z.pow_0_l, Z.mod_0_l in Hbq by lia. discriminate. }
  pose proof (Zmod_nz_coprime r b Hr Hb0) as Hco.
  destruct (rel_prime_bezout q (r - 1) (prime_rel_prime q Hq (r - 1) Hndiv)) as [u v Huv].
  apply Hb1.
  rewrite <- (Zmod.pow_1_r b), <- Huv.
  rewrite Zmod.pow_add_r_coprime by exact Hco.
  rewrite (Z.mul_comm u q), (Z.mul_comm v (r - 1)).
  rewrite !Zmod.pow_mul_r_coprime by exact Hco.
  rewrite Hbq.
  replace (r - 1) with (Z.pred r) by lia.
  rewrite Zmod.fermat_nz by assumption.
  rewrite !Zmod.pow_1_l. apply Zmod.mul_1_l.
Qed.

Lemma of_Z_pow (r a e : Z) :
  0 < r -> 0 <= e -> Zmod.pow (Zmod.of_Z r a) e = Zmod.of_Z r (a ^ e).
Proof.
  intros Hr He. apply Zmod.unsigned_inj.
  rewrite Zmod.unsigned_pow_nonneg_r, !Zmod.unsigned_of_Z by assumption.
  now rewrite <- Zpower_mod.
Qed.

Section Step.
Variable pw : Z -> Z -> Z -> Z.
Hypothesis pw_spec : forall a e n, 0 <= e -> pw a e n = a ^ e mod n.

Lemma witness_divides (N r q a : Z) :
  1 < N -> prime r -> (r | N) -> prime q ->
  witness_ok pw N (q, a) = true ->
  (q | r - 1).
Proof.
  intros HN Hr HrN Hq Hw. unfold witness_ok in Hw.
  apply andb_prop in Hw. destruct Hw as [Hw Hg].
  apply andb_prop in Hw. destruct Hw as [Hw Hp1].
  apply andb_prop in Hw. destruct Hw as [Hq0 Hqd].
  apply Z.ltb_lt in Hq0. apply Z.eqb_eq in Hqd, Hp1, Hg.
  pose proof (prime_ge_2 r Hr) as Hr2.
  assert (Hr' : Z.prime r) by (now apply prime_alt).
  assert (He : N - 1 = (N - 1) / q * q).
  { rewrite Z.mul_comm. apply Z_div_exact_full_2; lia. }
  assert (He0 : 0 <= (N - 1) / q) by (apply Z.div_pos; lia).
  rewrite pw_spec in Hp1 by lia. rewrite pw_spec in Hg by assumption.
  apply (order_divides r q (Zmod.pow (Zmod.of_Z r a) ((N - 1) / q)) Hr' Hq).
  - rewrite <- Zmod.pow_mul_r_nonneg, <- He by lia.
    rewrite of_Z_pow by lia.
    apply Zmod.unsigned_inj.
    rewrite Zmod.unsigned_of_Z, Zmod.unsigned_1_pos by lia.
    rewrite (Zmod_div_mod r N) by (try lia; exact HrN).
    rewrite Hp1. apply Z.mod_small. lia.
  - intros Hb. rewrite of_Z_pow in Hb by lia.
    apply (f_equal Zmod.to_Z) in Hb.
    rewrite Zmod.unsigned_of_Z, Zmod.unsigned_1_pos in Hb by lia.
    assert (Hd1 : (r | a ^ ((N - 1) / q) mod N - 1)).
    { apply Zmod_divide; [lia | ].
      rewrite Zminus_mod, <- (Zmod_div_mod r N) by (try lia; exact HrN).
      rewrite Hb. rewrite (Z.mod_small 1) by lia. now rewrite Z.sub_diag. }
    assert (Hd : (r | Z.gcd (a ^ ((N - 1) / q) mod N - 1) N))
      by (apply Z.gcd_greatest; assumption).
    rewrite Hg in Hd. apply Z.divide_1_r in Hd. lia.
Qed.

Lemma prime_divides_product (q : Z) (l : list Z) :
  prime q -> (forall x, In x l -> prime x) -> (q | product l) -> In q l.
Proof.
  intros Hq. induction l as [ | x l IH]; intros Hl Hdiv; cbn [product fold_right] in *.
  - apply Z.divide_1_r in Hdiv. pose proof (prime_ge_2 q Hq). lia.
  - destruct (prime_mult q Hq _ _ Hdiv) as [Hx | Hrest].
    + left. symmetry. apply prime_div_prime; auto. apply Hl. now left.
    + right. apply IH; auto. intros y Hy. apply Hl. now right.
Qed.

Lemma product_divides (x : Z) (l : list Z) :
  distinct l = true ->
  (forall q, In q l -> prime q /\ (q | x)) ->
  (product l | x).
Proof.
  induction l as [ | q l IH]; intros Hd Hl; cbn [product fold_right distinct] in *.
  - apply Z.divide_1_l.
  - apply andb_prop in Hd. destruct Hd as [Hnin Hd].
    destruct (Hl q (or_introl eq_refl)) as [Hq Hqx].
    assert (IH' : (product l | x)) by (apply IH; auto; intros; apply Hl; now right).
    assert (Hrp : rel_prime q (product l)).
    { apply prime_rel_prime; [exact Hq | ]. intros Hdiv.
      apply prime_divides_product in Hdiv; [ | exact Hq | intros y Hy; apply Hl; now right].
      apply negb_true_iff in Hnin.
      assert (Hex : existsb (Z.eqb q) l = true)
        by (apply existsb_exists; exists q; split; [exact Hdiv | apply Z.eqb_refl]).
      congruence. }
    destruct Hqx as [c Hc]. subst x.
    assert (Hl' : (product l | c)).
    { apply Gauss with q; [now rewrite Z.mul_comm | now apply rel_prime_sym]. }
    destruct Hl' as [c' Hc']. exists c'. rewrite Hc'. fold (product l).
    now rewrite <- Z.mul_assoc, (Z.mul_comm (product l) q).
Qed.

Lemma product_pos (l : list Z) : (forall q, In q l -> 0 < q) -> 0 < product l.
Proof.
  induction l as [ | q l IH]; intros H; cbn [product fold_right]; [lia | ].
  apply Z.mul_pos_pos; [apply H; now left | apply IH; intros; apply H; now right].
Qed.

Theorem pocklington_sound (N : Z) (fs : list (Z * Z)) :
  pocklington pw N fs = true ->
  (forall q, In q (map fst fs) -> prime q) ->
  prime N.
Proof.
  intros Hc Hprimes. unfold pocklington in Hc.
  apply andb_prop in Hc. destruct Hc as [Hc Hall].
  apply andb_prop in Hc. destruct Hc as [Hc Hdist].
  apply andb_prop in Hc. destruct Hc as [HN HF].
  apply Z.ltb_lt in HN, HF.
  destruct (prime_dec N) as [Hpr | Hnp]; [exact Hpr | exfalso].
  destruct (composite_factor N HN Hnp) as (r & Hr & HrN & Hrr).
  pose proof (prime_ge_2 r Hr) as Hr2.
  assert (Hdiv : (product (map fst fs) | r - 1)).
  { apply product_divides; [exact Hdist | ].
    intros q Hq. split; [now apply Hprimes | ].
    apply in_map_iff in Hq. destruct Hq as ([q' a] & Hfst & Hin). cbn in Hfst. subst q'.
    rewrite forallb_forall in Hall.
    apply (witness_divides N r q a); auto.
    apply Hprimes, in_map_iff. now exists (q, a). }
  assert (Hpos : 0 < product (map fst fs)).
  { apply product_pos. intros q Hq. pose proof (prime_ge_2 q (Hprimes q Hq)). lia. }
  apply Z.divide_pos_le in Hdiv; [ | lia].
  nia.
Qed.
End Step.
End PrimalityProofs.

(** ** The two field primes

    Each prime below is certified by trial division or by a Pocklington
    certificate over primes certified before it. *)

Lemma prime_8574133 : prime 8574133.
Proof. apply (trial_division_sound _ (Z.to_nat 2930)); [lia | vm_compute; reflexivity]. Qed.

Lemma prime_127 : prime 127.
Proof. apply (trial_division_sound _ (Z.to_nat 13)); [lia | vm_compute; reflexivity]. Qed.

Lemma prime_1919519569386763 : prime 1919519569386763.
Proof.
  apply (pocklington_sound fast_pow fast_pow_spec _
    [(8574133, 2);
     (127, 2)]);
    [vm_compute; reflexivity | ].
  intros q Hq. cbv [In map fst] in Hq. destruct Hq as [<- | [<- | []]].
  - apply prime_8574133.
  - apply prime_127.
Qed.

Lemma prime_2773320623 : prime 2773320623.
Proof. apply (trial_division_sound _ (Z.to_nat 52664)); [lia | vm_compute; reflexivity]. Qed.

Lemma prime_72106336199 : prime 72106336199.
Proof.
  apply (pocklington_sound fast_pow fast_pow_spec _
    [(2773320623, 2)]);
    [vm_compute; reflexivity | ].
  intros q Hq. cbv [In map fst] in Hq. destruct Hq as [<- | []].
  - apply prime_2773320623.
Qed.

Lemma prime_75445702479781427272750846543864801 : prime 75445702479781427272750846543864801.
Proof.
  apply (pocklington_sound fast_pow fast_pow_spec _
    [(1919519569386763, 2);
     (72106336199, 2)]);
    [vm_compute; reflexivity | ].
  intros q Hq. cbv [In map fst] in Hq. destruct Hq as [<- | [<- | []]].
  - apply prime_1919519569386763.
  - apply prime_72106336199.
Qed.

Lemma prime_430751 : prime 430751.
Proof. apply (trial_division_sound _ (Z.to_nat 658)); [lia | vm_compute; reflexivity]. Qed.

Lemma prime_4153 : prime 4153.
Proof. apply (trial_division_sound _ (Z.to_nat 66)); [lia | vm_compute; reflexivity]. Qed.

Lemma prime_31757755568855353 : prime 31757755568855353.
Proof.
  apply (pocklington_sound fast_pow fast_pow_spec _
    [(430751, 2);
     (4153, 2)]);
    [vm_compute; reflexivity | ].
  intros q Hq. cbv [In map fst] in Hq. destruct Hq as [<- | [<- | []]].
  - apply prime_430751.
  - apply prime_4153.
Qed.

Lemma prime_74058212732561358302231226437062788676166966415465897661863160754340907 : prime 74058212732561358302231226437062788676166966415465897661863160754340907.
Proof.
  apply (pocklington_sound fast_pow fast_pow_spec _
    [(75445702479781427272750846543864801, 2);
     (31757755568855353, 2)]);
    [vm_compute; reflexivity | ].
  intros q Hq. cbv [In map fst] in Hq. destruct Hq as [<- | [<- | []]].
  - apply prime_75445702479781427272750846543864801.
  - apply prime_31757755568855353.
Qed.

Lemma prime_p25519 : prime (2 ^ 255 - 19).
Proof.
  apply (pocklington_sound fast_pow fast_pow_spec _
    [(74058212732561358302231226437062788676166966415465897661863160754340907, 2)]);
    [vm_compute; reflexivity | ].
  intros q Hq. cbv [In map fst] in Hq. destruct Hq as [<- | []].
  - apply prime_74058212732561358302231226437062788676166966415465897661863160754340907.
Qed.

Lemma prime_1335912079 : prime 1335912079.
Proof. apply (trial_division_sound _ (Z.to_nat 36552)); [lia | vm_compute; reflexivity]. Qed.

Lemma prime_32061889897 : prime 32061889897.
Proof.
  apply (pocklington_sound fast_pow fast_pow_spec _
    [(1335912079, 2)]);
    [vm_compute; reflexivity | ].
  intros q Hq. cbv [In map fst] in Hq. destruct Hq as [<- | []].
  - apply prime_1335912079.
Qed.

Lemma prime_25136521679249 : prime 25136521679249.
Proof.
  apply (pocklington_sound fast_pow fast_pow_spec _
    [(32061889897, 2)]);
    [vm_compute; reflexivity | ].
  intros q Hq. cbv [In map fst] in Hq. destruct Hq as [<- | []].
  - apply prime_32061889897.
Qed.

Lemma prime_1255525949 : prime 1255525949.
Proof. apply (trial_division_sound _ (Z.to_nat 35435)); [lia | vm_compute; reflexivity]. Qed.

Lemma prime_37414057161322375957408148834323969 : prime 37414057161322375957408148834323969.
Proof.
  apply (pocklington_sound fast_pow fast_pow_spec _
    [(25136521679249, 3);
     (1255525949, 3)]);
    [vm_compute; reflexivity | ].
  intros q Hq. cbv [In map fst] in Hq. destruct Hq as [<- | [<- | []]].
  - apply prime_25136521679249.
  - apply prime_1255525949.
Qed.

Lemma prime_1764234391 : prime 1764234391.
Proof. apply (trial_division_sound _ (Z.to_nat 42004)); [lia | vm_compute; reflexivity]. Qed.

Lemma prime_34741861125639557 : prime 34741861125639557.
Proof.
  apply (pocklington_sound fast_pow fast_pow_spec _
    [(1764234391, 2)]);
    [vm_compute; reflexivity | ].
  intros q Hq. cbv [In map fst] in Hq. destruct Hq as [<- | []].
  - apply prime_1764234391.
Qed.

Lemma prime_36131535570665139281 : prime 36131535570665139281.
Proof.
  apply (pocklington_sound fast_pow fast_pow_spec _
    [(34741861125639557, 2)]);
    [vm_compute; reflexivity | ].
  intros q Hq. cbv [In map fst] in Hq. destruct Hq as [<- | []].
  - apply prime_34741861125639557.
Qed.

Lemma prime_596242599987116128415063 : prime 596242599987116128415063.
Proof.
  apply (pocklington_sound fast_pow fast_pow_spec _
    [(36131535570665139281, 3)]);
    [vm_compute; reflexivity | ].
  intros q Hq. cbv [In map fst] in Hq. destruct Hq as [<- | []].
  - apply prime_36131535570665139281.
Qed.

Lemma prime_379979 : prime 379979.
Proof. apply (trial_division_sound _ (Z.to_nat 618)); [lia | vm_compute; reflexivity]. Qed.

Lemma prime_271 : prime 271.
Proof. apply (trial_division_sound _ (Z.to_nat 18)); [lia | vm_compute; reflexivity]. Qed.

Lemma prime_97859369123353 : prime 97859369123353.
Proof.
  apply (pocklington_sound fast_pow fast_pow_spec _
    [(379979, 2);
     (271, 2)]);
    [vm_compute; reflexivity | ].
  intros q Hq. cbv [In map fst] in Hq. destruct Hq as [<- | [<- | []]].
  - apply prime_379979.
  - apply prime_271.
Qed.

Lemma prime_167773885276849215533569 : prime 167773885276849215533569.
Proof.
  apply (pocklington_sound fast_pow fast_pow_spec _
    [(97859369123353, 3)]);
    [vm_compute; reflexivity | ].
  intros q Hq. cbv [In map fst] in Hq. destruct Hq as [<- | []].
  - apply prime_97859369123353.
Qed.

Lemma prime_p448 : prime (2 ^ 448 - 2 ^ 224 - 1).
Proof.
  apply (pocklington_sound fast_pow fast_pow_spec _
    [(37414057161322375957408148834323969, 2);
     (596242599987116128415063, 2);
     (167773885276849215533569, 2)]);
    [vm_compute; reflexivity | ].
  intros q Hq. cbv [In map fst] in Hq. destruct Hq as [<- | [<- | [<- | []]]].
  - apply prime_37414057161322375957408148834323969.
  - apply prime_596242599987116128415063.
  - apply prime_167773885276849215533569.
Qed.

(** ** Key agreement is symmetric *)

Lemma x25519_p_prime : Z.prime x25519.p.
Proof. apply prime_alt. exact prime_p25519. Qed.

Lemma x448_p_prime : Z.prime x448.p.
Proof. apply prime_alt. exact prime_p448. Qed.

Lemma x25519_p_gt_2 : 2 < x25519.p.
Proof. reflexivity. Qed.

Lemma x448_p_gt_2 : 2 < x448.p.
Proof. reflexivity. Qed.

Lemma x25519_d_nonsquare :
  forall s : Zmod x25519.p, (s * s)%Zmod <> edwards25519.D.
Proof.
  apply (euler_nonsquare x25519_p_prime x25519_p_gt_2).
  vm_compute. reflexivity.
Qed.

Lemma x448_d_nonsquare :
  forall s : Zmod x448.p, (s * s)%Zmod <> edwards448.D.
Proof.
  apply (euler_nonsquare x448_p_prime x448_p_gt_2).
  vm_compute. reflexivity.
Qed.

Lemma x25519_type :
  (edwards25519.sigma = 1 /\
   edwards25519.a24 * (1 - edwards25519.D) = edwards25519.D)%Zmod \/
  (edwards25519.sigma = - (1) /\
   edwards25519.a24 * (edwards25519.D - 1) = 1)%Zmod.
Proof.
  left. split; [reflexivity | ].
  unfold edwards25519.a24, edwards25519.D.
  rewrite <- Zmod.of_Z_1, <- Zmod.of_Z_sub, <- Zmod.of_Z_mul.
  apply Zmod.of_Z_inj. vm_compute. reflexivity.
Qed.

Lemma x448_type :
  (edwards448.sigma = 1 /\
   edwards448.a24 * (1 - edwards448.D) = edwards448.D)%Zmod \/
  (edwards448.sigma = - (1) /\
   edwards448.a24 * (edwards448.D - 1) = 1)%Zmod.
Proof.
  right. split; [reflexivity | ].
  unfold edwards448.a24, edwards448.D.
  rewrite <- Zmod.of_Z_1, <- Zmod.of_Z_sub, <- Zmod.of_Z_mul.
  apply Zmod.of_Z_inj. vm_compute. reflexivity.
Qed.

Lemma x25519_G_on_curve : Ed.on_curve edwards25519.D edwards25519.G.
Proof.
  unfold Ed.on_curve, edwards25519.G, edwards25519.D.
  rewrite <- (Zmod.of_Z_1 x25519.p).
  rewrite <- !Zmod.of_Z_mul, <- !Zmod.of_Z_add.
  apply Zmod.of_Z_inj. vm_compute. reflexivity.
Qed.

Lemma x448_G_on_curve : Ed.on_curve edwards448.D edwards448.G.
Proof.
  unfold Ed.on_curve, edwards448.G, edwards448.D.
  rewrite <- (Zmod.of_Z_1 x448.p).
  rewrite <- !Zmod.of_Z_mul, <- !Zmod.of_Z_add.
  apply Zmod.of_Z_inj. vm_compute. reflexivity.
Qed.

Lemma x25519_G_u : x25519.Gx = Zmod.to_Z (Mont.U edwards25519.sigma edwards25519.G).
Proof.
  unfold Mont.U, edwards25519.G, edwards25519.sigma. cbn [snd].
  rewrite (frac_of_product x25519_p_prime 1%Zmod (Zmod.of_Z _ x25519.Gx)).
  - rewrite Zmod.unsigned_of_Z_small; [reflexivity | now vm_compute].
  - rewrite <- (Zmod.of_Z_1 x25519.p), <- Zmod.of_Z_sub, <- Zmod.of_Z_0.
    intros H. apply Zmod.of_Z_inj in H. vm_compute in H. discriminate.
  - rewrite <- (Zmod.of_Z_1 x25519.p).
    rewrite <- Zmod.of_Z_sub, <- Zmod.of_Z_add, <- !Zmod.of_Z_mul.
    apply Zmod.of_Z_inj. vm_compute. reflexivity.
Qed.

Lemma x448_G_u : x448.Gx = Zmod.to_Z (Mont.U edwards448.sigma edwards448.G).
Proof.
  unfold Mont.U, edwards448.G, edwards448.sigma. cbn [snd].
  rewrite (frac_of_product x448_p_prime (Zmod.opp 1%Zmod) (Zmod.of_Z _ x448.Gx)).
  - rewrite Zmod.unsigned_of_Z_small; [reflexivity | now vm_compute].
  - rewrite <- (Zmod.of_Z_1 x448.p), <- Zmod.of_Z_sub, <- Zmod.of_Z_0.
    intros H. apply Zmod.of_Z_inj in H. vm_compute in H. discriminate.
  - rewrite <- (Zmod.of_Z_1 x448.p).
    rewrite <- Zmod.of_Z_sub, <- Zmod.of_Z_add, <- Zmod.of_Z_opp, <- !Zmod.of_Z_mul.
    apply Zmod.of_Z_inj. vm_compute. reflexivity.
Qed.

Lemma x25519_ladder_commutes (a b : Z) :
  0 <= a < 2 ^ 255 -> 0 <= b < 2 ^ 255 ->
  ladder a (ladder b x25519.Gx x25519.p x25519.a24 255) x25519.p x25519.a24 255 =
  ladder b (ladder a x25519.Gx x25519.p x25519.a24 255) x25519.p x25519.a24 255.
Proof.
  intros Ha Hb.
  exact (ladder_commutes x25519_p_prime x25519_p_gt_2
           edwards25519.D x25519_d_nonsquare
           edwards25519.a24 edwards25519.sigma x25519_type
           x25519.a24 x25519.Gx edwards25519.G a b 255
           eq_refl x25519_G_on_curve x25519_G_u eq_refl Ha Hb).
Qed.

Lemma x448_ladder_commutes (a b : Z) :
  0 <= a < 2 ^ 448 -> 0 <= b < 2 ^ 448 ->
  ladder a (ladder b x448.Gx x448.p x448.a24 448) x448.p x448.a24 448 =
  ladder b (ladder a x448.Gx x448.p x448.a24 448) x448.p x448.a24 448.
Proof.
  intros Ha Hb.
  exact (ladder_commutes x448_p_prime x448_p_gt_2
           edwards448.D x448_d_nonsquare
           edwards448.a24 edwards448.sigma x448_type
           x448.a24 x448.Gx edwards448.G a b 448
           eq_refl x448_G_on_curve x448_G_u eq_refl Ha Hb).
Qed.

Lemma x25519_key_pair_inv (w w' : entropy) (Q d : list byte) :
  x25519.gen key_pair w = (Ok (KeyPair Q d), w') ->
  U8.toBI Q = ladder (x25519.clamp (U8.toBI d)) x25519.Gx x25519.p x25519.a24 255.
Proof.
  intros H.
  destruct (x25519_gen_pair (draw w (used w)) (U8.toBI (draw w (used w))))
    as (x & Q0 & Hx & _ & HQ & Hgen).
  unfold x25519.gen, x25519.gen_with, ec_gen_private_key in H.
  rewrite Hgen in H.
  assert (E : Q0 = Q /\ draw w (used w) = d) by (split; congruence).
  destruct E as [<- <-]. now rewrite HQ, Hx.
Qed.

Lemma x448_key_pair_inv (w w' : entropy) (Q d : list byte) :
  x448.gen key_pair w = (Ok (KeyPair Q d), w') ->
  U8.toBI Q = ladder (x448.clamp (U8.toBI d)) x448.Gx x448.p x448.a24 448.
Proof.
  intros H.
  destruct (x448_gen_pair (draw w (used w)) (U8.toBI (draw w (used w))))
    as (x & Q0 & Hx & _ & HQ & Hgen).
  unfold x448.gen, x448.gen_with, ec_gen_private_key in H.
  rewrite Hgen in H.
  assert (E : Q0 = Q /\ draw w (used w) = d) by (split; congruence).
  destruct E as [<- <-]. now rewrite HQ, Hx.
Qed.

Lemma lift_gen_ok (r : result gen_output * entropy) (g : gen_output) (w : entropy) :
  lift_gen r = (Ok (Keys g), w) -> r = (Ok g, w).
Proof.
  destruct r as [[g0 | e] w0]; cbn [lift_gen]; intros H; [ | discriminate H].
  congruence.
Qed.

Lemma x25519_agreement (wA wA' wB wB' : entropy) (pkA skA pkB skB : list byte) :
  x25519.gen key_pair wA = (Ok (KeyPair pkA skA), wA') ->
  x25519.gen key_pair wB = (Ok (KeyPair pkB skB), wB') ->
  x25519.ecdh (Bytes skA) (Bytes pkB) = x25519.ecdh (Bytes skB) (Bytes pkA).
Proof.
  intros HA HB.
  apply x25519_key_pair_inv in HA. apply x25519_key_pair_inv in HB.
  unfold x25519.ecdh, x25519.ecdh_with, key_to_BI, U8.from.
  rewrite HA, HB. f_equal.
  pose proof (x25519_clamp_range (U8.toBI skA)).
  pose proof (x25519_clamp_range (U8.toBI skB)).
  apply x25519_ladder_commutes; lia.
Qed.

Lemma x448_agreement (wA wA' wB wB' : entropy) (pkA skA pkB skB : list byte) :
  x448.gen key_pair wA = (Ok (KeyPair pkA skA), wA') ->
  x448.gen key_pair wB = (Ok (KeyPair pkB skB), wB') ->
  x448.ecdh (Bytes skA) (Bytes pkB) = x448.ecdh (Bytes skB) (Bytes pkA).
Proof.
  intros HA HB.
  apply x448_key_pair_inv in HA. apply x448_key_pair_inv in HB.
  unfold x448.ecdh, x448.ecdh_with, key_to_BI, U8.from.
  rewrite HA, HB. f_equal.
  pose proof (x448_clamp_range (U8.toBI skA)).
  pose proof (x448_clamp_range (U8.toBI skB)).
  apply x448_ladder_commutes; lia.
Qed.

Lemma invoke_gen (c : curve) (type : gen_type) (w : entropy) :
  invoke c (Gen type) w =
  lift_gen (match c with CurveA => x25519.gen | CurveB => x448.gen end type w).
Proof. destruct c; reflexivity. Qed.

Lemma invoke_ecdh (c : curve) (s_key p_key : keyval) (w : entropy) :
  invoke c (Ecdh s_key p_key) w =
  (Ok (Secret (match c with CurveA => x25519.ecdh | CurveB => x448.ecdh end
                 s_key p_key)), w).
Proof. destruct c; reflexivity. Qed.

(** C8: on either curve, for any two key pairs [(skA, pkA)] and
    [(skB, pkB)] that key-pair generation returns, whatever the states of
    the entropy source they were generated in, key agreement is symmetric:
    [ecdh(skA, pkB)] and [ecdh(skB, pkA)] return the same byte string. *)
Theorem agreement_symmetric (c : curve) (wA wA' wB wB' : entropy)
    (pkA skA pkB skB : list byte) :
  invoke c (Gen key_pair) wA = (Ok (Keys (KeyPair pkA skA)), wA') ->
  invoke c (Gen key_pair) wB = (Ok (Keys (KeyPair pkB skB)), wB') ->
  forall w, exists secret,
    invoke c (Ecdh (Bytes skA) (Bytes pkB)) w = (Ok (Secret secret), w) /\
    invoke c (Ecdh (Bytes skB) (Bytes pkA)) w = (Ok (Secret secret), w).
Proof.
  intros HA HB w.
  rewrite invoke_gen in HA, HB. rewrite !invoke_ecdh.
  apply lift_gen_ok in HA. apply lift_gen_ok in HB.
  destruct c.
  - exists (x25519.ecdh (Bytes skA) (Bytes pkB)). split; [reflexivity | ].
    rewrite (x25519_agreement _ _ _ _ _ _ _ _ HA HB). reflexivity.
  - exists (x448.ecdh (Bytes skA) (Bytes pkB)). split; [reflexivity | ].
    rewrite (x448_agreement _ _ _ _ _ _ _ _ HA HB). reflexivity.
Qed.

(** Two parties to run C8 on, on each curve. *)
Lemma agreement_symmetric_witness :
  (invoke CurveA (Gen key_pair) (Parties.rng Parties.alice25519 0) =
     (Ok (Keys (KeyPair Parties.alice25519_pub Parties.alice25519)),
      Parties.rng Parties.alice25519 1) /\
   invoke CurveA (Gen key_pair) (Parties.rng Parties.bob25519 0) =
     (Ok (Keys (KeyPair Parties.bob25519_pub Parties.bob25519)),
      Parties.rng Parties.bob25519 1) /\
   exists secret,
     invoke CurveA (Ecdh (Bytes Parties.alice25519) (Bytes Parties.bob25519_pub))
       (Parties.rng Parties.alice25519 1) =
       (Ok (Secret secret), Parties.rng Parties.alice25519 1) /\
     invoke CurveA (Ecdh (Bytes Parties.bob25519) (Bytes Parties.alice25519_pub))
       (Parties.rng Parties.alice25519 1) =
       (Ok (Secret secret), Parties.rng Parties.alice25519 1)) /\
  (invoke CurveB (Gen key_pair) (Parties.rng Parties.alice448 0) =
     (Ok (Keys (KeyPair Parties.alice448_pub Parties.alice448)),
      Parties.rng Parties.alice448 1) /\
   invoke CurveB (Gen key_pair) (Parties.rng Parties.bob448 0) =
     (Ok (Keys (KeyPair Parties.bob448_pub Parties.bob448)),
      Parties.rng Parties.bob448 1) /\
   exists secret,
     invoke CurveB (Ecdh (Bytes Parties.alice448) (Bytes Parties.bob448_pub))
       (Parties.rng Parties.alice448 1) =
       (Ok (Secret secret), Parties.rng Parties.alice448 1) /\
     invoke CurveB (Ecdh (Bytes Parties.bob448) (Bytes Parties.alice448_pub))
       (Parties.rng Parties.alice448 1) =
       (Ok (Secret secret), Parties.rng Parties.alice448 1)).
Proof.
  assert (HA : invoke CurveA (Gen key_pair) (Parties.rng Parties.alice25519 0) =
     (Ok (Keys (KeyPair Parties.alice25519_pub Parties.alice25519)),
      Parties.rng Parties.alice25519 1)).
  { rewrite invoke_gen, x25519_gen_Big. vm_compute. reflexivity. }
  assert (HB : invoke CurveA (Gen key_pair) (Parties.rng Parties.bob25519 0) =
     (Ok (Keys (KeyPair Parties.bob25519_pub Parties.bob25519)),
      Parties.rng Parties.bob25519 1)).
  { rewrite invoke_gen, x25519_gen_Big. vm_compute. reflexivity. }
  assert (HA' : invoke CurveB (Gen key_pair) (Parties.rng Parties.alice448 0) =
     (Ok (Keys (KeyPair Parties.alice448_pub Parties.alice448)),
      Parties.rng Parties.alice448 1)).
  { rewrite invoke_gen, x448_gen_Big. vm_compute. reflexivity. }
  assert (HB' : invoke CurveB (Gen key_pair) (Parties.rng Parties.bob448 0) =
     (Ok (Keys (KeyPair Parties.bob448_pub Parties.bob448)),
      Parties.rng Parties.bob448 1)).
  { rewrite invoke_gen, x448_gen_Big. vm_compute. reflexivity. }
  split; (split; [ | split]); try assumption.
  - exact (agreement_symmetric CurveA _ _ _ _ _ _ _ _ HA HB _).
  - exact (agreement_symmetric CurveB _ _ _ _ _ _ _ _ HA' HB' _).
Defined.

(** * Further properties of the ladder and of the two curve instances *)

Lemma fold_left_ext_in {A B : Type} (f g : A -> B -> A) (l : list B) :
  (forall a b, In b l -> f a b = g a b) ->
  forall a, fold_left f l a = fold_left g l a.
Proof.
  induction l as [ | b l IH]; intros H a; cbn [fold_left]; [reflexivity | ].
  rewrite H by now left. apply IH. intros a' b' Hb'. apply H. now right.
Qed.

Lemma indices_bound (bits i : Z) : In i (Spec.indices bits) -> 0 <= i < bits.
Proof.
  unfold Spec.indices. rewrite <- in_rev, in_map_iff.
  intros (n & <- & Hn). apply in_seq in Hn. lia.
Qed.

(** X1: the ladder reads its scalar [k] only through the bits below
    [bit]: any integer [k], negative ones included, gives the same result
    as [k mod 2^bit]. *)
Theorem ladder_reads_low_bits (k u p a24 bit : Z) :
  ladder (k mod 2 ^ bit) u p a24 bit = ladder k u p a24 bit.
Proof.
  rewrite !ladder_spec_eq. unfold Spec.ladder.
  rewrite (fold_left_ext_in (Spec.step (k mod 2 ^ bit) u p a24) (Spec.step k u p a24)).
  - reflexivity.
  - intros st i Hi. apply indices_bound in Hi.
    unfold Spec.step. now rewrite Z.mod_pow2_bits_low by lia.
Qed.

Lemma ladder_u_mod {p : Z} (Hp : Z.prime p) (Hp2 : 2 < p) (k u a24 len : Z) :
  ladder k (u mod p) p a24 len = ladder k u p a24 len.
Proof.
  pose proof (ladder_range k (u mod p) p a24 len ltac:(lia)) as H1.
  pose proof (ladder_range k u p a24 len ltac:(lia)) as H2.
  rewrite <- (Zmod.unsigned_of_Z_small (ladder k (u mod p) p a24 len)) by exact H1.
  rewrite <- (Zmod.unsigned_of_Z_small (ladder k u p a24 len)) by exact H2.
  f_equal. rewrite !ladder_spec_eq, !(of_Z_spec_ladder Hp Hp2).
  now rewrite Zmod.of_Z_mod.
Qed.

(** X2: key agreement takes the peer value modulo the field prime and
    nothing else of it: on either curve [u] and [u mod p] give the same
    secret, so a peer value at or above [p] is accepted and acts as its
    residue. *)
Theorem ecdh_peer_value_mod_p (s_key : keyval) (u : Z) :
  x25519.ecdh s_key (BI (u mod x25519.p)) = x25519.ecdh s_key (BI u) /\
  x448.ecdh s_key (BI (u mod x448.p)) = x448.ecdh s_key (BI u).
Proof.
  unfold x25519.ecdh, x25519.ecdh_with, x448.ecdh, x448.ecdh_with.
  cbn [key_to_BI].
  rewrite (ladder_u_mod x25519_p_prime x25519_p_gt_2).
  rewrite (ladder_u_mod x448_p_prime x448_p_gt_2).
  split; reflexivity.
Qed.

Lemma clamp_mask_low (lo hi d : Z) :
  0 <= lo < hi ->
  clamp_mask lo hi d = Z.lor (Z.land d (2 ^ (hi - 1) - 2 ^ lo)) (2 ^ (hi - 1)).
Proof.
  intros H. apply Z.bits_inj'. intros i Hi.
  rewrite clamp_mask_bits by lia.
  rewrite Z.lor_spec, Z.land_spec, mask_bits, Z.pow2_bits_eqb by lia.
  rewrite (Z.eqb_sym (hi - 1) i).
  destruct (Z.eqb_spec i (hi - 1)) as [E | Hne].
  - now rewrite orb_true_l, orb_true_r.
  - rewrite orb_false_l, orb_false_r. f_equal. f_equal.
    destruct (Z.ltb_spec i hi), (Z.ltb_spec i (hi - 1)); try reflexivity; lia.
Qed.

Lemma clamp_mask_of_land (lo hi d1 d2 : Z) :
  0 <= lo < hi ->
  Z.land d1 (2 ^ (hi - 1) - 2 ^ lo) = Z.land d2 (2 ^ (hi - 1) - 2 ^ lo) ->
  clamp_mask lo hi d1 = clamp_mask lo hi d2.
Proof. intros H E. now rewrite !clamp_mask_low, E by exact H. Qed.

(** X3: of a private key, key agreement uses bits 3 to 253 on x25519 and
    bits 2 to 446 on x448 and no other: two keys, given as integers or as
    bytes, that agree on these bits give the same secret with every peer
    value. *)
Theorem ecdh_private_key_bits (s1 s2 p_key : keyval) :
  (Z.land (key_to_BI s1) (2 ^ 254 - 2 ^ 3) = Z.land (key_to_BI s2) (2 ^ 254 - 2 ^ 3) ->
   x25519.ecdh s1 p_key = x25519.ecdh s2 p_key) /\
  (Z.land (key_to_BI s1) (2 ^ 447 - 2 ^ 2) = Z.land (key_to_BI s2) (2 ^ 447 - 2 ^ 2) ->
   x448.ecdh s1 p_key = x448.ecdh s2 p_key).
Proof.
  split; intros E.
  - unfold x25519.ecdh, x25519.ecdh_with.
    rewrite !x25519_clamp_mask.
    now rewrite (clamp_mask_of_land 3 255 _ _ ltac:(lia) E).
  - unfold x448.ecdh, x448.ecdh_with.
    rewrite !x448_clamp_mask.
    now rewrite (clamp_mask_of_land 2 448 _ _ ltac:(lia) E).
Qed.

(** Two integers to run X3 on: they differ in bits 0 to 2 and from bit 254
    upwards. *)
Lemma ecdh_private_key_bits_witness :
  x25519.ecdh (BI (2 ^ 300 + 8)) (BI 9) = x25519.ecdh (BI 15) (BI 9) /\
  x448.ecdh (BI (2 ^ 500 + 4)) (BI 5) = x448.ecdh (BI 7) (BI 5).
Proof.
  split.
  - apply (proj1 (ecdh_private_key_bits (BI (2 ^ 300 + 8)) (BI 15) (BI 9))).
    vm_compute. reflexivity.
  - apply (proj2 (ecdh_private_key_bits (BI (2 ^ 500 + 4)) (BI 7) (BI 5))).
    vm_compute. reflexivity.
Defined.

Lemma land_app_low (k extra : list byte) (m : Z) :
  0 <= m < 2 ^ (8 * Z.of_nat (length k)) ->
  Z.land (le_combine (k ++ extra)) m = Z.land (le_combine k) m.
Proof.
  intros Hm. rewrite le_combine_app. apply Z.bits_inj'. intros i Hi.
  rewrite !Z.land_spec, Z.lor_spec.
  destruct (Z.ltb_spec i (8 * Z.of_nat (length k))) as [Hlt | Hge].
  - rewrite Z.shiftl_spec_low by lia. now rewrite orb_false_r.
  - assert (Z.testbit m i = false) as ->.
    { destruct (Z.eq_dec m 0) as [-> | Hnz]; [apply Z.bits_0 | ].
      apply Z.bits_above_log2; [lia | ].
      apply Z.log2_lt_pow2; [lia | ].
      apply Z.lt_le_trans with (2 ^ (8 * Z.of_nat (length k))); [lia | ].
      apply Z.pow_le_mono_r; lia. }
    now rewrite !andb_false_r.
Qed.

(** X4: key agreement does not check the length of a private key given as
    bytes: whatever follows the first 32 bytes (x25519) or the first 56
    bytes (x448) is ignored. *)
Theorem ecdh_ignores_trailing_key_bytes (k extra : list byte) (p_key : keyval) :
  (length k = 32%nat ->
   x25519.ecdh (Bytes (k ++ extra)) p_key = x25519.ecdh (Bytes k) p_key) /\
  (length k = 56%nat ->
   x448.ecdh (Bytes (k ++ extra)) p_key = x448.ecdh (Bytes k) p_key).
Proof.
  split; intros Hlen.
  - unfold x25519.ecdh, x25519.ecdh_with. cbn [key_to_BI]. unfold U8.from, U8.toBI.
    rewrite !x25519_clamp_mask.
    rewrite (clamp_mask_of_land 3 255 (le_combine (k ++ extra)) (le_combine k));
      [reflexivity | lia | ].
    apply land_app_low. rewrite Hlen. now vm_compute.
  - unfold x448.ecdh, x448.ecdh_with. cbn [key_to_BI]. unfold U8.from, U8.toBI.
    rewrite !x448_clamp_mask.
    rewrite (clamp_mask_of_land 2 448 (le_combine (k ++ extra)) (le_combine k));
      [reflexivity | lia | ].
    apply land_app_low. rewrite Hlen. now vm_compute.
Qed.

(** A key of each width followed by two more bytes, to run X4 on. *)
Lemma ecdh_ignores_trailing_key_bytes_witness :
  x25519.ecdh (Bytes (Parties.alice25519 ++ hex "ffff")) (Bytes Parties.bob25519_pub) =
    x25519.ecdh (Bytes Parties.alice25519) (Bytes Parties.bob25519_pub) /\
  x448.ecdh (Bytes (Parties.alice448 ++ hex "ffff")) (Bytes Parties.bob448_pub) =
    x448.ecdh (Bytes Parties.alice448) (Bytes Parties.bob448_pub).
Proof.
  split.
  - apply (proj1 (ecdh_ignores_trailing_key_bytes Parties.alice25519 (hex "ffff")
                    (Bytes Parties.bob25519_pub))).
    reflexivity.
  - apply (proj2 (ecdh_ignores_trailing_key_bytes Parties.alice448 (hex "ffff")
                    (Bytes Parties.bob448_pub))).
    reflexivity.
Defined.

Section Torsion.
Context {p : Z} (Hp : Z.prime p) (Hp2 : 2 < p).
Variable d : Zmod p.
Hypothesis Hd : forall s : Zmod p, (s * s)%Zmod <> d.
Variables a24 sigma : Zmod p.
Hypothesis Htype :
  (sigma = 1 /\ a24 * (1 - d) = d)%Zmod \/ (sigma = - (1) /\ a24 * (d - 1) = 1)%Zmod.
Local Open Scope Zmod_scope.

Add Field Fp_field_torsion : (Zmod.field_theory p Hp).

Lemma smul_zero (n : nat) : Ed.smul d n (@Ed.zero p) = Ed.zero.
Proof.
  induction n as [ | n IH]; cbn [Ed.smul]; [reflexivity | ].
  rewrite IH. now apply add_zero_l.
Qed.

Lemma U_zero : Mont.U sigma (@Ed.zero p) = 0.
Proof.
  unfold Mont.U, Ed.zero. cbn [snd].
  replace (1 - 1 : Zmod p) with (0 : Zmod p) by ring.
  rewrite Zmod.inv_0. ring.
Qed.

(** Adding two points one of whose coordinates vanishes. *)
Lemma add_axis (x1 y1 x2 y2 : Zmod p) :
  x1 * x2 * y1 * y2 = 0 ->
  Ed.add d (x1, y1) (x2, y2) = (x1 * y2 + y1 * x2, y1 * y2 - x1 * x2).
Proof.
  intros H. unfold Ed.add.
  replace (d * x1 * x2 * y1 * y2) with (d * (x1 * x2 * y1 * y2)) by ring.
  rewrite H.
  replace (1 + d * 0) with (1 : Zmod p) by ring.
  replace (1 - d * 0) with (1 : Zmod p) by ring.
  rewrite Zmod.inv_1. f_equal; ring.
Qed.

Lemma two_torsion : Ed.smul d 2 (0, - (1)) = @Ed.zero p.
Proof.
  cbn [Ed.smul]. rewrite (add_zero_r Hp).
  rewrite add_axis by ring. unfold Ed.zero. f_equal; ring.
Qed.

Lemma four_torsion : Ed.smul d 4 (1, 0) = @Ed.zero p.
Proof.
  cbn [Ed.smul]. rewrite (add_zero_r Hp).
  rewrite (add_axis 1 0 1 0) by ring.
  rewrite (add_axis 1 0 _ _) by ring.
  rewrite (add_axis 1 0 _ _) by ring.
  unfold Ed.zero. f_equal; ring.
Qed.

Lemma two_torsion_on_curve : Ed.on_curve d (0, - (1)).
Proof. unfold Ed.on_curve. ring. Qed.

Lemma four_torsion_on_curve : Ed.on_curve d (1, 0).
Proof. unfold Ed.on_curve. ring. Qed.

Lemma U_two_torsion : Mont.U sigma (0, - (1)) = 0.
Proof. unfold Mont.U. cbn [snd]. ring. Qed.

Lemma U_four_torsion : Mont.U sigma (1, 0) = sigma.
Proof.
  unfold Mont.U. cbn [snd].
  replace (1 - 0 : Zmod p) with (1 : Zmod p) by ring.
  rewrite Zmod.inv_1. ring.
Qed.

(** On a point of order dividing [n] the ladder returns zero for every
    scalar that is a multiple of [n]. *)
Lemma ladder_torsion (a24z : Z) (P : Ed.point p) (n : nat) (k len : Z) :
  Zmod.of_Z p a24z = a24 ->
  Ed.on_curve d P ->
  Ed.smul d n P = Ed.zero ->
  (0 < n)%nat -> (k mod Z.of_nat n = 0)%Z ->
  (0 < len)%Z -> (0 <= k < 2 ^ len)%Z ->
  ladder k (Zmod.to_Z (Mont.U sigma P)) p a24z len = 0%Z.
Proof.
  intros Ha HP Hn Hpos Hdiv Hlen Hk.
  rewrite (ladder_on_curve Hp Hp2 d Hd a24 sigma Htype) by assumption.
  assert (E : Z.to_nat k = (Z.to_nat (k / Z.of_nat n) * n)%nat).
  { pose proof (Z.div_mod k (Z.of_nat n) ltac:(lia)) as Hdm.
    rewrite Hdiv, Z.add_0_r in Hdm.
    assert (0 <= k / Z.of_nat n)%Z by (apply Z.div_pos; lia).
    apply Nat2Z.inj. rewrite Nat2Z.inj_mul, !Z2Nat.id by lia. lia. }
  rewrite E, (smul_mul Hp Hp2 d Hd) by assumption.
  rewrite Hn, smul_zero, U_zero. apply Zmod.unsigned_0.
Qed.

End Torsion.

Lemma clamp_mask_mod_4 (lo hi d : Z) :
  2 <= lo < hi -> clamp_mask lo hi d mod 4 = 0.
Proof.
  intros H. change 4 with (2 ^ 2). rewrite <- Z.land_ones by lia.
  apply Z.bits_inj'. intros i Hi.
  rewrite Z.land_spec, clamp_mask_bits, Z.bits_0 by lia.
  destruct (Z.ltb_spec i 2) as [Hlt | Hge].
  - replace (i =? hi - 1) with false by (symmetry; apply Z.eqb_neq; lia).
    replace (lo <=? i) with false by (symmetry; apply Z.leb_gt; lia).
    now rewrite andb_false_l, andb_false_r.
  - rewrite Z.ones_spec_high by lia. apply andb_false_r.
Qed.

Lemma mod_4_mod_2 (k : Z) : k mod 4 = 0 -> k mod 2 = 0.
Proof.
  intros H. pose proof (Z.div_mod k 4 ltac:(lia)) as E. rewrite H, Z.add_0_r in E.
  rewrite E. replace (4 * (k / 4)) with ((2 * (k / 4)) * 2) by lia.
  apply Z.mod_mul. lia.
Qed.

Lemma x25519_ladder_low_order (k : Z) :
  0 <= k < 2 ^ 255 -> k mod 4 = 0 ->
  ladder k 0 x25519.p x25519.a24 255 = 0 /\
  ladder k 1 x25519.p x25519.a24 255 = 0.
Proof.
  intros Hk H4. split.
  - pose proof (ladder_torsion x25519_p_prime x25519_p_gt_2 edwards25519.D
                  x25519_d_nonsquare edwards25519.a24 edwards25519.sigma x25519_type
                  x25519.a24 (0, - (1))%Zmod 2 k 255 eq_refl) as H.
    rewrite (U_two_torsion x25519_p_prime), Zmod.unsigned_0 in H.
    apply H; try lia.
    + apply (two_torsion_on_curve x25519_p_prime).
    + apply (two_torsion x25519_p_prime).
    + now apply mod_4_mod_2.
  - pose proof (ladder_torsion x25519_p_prime x25519_p_gt_2 edwards25519.D
                  x25519_d_nonsquare edwards25519.a24 edwards25519.sigma x25519_type
                  x25519.a24 (1, 0)%Zmod 4 k 255 eq_refl) as H.
    rewrite (U_four_torsion x25519_p_prime) in H.
    apply H; try lia.
    + apply (four_torsion_on_curve x25519_p_prime).
    + apply (four_torsion x25519_p_prime).
Qed.

Lemma x448_ladder_low_order (k : Z) :
  0 <= k < 2 ^ 448 -> k mod 4 = 0 ->
  ladder k 0 x448.p x448.a24 448 = 0 /\
  ladder k (x448.p - 1) x448.p x448.a24 448 = 0.
Proof.
  intros Hk H4. split.
  - pose proof (ladder_torsion x448_p_prime x448_p_gt_2 edwards448.D
                  x448_d_nonsquare edwards448.a24 edwards448.sigma x448_type
                  x448.a24 (0, - (1))%Zmod 2 k 448 eq_refl) as H.
    rewrite (U_two_torsion x448_p_prime), Zmod.unsigned_0 in H.
    apply H; try lia.
    + apply (two_torsion_on_curve x448_p_prime).
    + apply (two_torsion x448_p_prime).
    + now apply mod_4_mod_2.
  - pose proof (ladder_torsion x448_p_prime x448_p_gt_2 edwards448.D
                  x448_d_nonsquare edwards448.a24 edwards448.sigma x448_type
                  x448.a24 (1, 0)%Zmod 4 k 448 eq_refl) as H.
    rewrite (U_four_torsion x448_p_prime) in H.
    unfold edwards448.sigma in H at 1.
    rewrite Zmod.unsigned_m1_pos in H by (pose proof x448_p_gt_2; lia).
    apply H; try lia.
    + apply (four_torsion_on_curve x448_p_prime).
    + apply (four_torsion x448_p_prime).
Qed.

(** X5: key agreement never rejects a peer value of low order and returns
    the empty byte string for it: with every private key, the peer values
    0 and 1 on x25519 and the peer values 0 and [p - 1] on x448 give a
    secret of no bytes. *)
Theorem ecdh_low_order_peer_gives_empty_secret (s_key : keyval) :
  x25519.ecdh s_key (BI 0) = [] /\
  x25519.ecdh s_key (BI 1) = [] /\
  x448.ecdh s_key (BI 0) = [] /\
  x448.ecdh s_key (BI (x448.p - 1)) = [].
Proof.
  pose proof (x25519_clamp_range (key_to_BI s_key)) as R1.
  pose proof (x448_clamp_range (key_to_BI s_key)) as R2.
  destruct (x25519_ladder_low_order (x25519.clamp (key_to_BI s_key))) as [A0 A1];
    [lia | rewrite x25519_clamp_mask; apply clamp_mask_mod_4; lia | ].
  destruct (x448_ladder_low_order (x448.clamp (key_to_BI s_key))) as [B0 B1];
    [lia | rewrite x448_clamp_mask; apply clamp_mask_mod_4; lia | ].
  unfold x25519.ecdh, x25519.ecdh_with, x448.ecdh, x448.ecdh_with.
  cbn [key_to_BI]. rewrite A0, A1, B0, B1, fromBI_0. repeat split.
Qed.

(** X6: the ladder computes scalar multiplication.  For a point [P] of
    the Edwards form of curve25519, with Montgomery u-coordinate [U P], a
    bit length [len] and a scalar [k] below [2^len], the ladder applied to
    [k] and [U P] returns the u-coordinate of [k P]; likewise on
    curve448. *)
Theorem ladder_is_scalar_multiplication
    (P : Ed.point x25519.p) (Q : Ed.point x448.p) (k len : Z) :
  0 < len -> 0 <= k < 2 ^ len ->
  (Ed.on_curve edwards25519.D P ->
   ladder k (Zmod.to_Z (Mont.U edwards25519.sigma P)) x25519.p x25519.a24 len =
   Zmod.to_Z (Mont.U edwards25519.sigma (Ed.smul edwards25519.D (Z.to_nat k) P))) /\
  (Ed.on_curve edwards448.D Q ->
   ladder k (Zmod.to_Z (Mont.U edwards448.sigma Q)) x448.p x448.a24 len =
   Zmod.to_Z (Mont.U edwards448.sigma (Ed.smul edwards448.D (Z.to_nat k) Q))).
Proof.
  intros Hlen Hk. split; intros Hon.
  - exact (ladder_on_curve x25519_p_prime x25519_p_gt_2 edwards25519.D
             x25519_d_nonsquare edwards25519.a24 edwards25519.sigma x25519_type
             x25519.a24 P k len eq_refl Hon Hlen Hk).
  - exact (ladder_on_curve x448_p_prime x448_p_gt_2 edwards448.D
             x448_d_nonsquare edwards448.a24 edwards448.sigma x448_type
             x448.a24 Q k len eq_refl Hon Hlen Hk).
Qed.

(** The two base points and the scalar 2, to run X6 on. *)
Lemma ladder_is_scalar_multiplication_witness :
  ladder 2 (Zmod.to_Z (Mont.U edwards25519.sigma edwards25519.G))
    x25519.p x25519.a24 255 =
    Zmod.to_Z (Mont.U edwards25519.sigma
                 (Ed.smul edwards25519.D (Z.to_nat 2) edwards25519.G)) /\
  ladder 2 (Zmod.to_Z (Mont.U edwards448.sigma edwards448.G))
    x448.p x448.a24 255 =
    Zmod.to_Z (Mont.U edwards448.sigma
                 (Ed.smul edwards448.D (Z.to_nat 2) edwards448.G)).
Proof.
  destruct (ladder_is_scalar_multiplication edwards25519.G edwards448.G 2 255
              ltac:(lia) ltac:(lia)) as [H1 H2].
  split; [exact (H1 x25519_G_on_curve) | exact (H2 x448_G_on_curve)].
Defined.

Lemma key_to_BI_U8 (s : keyval) :
  U8.toBI (key_to_U8 s) <> 0 -> U8.toBI (key_to_U8 s) = key_to_BI s.
Proof.
  destruct s as [z | b]; cbn [key_to_U8 key_to_BI]; [ | reflexivity].
  intros H. destruct (Z.le_gt_cases 0 z) as [Hz | Hz]; [now apply toBI_fromBI | ].
  exfalso. apply H. unfold U8.fromBI, getBIBits.
  destruct (Z.leb_spec z 0); [reflexivity | lia].
Qed.

Lemma x25519_gen_inv (type : gen_type) (w : entropy) (Q d : list byte) :
  fst (x25519.gen type w) = Ok (KeyPair Q d) ->
  length Q = 32%nat /\
  U8.toBI Q = ladder (x25519.clamp (U8.toBI d)) x25519.Gx x25519.p x25519.a24 255 /\
  forall s_key, type = public_key s_key ->
    d = key_to_U8 s_key /\ U8.toBI d = key_to_BI s_key.
Proof.
  intros H. split; [exact (x25519_public_key_width type w Q d H) | ].
  destruct type as [ | | s].
  - destruct (x25519.gen key_pair w) as [r w'] eqn:E. cbn [fst] in H. subst r.
    split; [exact (x25519_key_pair_inv _ _ _ _ E) | intros s_key Hs; discriminate Hs].
  - unfold x25519.gen, x25519.gen_with, ec_gen_private_key in H. cbn [fst] in H.
    discriminate H.
  - unfold x25519.gen in H. rewrite x25519_gen_public_key in H.
    destruct (Z.eqb_spec (U8.toBI (key_to_U8 s)) 0) as [E0 | Hnz].
    { cbn [fst] in H. discriminate H. }
    destruct (x25519_gen_pair (key_to_U8 s) (U8.toBI (key_to_U8 s)))
      as (x & Q0 & Hx & _ & HQ & Hgen).
    rewrite Hgen in H. cbn [fst] in H.
    assert (E : Q0 = Q /\ key_to_U8 s = d) by (split; congruence).
    destruct E as [<- <-]. split; [now rewrite HQ, Hx | ].
    intros s_key [= <-]. split; [reflexivity | now apply key_to_BI_U8].
Qed.

Lemma x448_gen_inv (type : gen_type) (w : entropy) (Q d : list byte) :
  fst (x448.gen type w) = Ok (KeyPair Q d) ->
  length Q = 56%nat /\
  U8.toBI Q = ladder (x448.clamp (U8.toBI d)) x448.Gx x448.p x448.a24 448 /\
  forall s_key, type = public_key s_key ->
    d = key_to_U8 s_key /\ U8.toBI d = key_to_BI s_key.
Proof.
  intros H. split; [exact (x448_public_key_width type w Q d H) | ].
  destruct type as [ | | s].
  - destruct (x448.gen key_pair w) as [r w'] eqn:E. cbn [fst] in H. subst r.
    split; [exact (x448_key_pair_inv _ _ _ _ E) | intros s_key Hs; discriminate Hs].
  - unfold x448.gen, x448.gen_with, ec_gen_private_key in H. cbn [fst] in H.
    discriminate H.
  - unfold x448.gen in H. rewrite x448_gen_public_key in H.
    destruct (Z.eqb_spec (U8.toBI (key_to_U8 s)) 0) as [E0 | Hnz].
    { cbn [fst] in H. discriminate H. }
    destruct (x448_gen_pair (key_to_U8 s) (U8.toBI (key_to_U8 s)))
      as (x & Q0 & Hx & _ & HQ & Hgen).
    rewrite Hgen in H. cbn [fst] in H.
    assert (E : Q0 = Q /\ key_to_U8 s = d) by (split; congruence).
    destruct E as [<- <-]. split; [now rewrite HQ, Hx | ].
    intros s_key [= <-]. split; [reflexivity | now apply key_to_BI_U8].
Qed.

Lemma lift_gen_fst_ok (r : result gen_output * entropy) (g : gen_output) :
  fst (lift_gen r) = Ok (Keys g) -> fst r = Ok g.
Proof.
  destruct r as [[g0 | e] w0]; cbn [lift_gen fst]; intros H; [ | discriminate H].
  congruence.
Qed.

Lemma x25519_ecdh_ladder (s_key p_key : keyval) :
  x25519.ecdh s_key p_key =
  U8.fromBI (ladder (x25519.clamp (key_to_BI s_key)) (key_to_BI p_key)
               x25519.p x25519.a24 255).
Proof. reflexivity. Qed.

Lemma x448_ecdh_ladder (s_key p_key : keyval) :
  x448.ecdh s_key p_key =
  U8.fromBI (ladder (x448.clamp (key_to_BI s_key)) (key_to_BI p_key)
               x448.p x448.a24 448).
Proof. reflexivity. Qed.

Lemma x25519_agreement_any (tA tB : gen_type) (wA wB : entropy)
    (pkA dA pkB dB : list byte) :
  fst (x25519.gen tA wA) = Ok (KeyPair pkA dA) ->
  fst (x25519.gen tB wB) = Ok (KeyPair pkB dB) ->
  x25519.ecdh (Bytes dA) (Bytes pkB) = x25519.ecdh (Bytes dB) (Bytes pkA) /\
  forall s_key, tA = public_key s_key ->
    x25519.ecdh s_key (Bytes pkB) = x25519.ecdh (Bytes dA) (Bytes pkB).
Proof.
  intros HA HB.
  destruct (x25519_gen_inv _ _ _ _ HA) as (_ & EA & KA).
  destruct (x25519_gen_inv _ _ _ _ HB) as (_ & EB & _).
  rewrite !x25519_ecdh_ladder. cbn [key_to_BI]. unfold U8.from. split.
  - rewrite EA, EB.
    pose proof (x25519_clamp_range (U8.toBI dA)).
    pose proof (x25519_clamp_range (U8.toBI dB)).
    now rewrite x25519_ladder_commutes by lia.
  - intros s_key Hs. destruct (KA s_key Hs) as [_ E]. now rewrite E.
Qed.

Lemma x448_agreement_any (tA tB : gen_type) (wA wB : entropy)
    (pkA dA pkB dB : list byte) :
  fst (x448.gen tA wA) = Ok (KeyPair pkA dA) ->
  fst (x448.gen tB wB) = Ok (KeyPair pkB dB) ->
  x448.ecdh (Bytes dA) (Bytes pkB) = x448.ecdh (Bytes dB) (Bytes pkA) /\
  forall s_key, tA = public_key s_key ->
    x448.ecdh s_key (Bytes pkB) = x448.ecdh (Bytes dA) (Bytes pkB).
Proof.
  intros HA HB.
  destruct (x448_gen_inv _ _ _ _ HA) as (_ & EA & KA).
  destruct (x448_gen_inv _ _ _ _ HB) as (_ & EB & _).
  rewrite !x448_ecdh_ladder. cbn [key_to_BI]. unfold U8.from. split.
  - rewrite EA, EB.
    pose proof (x448_clamp_range (U8.toBI dA)).
    pose proof (x448_clamp_range (U8.toBI dB)).
    now rewrite x448_ladder_commutes by lia.
  - intros s_key Hs. destruct (KA s_key Hs) as [_ E]. now rewrite E.
Qed.

(** X7: key agreement is symmetric for key pairs however they were
    obtained: generated, or derived from a private key given as bytes or
    as an integer.  With the key pairs [(dA, pkA)] and [(dB, pkB)] that
    two calls of [gen] return on one curve, [ecdh(dA, pkB)] and
    [ecdh(dB, pkA)] are the same bytes, and a private key [s_key] handed
    to derive-public-key agrees like the [dA] returned for it. *)
Theorem agreement_symmetric_for_derived_keys (c : curve) (tA tB : gen_type)
    (wA wB : entropy) (pkA dA pkB dB : list byte) :
  fst (invoke c (Gen tA) wA) = Ok (Keys (KeyPair pkA dA)) ->
  fst (invoke c (Gen tB) wB) = Ok (Keys (KeyPair pkB dB)) ->
  forall w, exists secret,
    invoke c (Ecdh (Bytes dA) (Bytes pkB)) w = (Ok (Secret secret), w) /\
    invoke c (Ecdh (Bytes dB) (Bytes pkA)) w = (Ok (Secret secret), w) /\
    forall s_key, tA = public_key s_key ->
      invoke c (Ecdh s_key (Bytes pkB)) w = (Ok (Secret secret), w).
Proof.
  intros HA HB w.
  rewrite invoke_gen in HA, HB.
  apply lift_gen_fst_ok in HA. apply lift_gen_fst_ok in HB.
  destruct c.
  - destruct (x25519_agreement_any _ _ _ _ _ _ _ _ HA HB) as [E1 E2].
    exists (x25519.ecdh (Bytes dA) (Bytes pkB)). rewrite !invoke_ecdh.
    split; [reflexivity | split].
    + now rewrite E1.
    + intros s_key Hs. rewrite invoke_ecdh. now rewrite (E2 s_key Hs).
  - destruct (x448_agreement_any _ _ _ _ _ _ _ _ HA HB) as [E1 E2].
    exists (x448.ecdh (Bytes dA) (Bytes pkB)). rewrite !invoke_ecdh.
    split; [reflexivity | split].
    + now rewrite E1.
    + intros s_key Hs. rewrite invoke_ecdh. now rewrite (E2 s_key Hs).
Qed.

(** A public key derived from an integer and a generated key pair, to run
    X7 on. *)
Lemma agreement_symmetric_for_derived_keys_witness :
  fst (invoke CurveA (Gen (public_key (BI (U8.toBI Parties.alice25519))))
         (Parties.rng Parties.bob25519 0)) =
    Ok (Keys (KeyPair Parties.alice25519_pub Parties.alice25519)) /\
  fst (invoke CurveA (Gen key_pair) (Parties.rng Parties.bob25519 0)) =
    Ok (Keys (KeyPair Parties.bob25519_pub Parties.bob25519)) /\
  exists secret,
    invoke CurveA (Ecdh (Bytes Parties.alice25519) (Bytes Parties.bob25519_pub))
      (Parties.rng Parties.bob25519 1) =
      (Ok (Secret secret), Parties.rng Parties.bob25519 1) /\
    invoke CurveA (Ecdh (Bytes Parties.bob25519) (Bytes Parties.alice25519_pub))
      (Parties.rng Parties.bob25519 1) =
      (Ok (Secret secret), Parties.rng Parties.bob25519 1) /\
    forall s_key, public_key (BI (U8.toBI Parties.alice25519)) = public_key s_key ->
      invoke CurveA (Ecdh s_key (Bytes Parties.bob25519_pub))
        (Parties.rng Parties.bob25519 1) =
        (Ok (Secret secret), Parties.rng Parties.bob25519 1).
Proof.
  assert (HA : fst (invoke CurveA (Gen (public_key (BI (U8.toBI Parties.alice25519))))
                      (Parties.rng Parties.bob25519 0)) =
               Ok (Keys (KeyPair Parties.alice25519_pub Parties.alice25519))).
  { rewrite invoke_gen, x25519_gen_Big. vm_compute. reflexivity. }
  assert (HB : fst (invoke CurveA (Gen key_pair) (Parties.rng Parties.bob25519 0)) =
               Ok (Keys (KeyPair Parties.bob25519_pub Parties.bob25519))).
  { rewrite invoke_gen, x25519_gen_Big. vm_compute. reflexivity. }
  split; [exact HA | split; [exact HB | ]].
  exact (agreement_symmetric_for_derived_keys CurveA _ _ _ _ _ _ _ _ HA HB _).
Defined.

(** X8: a shared secret is never longer than the curve's width, 32 bytes
    on x25519 and 56 on x448, and read as a little-endian integer it is
    below the field prime. *)
Theorem ecdh_secret_bounded (s_key p_key : keyval) :
  ((length (x25519.ecdh s_key p_key) <= 32)%nat /\
   0 <= U8.toBI (x25519.ecdh s_key p_key) < x25519.p) /\
  ((length (x448.ecdh s_key p_key) <= 56)%nat /\
   0 <= U8.toBI (x448.ecdh s_key p_key) < x448.p).
Proof.
  rewrite x25519_ecdh_ladder, x448_ecdh_ladder.
  pose proof (ladder_range (x25519.clamp (key_to_BI s_key)) (key_to_BI p_key)
                x25519.p x25519.a24 255 (proj1 x25519_p_pos)) as R1.
  pose proof (ladder_range (x448.clamp (key_to_BI s_key)) (key_to_BI p_key)
                x448.p x448.a24 448 (proj1 x448_p_pos)) as R2.
  pose proof x25519_p_pos as P1. pose proof x448_p_pos as P2.
  split; (split; [apply fromBI_length_le; lia | rewrite toBI_fromBI; lia]).
Qed.

Lemma padded_unique (Q : list byte) (x : Z) (w : nat) :
  0 <= x -> length Q = w -> (length (U8.fromBI x) <= w)%nat -> U8.toBI Q = x ->
  Q = U8.fromBI x ++ repeat Byte.x00 (w - length (U8.fromBI x)).
Proof.
  intros Hx Hlen Hle HQ. apply le_combine_inj.
  - rewrite length_app, repeat_length. lia.
  - fold (U8.toBI Q).
    fold (U8.toBI (U8.fromBI x ++ repeat Byte.x00 (w - length (U8.fromBI x)))).
    now rewrite toBI_padded.
Qed.

(** X9: the public key that [gen] returns, generated or derived, has
    exactly the curve's width, and it is the key agreement of the returned
    private key with the base point (9 on x25519, 5 on x448) followed by
    as many zero bytes as the width needs. *)
Theorem public_key_is_padded_base_agreement (c : curve) (type : gen_type)
    (w : entropy) (Q d : list byte) :
  fst (invoke c (Gen type) w) = Ok (Keys (KeyPair Q d)) ->
  length Q = size c /\
  Q = match c with
      | CurveA => x25519.ecdh (Bytes d) (BI x25519.Gx)
      | CurveB => x448.ecdh (Bytes d) (BI x448.Gx)
      end ++
      repeat Byte.x00
        (size c - length (match c with
                          | CurveA => x25519.ecdh (Bytes d) (BI x25519.Gx)
                          | CurveB => x448.ecdh (Bytes d) (BI x448.Gx)
                          end)).
Proof.
  intros H. rewrite invoke_gen in H. apply lift_gen_fst_ok in H.
  destruct c; cbn [size].
  - destruct (x25519_gen_inv _ _ _ _ H) as (Hlen & HQ & _).
    split; [exact Hlen | ].
    rewrite x25519_ecdh_ladder. cbn [key_to_BI]. unfold U8.from.
    pose proof (ladder_range (x25519.clamp (U8.toBI d)) x25519.Gx
                  x25519.p x25519.a24 255 (proj1 x25519_p_pos)) as R.
    pose proof x25519_p_pos as P.
    apply padded_unique; try assumption; [lia | ].
    apply fromBI_length_le. lia.
  - destruct (x448_gen_inv _ _ _ _ H) as (Hlen & HQ & _).
    split; [exact Hlen | ].
    rewrite x448_ecdh_ladder. cbn [key_to_BI]. unfold U8.from.
    pose proof (ladder_range (x448.clamp (U8.toBI d)) x448.Gx
                  x448.p x448.a24 448 (proj1 x448_p_pos)) as R.
    pose proof x448_p_pos as P.
    apply padded_unique; try assumption; [lia | ].
    apply fromBI_length_le. lia.
Qed.

(** A generated key pair on each curve, to run X9 on. *)
Lemma public_key_is_padded_base_agreement_witness :
  (length Parties.alice25519_pub = size CurveA /\
   Parties.alice25519_pub =
     x25519.ecdh (Bytes Parties.alice25519) (BI x25519.Gx) ++
     repeat Byte.x00
       (size CurveA - length (x25519.ecdh (Bytes Parties.alice25519) (BI x25519.Gx)))) /\
  (length Parties.alice448_pub = size CurveB /\
   Parties.alice448_pub =
     x448.ecdh (Bytes Parties.alice448) (BI x448.Gx) ++
     repeat Byte.x00
       (size CurveB - length (x448.ecdh (Bytes Parties.alice448) (BI x448.Gx)))).
Proof.
  split.
  - apply (public_key_is_padded_base_agreement CurveA key_pair
             (Parties.rng Parties.alice25519 0) _ Parties.alice25519).
    rewrite invoke_gen, x25519_gen_Big. vm_compute. reflexivity.
  - apply (public_key_is_padded_base_agreement CurveB key_pair
             (Parties.rng Parties.alice448 0) _ Parties.alice448).
    rewrite invoke_gen, x448_gen_Big. vm_compute. reflexivity.
Defined.

(** * Keccak-p[400] and Keccak-p[200] *)

Lemma store_le_combine_2 (b0 b1 : byte) :
  KeccakP.store 16 (le_combine [b0; b1]) = le_combine [b0; b1].
Proof.
  unfold KeccakP.store. apply Z.mod_small.
  pose proof (le_combine_bound [b0; b1]) as H. cbn [length] in H. exact H.
Qed.

Lemma store_le_combine_1 (b0 : byte) :
  KeccakP.store 8 (le_combine [b0]) = le_combine [b0].
Proof.
  unfold KeccakP.store. apply Z.mod_small.
  pose proof (le_combine_bound [b0]) as H. cbn [length] in H. exact H.
Qed.

Lemma split_combine_2 (b0 b1 : byte) :
  byte.of_Z (le_combine [b0; b1]) = b0 /\
  byte.of_Z (Z.shiftr (le_combine [b0; b1]) 8) = b1.
Proof.
  pose proof (split_le_combine [b0; b1]) as H. cbv beta iota delta [le_split length] in H.
  injection H as H0 H1. split; assumption.
Qed.

Lemma split_combine_1 (b0 : byte) : byte.of_Z (le_combine [b0]) = b0.
Proof.
  pose proof (split_le_combine [b0]) as H. cbv beta iota delta [le_split length] in H.
  now injection H as H0.
Qed.

Lemma combine_split_2 (v : Z) :
  0 <= v < 2 ^ 16 ->
  KeccakP.store 16 (le_combine [byte.of_Z v; byte.of_Z (Z.shiftr v 8)]) = v.
Proof.
  intros Hv. pose proof (le_combine_split 2 v) as H. cbv beta iota delta [le_split] in H.
  rewrite H. unfold KeccakP.store. change (Z.of_nat 2 * 8) with 16.
  now rewrite Z.mod_mod, Z.mod_small by lia.
Qed.

Lemma combine_split_1 (v : Z) :
  0 <= v < 2 ^ 8 ->
  KeccakP.store 8 (le_combine [byte.of_Z v]) = v.
Proof.
  intros Hv. pose proof (le_combine_split 1 v) as H. cbv beta iota delta [le_split] in H.
  rewrite H. unfold KeccakP.store. change (Z.of_nat 1 * 8) with 8.
  now rewrite Z.mod_mod, Z.mod_small by lia.
Qed.

(** Naming the next byte of a buffer that has it. *)
Ltac next_byte buf H :=
  destruct buf as [ | ? buf]; [exfalso; cbn [length] in H; lia | ].

(** Naming the 25 lanes of a well-formed state array. *)
Ltac explode_row r H :=
  let Hl := fresh in let Hv := fresh in
  destruct H as [Hl Hv];
  do 5 (destruct r as [ | ? r]; [discriminate Hl | ]);
  destruct r; [ | discriminate Hl];
  repeat match type of Hv with
         | Forall _ (_ :: _) =>
             let Hh := fresh "Hlane" in
             apply Forall_cons_iff in Hv; destruct Hv as [Hh Hv]
         end;
  clear Hl Hv.

Ltac explode_state A H :=
  let Hl := fresh in let Hr := fresh in
  destruct H as [Hl Hr];
  do 5 (destruct A as [ | ? A]; [discriminate Hl | ]);
  destruct A; [ | discriminate Hl];
  repeat match type of Hr with
         | Forall _ (?r :: _) =>
             let Hh := fresh in
             apply Forall_cons_iff in Hr; destruct Hr as [Hh Hr];
             explode_row r Hh
         end;
  clear Hl Hr.

Ltac keccak_constants :=
  change (Z.to_nat (KeccakP.wByte Keccak400.PERMUTATION)) with 2%nat in *;
  change (Z.to_nat (KeccakP.bByte Keccak400.PERMUTATION)) with 50%nat in *;
  change (KeccakP.w Keccak400.PERMUTATION) with 16 in *;
  change (Z.to_nat (KeccakP.wByte Keccak200.PERMUTATION)) with 1%nat in *;
  change (Z.to_nat (KeccakP.bByte Keccak200.PERMUTATION)) with 25%nat in *;
  change (KeccakP.w Keccak200.PERMUTATION) with 8 in *.

Ltac run_toStateArray :=
  unfold Keccak400.toStateArray, Keccak200.toStateArray,
    KeccakP.toStateArray, KeccakP.for5, KeccakP.getUint;
  keccak_constants;
  cbn -[le_combine KeccakP.store byte.of_Z Z.shiftr].

Ltac run_toState :=
  unfold Keccak400.toState, Keccak200.toState,
    KeccakP.toState, KeccakP.for5, KeccakP.setUint;
  keccak_constants;
  cbv beta iota delta [le_split];
  cbn -[le_combine KeccakP.store byte.of_Z Z.shiftr KeccakP.lane].

Ltac fold_bytes :=
  rewrite ?store_le_combine_2, ?store_le_combine_1;
  repeat match goal with
         | |- context [byte.of_Z (le_combine [?a; ?b])] =>
             rewrite (proj1 (split_combine_2 a b))
         | |- context [byte.of_Z (Z.shiftr (le_combine [?a; ?b]) 8)] =>
             rewrite (proj2 (split_combine_2 a b))
         | |- context [byte.of_Z (le_combine [?a])] =>
             rewrite (split_combine_1 a)
         end.

Lemma toStateArray_400_prefix (S : Uint8Array) :
  (50 <= length (buffer S))%nat ->
  exists A, Keccak400.toStateArray S = Some A /\
            Keccak400.toStateArray (whole (firstn 50 (buffer S))) = Some A /\
            Keccak400.toState A = Some (firstn 50 (buffer S)).
Proof.
  destruct S as [buf off len]. cbn [buffer]. intros H.
  do 50 (next_byte buf H).
  eexists. split; [ | split].
  - run_toStateArray. reflexivity.
  - run_toStateArray. reflexivity.
  - run_toState. cbn [KeccakP.lane nth]. fold_bytes. reflexivity.
Qed.

Lemma toStateArray_200_prefix (S : Uint8Array) :
  (25 <= length (buffer S))%nat ->
  exists A, Keccak200.toStateArray S = Some A /\
            Keccak200.toStateArray (whole (firstn 25 (buffer S))) = Some A /\
            Keccak200.toState A = Some (firstn 25 (buffer S)).
Proof.
  destruct S as [buf off len]. cbn [buffer]. intros H.
  do 25 (next_byte buf H).
  eexists. split; [ | split].
  - run_toStateArray. reflexivity.
  - run_toStateArray. reflexivity.
  - run_toState. cbn [KeccakP.lane nth]. fold_bytes. reflexivity.
Qed.

Lemma toState_400_total (A : KeccakP.StateArray) :
  exists bytes, Keccak400.toState A = Some bytes /\ length bytes = 50%nat.
Proof. eexists. split; [run_toState; reflexivity | reflexivity]. Qed.

Lemma toState_200_total (A : KeccakP.StateArray) :
  exists bytes, Keccak200.toState A = Some bytes /\ length bytes = 25%nat.
Proof. eexists. split; [run_toState; reflexivity | reflexivity]. Qed.

Lemma toState_400_inverse (A : KeccakP.StateArray) :
  well_formed 16 A ->
  exists bytes, Keccak400.toState A = Some bytes /\ length bytes = 50%nat /\
                Keccak400.toStateArray (whole bytes) = Some A.
Proof.
  intros H. explode_state A H.
  eexists. split; [run_toState; reflexivity | split; [reflexivity | ]].
  run_toStateArray. cbn [KeccakP.lane nth].
  rewrite !combine_split_2 by assumption. reflexivity.
Qed.

Lemma toState_200_inverse (A : KeccakP.StateArray) :
  well_formed 8 A ->
  exists bytes, Keccak200.toState A = Some bytes /\ length bytes = 25%nat /\
                Keccak200.toStateArray (whole bytes) = Some A.
Proof.
  intros H. explode_state A H.
  eexists. split; [run_toState; reflexivity | split; [reflexivity | ]].
  run_toStateArray. cbn [KeccakP.lane nth].
  rewrite !combine_split_1 by assumption. reflexivity.
Qed.

Lemma Keccak_p_400_run (rotateL16 : Z -> Z -> Z)
    (RCGen : KeccakP.KeccakPermutation -> Z -> list Z) (nr : option Z)
    (S : Uint8Array) (A : KeccakP.StateArray) :
  byteLength S = 50%nat ->
  Keccak400.toStateArray S = Some A ->
  exists _RC n out,
    Keccak400.Keccak_p_400 rotateL16 RCGen nr S = KeccakP.Returns out /\
    Keccak400.toState
      (KeccakP.rounds Keccak400.PERMUTATION Keccak400.R rotateL16 _RC n A) = Some out /\
    length out = 50%nat /\
    n = match nr with None | Some 0 => 20 | Some n => n end.
Proof.
  intros Hlen HA.
  unfold Keccak400.Keccak_p_400, KeccakP.Keccak_p.
  rewrite Hlen. change (Z.of_nat 50 =? KeccakP.bByte Keccak400.PERMUTATION) with true.
  cbn [negb]. unfold Keccak400.toStateArray in HA. rewrite HA.
  match goal with
  | |- context [KeccakP.rounds _ _ _ ?rc ?n A] =>
      destruct (toState_400_total
                  (KeccakP.rounds Keccak400.PERMUTATION Keccak400.R rotateL16 rc n A))
        as (out & Hout & Hl);
      exists rc, n, out
  end.
  unfold Keccak400.toState in Hout. rewrite Hout.
  repeat split; assumption.
Qed.

Lemma Keccak_p_200_run (rotateL8 : Z -> Z -> Z)
    (RCGen : KeccakP.KeccakPermutation -> Z -> list Z) (nr : option Z)
    (S : Uint8Array) (A : KeccakP.StateArray) :
  byteLength S = 25%nat ->
  Keccak200.toStateArray S = Some A ->
  exists _RC n out,
    Keccak200.Keccak_p_200 rotateL8 RCGen nr S = KeccakP.Returns out /\
    Keccak200.toState
      (KeccakP.rounds Keccak200.PERMUTATION Keccak200.R rotateL8 _RC n A) = Some out /\
    length out = 25%nat /\
    n = match nr with None | Some 0 => 18 | Some n => n end.
Proof.
  intros Hlen HA.
  unfold Keccak200.Keccak_p_200, KeccakP.Keccak_p.
  rewrite Hlen. change (Z.of_nat 25 =? KeccakP.bByte Keccak200.PERMUTATION) with true.
  cbn [negb]. unfold Keccak200.toStateArray in HA. rewrite HA.
  match goal with
  | |- context [KeccakP.rounds _ _ _ ?rc ?n A] =>
      destruct (toState_200_total
                  (KeccakP.rounds Keccak200.PERMUTATION Keccak200.R rotateL8 rc n A))
        as (out & Hout & Hl);
      exists rc, n, out
  end.
  unfold Keccak200.toState in Hout. rewrite Hout.
  repeat split; assumption.
Qed.

(** X10: the permutation checks the size of the state, and the reads
    and writes of its [DataView]s are never out of range.  For a view [S]
    that lies inside its buffer, [Keccak_p_400] throws
    [Error('Invalid state size')] when [S.byteLength] is not 50 and
    otherwise returns 50 bytes, for every number of rounds; likewise
    [Keccak_p_200] with 25. *)
Theorem Keccak_p_checks_state_size (rotateL : Z -> Z -> Z)
    (RCGen : KeccakP.KeccakPermutation -> Z -> list Z) (nr : option Z)
    (S : Uint8Array) :
  inside_buffer S ->
  (byteLength S <> 50%nat ->
   Keccak400.Keccak_p_400 rotateL RCGen nr S =
     KeccakP.Throws (KeccakP.Error "Invalid state size")) /\
  (byteLength S = 50%nat ->
   exists out, Keccak400.Keccak_p_400 rotateL RCGen nr S = KeccakP.Returns out /\
               length out = 50%nat) /\
  (byteLength S <> 25%nat ->
   Keccak200.Keccak_p_200 rotateL RCGen nr S =
     KeccakP.Throws (KeccakP.Error "Invalid state size")) /\
  (byteLength S = 25%nat ->
   exists out, Keccak200.Keccak_p_200 rotateL RCGen nr S = KeccakP.Returns out /\
               length out = 25%nat).
Proof.
  intros Hin. unfold inside_buffer in Hin. repeat split.
  - intros Hne. unfold Keccak400.Keccak_p_400, KeccakP.Keccak_p.
    change (KeccakP.bByte Keccak400.PERMUTATION) with 50.
    destruct (Z.eqb_spec (Z.of_nat (byteLength S)) 50) as [E | _]; [lia | reflexivity].
  - intros Hlen.
    destruct (toStateArray_400_prefix S ltac:(lia)) as (A & HA & _).
    destruct (Keccak_p_400_run rotateL RCGen nr S A Hlen HA)
      as (rc & n & out & Hrun & _ & Hl & _).
    exists out. split; assumption.
  - intros Hne. unfold Keccak200.Keccak_p_200, KeccakP.Keccak_p.
    change (KeccakP.bByte Keccak200.PERMUTATION) with 25.
    destruct (Z.eqb_spec (Z.of_nat (byteLength S)) 25) as [E | _]; [lia | reflexivity].
  - intros Hlen.
    destruct (toStateArray_200_prefix S ltac:(lia)) as (A & HA & _).
    destruct (Keccak_p_200_run rotateL RCGen nr S A Hlen HA)
      as (rc & n & out & Hrun & _ & Hl & _).
    exists out. split; assumption.
Qed.

(** A state of zeros, the identity for the rotation and no generated
    round constants, to run X10 on. *)
Lemma Keccak_p_checks_state_size_witness :
  (exists out,
     Keccak400.Keccak_p_400 (fun x _ => x) (fun _ _ => []) None
       (whole (repeat Byte.x00 50)) = KeccakP.Returns out /\
     length out = 50%nat) /\
  Keccak200.Keccak_p_200 (fun x _ => x) (fun _ _ => []) None
    (whole (repeat Byte.x00 50)) =
    KeccakP.Throws (KeccakP.Error "Invalid state size").
Proof.
  destruct (Keccak_p_checks_state_size (fun x _ => x) (fun _ _ => []) None
              (whole (repeat Byte.x00 50))) as (_ & H400 & H200 & _).
  - unfold inside_buffer. cbn. lia.
  - split; [apply H400; reflexivity | apply H200; cbn; lia].
Defined.

(** X11: the permutation reads its input through a [DataView] of
    [S.buffer], which starts at the start of the buffer and not at
    [S.byteOffset]: for a 50-byte view [S], at whatever offset of its
    buffer, [Keccak_p_400] returns what it returns for the first 50 bytes
    of the buffer; likewise [Keccak_p_200] with 25. *)
Theorem Keccak_p_reads_buffer_start (rotateL : Z -> Z -> Z)
    (RCGen : KeccakP.KeccakPermutation -> Z -> list Z) (nr : option Z)
    (S : Uint8Array) :
  inside_buffer S ->
  (byteLength S = 50%nat ->
   Keccak400.Keccak_p_400 rotateL RCGen nr S =
   Keccak400.Keccak_p_400 rotateL RCGen nr (whole (firstn 50 (buffer S)))) /\
  (byteLength S = 25%nat ->
   Keccak200.Keccak_p_200 rotateL RCGen nr S =
   Keccak200.Keccak_p_200 rotateL RCGen nr (whole (firstn 25 (buffer S)))).
Proof.
  intros Hin. unfold inside_buffer in Hin. split; intros Hlen.
  - destruct (toStateArray_400_prefix S ltac:(lia)) as (A & HA & HA' & _).
    unfold Keccak400.toStateArray in HA, HA'.
    unfold Keccak400.Keccak_p_400, KeccakP.Keccak_p.
    rewrite HA, HA'. cbn [whole byteLength].
    rewrite length_firstn, Hlen. now rewrite Nat.min_l by lia.
  - destruct (toStateArray_200_prefix S ltac:(lia)) as (A & HA & HA' & _).
    unfold Keccak200.toStateArray in HA, HA'.
    unfold Keccak200.Keccak_p_200, KeccakP.Keccak_p.
    rewrite HA, HA'. cbn [whole byteLength].
    rewrite length_firstn, Hlen. now rewrite Nat.min_l by lia.
Qed.

(** A view of the last 50 bytes of a buffer of 60, to run X11 on. *)
Lemma Keccak_p_reads_buffer_start_witness :
  Keccak400.Keccak_p_400 (fun x _ => x) (fun _ _ => []) None
    {| buffer := repeat Byte.x01 10 ++ repeat Byte.x00 50;
       byteOffset := 10; byteLength := 50 |} =
  Keccak400.Keccak_p_400 (fun x _ => x) (fun _ _ => []) None
    (whole (firstn 50 (repeat Byte.x01 10 ++ repeat Byte.x00 50))).
Proof.
  apply (Keccak_p_reads_buffer_start (fun x _ => x) (fun _ _ => []) None
           {| buffer := repeat Byte.x01 10 ++ repeat Byte.x00 50;
              byteOffset := 10; byteLength := 50 |}).
  - unfold inside_buffer. cbn. lia.
  - reflexivity.
Defined.




(** X13: the two conversions between a state and a state array are
    inverse to each other: the 50 bytes of a state are recovered from its
    state array, and a state array of five rows of five 16-bit lanes is
    recovered from its 50 bytes; likewise for 25 bytes and 8-bit lanes. *)
Theorem state_array_round_trip (bytes : list byte) (A : KeccakP.StateArray) :
  (length bytes = 50%nat ->
   exists A', Keccak400.toStateArray (whole bytes) = Some A' /\
              Keccak400.toState A' = Some bytes) /\
  (well_formed 16 A ->
   exists bytes', Keccak400.toState A = Some bytes' /\ length bytes' = 50%nat /\
                  Keccak400.toStateArray (whole bytes') = Some A) /\
  (length bytes = 25%nat ->
   exists A', Keccak200.toStateArray (whole bytes) = Some A' /\
              Keccak200.toState A' = Some bytes) /\
  (well_formed 8 A ->
   exists bytes', Keccak200.toState A = Some bytes' /\ length bytes' = 25%nat /\
                  Keccak200.toStateArray (whole bytes') = Some A).
Proof.
  repeat split.
  - intros Hlen.
    destruct (toStateArray_400_prefix (whole bytes)) as (A' & HA & _ & Hback);
      [cbn [whole buffer]; lia | ].
    cbn [whole buffer] in Hback. rewrite firstn_all2 in Hback by lia.
    exists A'. split; assumption.
  - apply toState_400_inverse.
  - intros Hlen.
    destruct (toStateArray_200_prefix (whole bytes)) as (A' & HA & _ & Hback);
      [cbn [whole buffer]; lia | ].
    cbn [whole buffer] in Hback. rewrite firstn_all2 in Hback by lia.
    exists A'. split; assumption.
  - apply toState_200_inverse.
Qed.

(** A state of 50 bytes and the state array of zeros, to run X13 on. *)
Lemma state_array_round_trip_witness :
  (exists A', Keccak400.toStateArray (whole (repeat Byte.x01 50)) = Some A' /\
              Keccak400.toState A' = Some (repeat Byte.x01 50)) /\
  (exists bytes', Keccak400.toState KeccakP.createStateArray = Some bytes' /\
                  length bytes' = 50%nat /\
                  Keccak400.toStateArray (whole bytes') = Some KeccakP.createStateArray).
Proof.
  destruct (state_array_round_trip (repeat Byte.x01 50) KeccakP.createStateArray)
    as (H1 & H2 & _).
  split; [apply H1; reflexivity | apply H2].
  split; [reflexivity | ].
  repeat (apply Forall_cons; [split; [reflexivity | repeat (apply Forall_cons; [lia | ]); apply Forall_nil] | ]).
  apply Forall_nil.
Defined.

Lemma store_idem (w v : Z) : KeccakP.store w (KeccakP.store w v) = KeccakP.store w v.
Proof.
  unfold KeccakP.store. destruct (Z.eq_dec (2 ^ w) 0) as [E | E].
  - rewrite E. now rewrite !Z.mod_0_r.
  - now rewrite Z.mod_mod by exact E.
Qed.

Lemma store_small (w v : Z) : 0 <= v < 2 ^ w -> KeccakP.store w v = v.
Proof. intros H. unfold KeccakP.store. now apply Z.mod_small. Qed.

Ltac run_steps :=
  unfold Keccak400.rhoPi, Keccak400.rho, Keccak400.pi, Keccak400.chi, Keccak400.iota,
    Keccak200.rhoPi, Keccak200.rho, Keccak200.pi, Keccak200.chi, Keccak200.iota,
    KeccakP.rhoPi, KeccakP.rho, KeccakP.pi, KeccakP.chi, KeccakP.iota, KeccakP.for5;
  change (KeccakP.w Keccak400.PERMUTATION) with 16 in *;
  change (KeccakP.w Keccak200.PERMUTATION) with 8 in *;
  cbn -[KeccakP.store Z.lxor Z.land Z.lnot].

(** X14: the merged step is the composition it stands for: [rhoPi]
    applied to any state array gives what [pi] gives after [rho], in both
    files and whatever the rotation is. *)
Theorem rhoPi_is_pi_after_rho (rotateL : Z -> Z -> Z) (A : KeccakP.StateArray) :
  Keccak400.rhoPi rotateL A = Keccak400.pi (Keccak400.rho rotateL A) /\
  Keccak200.rhoPi rotateL A = Keccak200.pi (Keccak200.rho rotateL A).
Proof.
  split; run_steps; rewrite !store_idem; reflexivity.
Qed.

Lemma chi_lane_inv (w a b c d e : Z) :
  0 <= w ->
  0 <= a < 2 ^ w ->
  let c0 := KeccakP.store w (Z.lxor a (Z.land (Z.lnot b) c)) in
  let c1 := KeccakP.store w (Z.lxor b (Z.land (Z.lnot c) d)) in
  let c2 := KeccakP.store w (Z.lxor c (Z.land (Z.lnot d) e)) in
  let c3 := KeccakP.store w (Z.lxor d (Z.land (Z.lnot e) a)) in
  let c4 := KeccakP.store w (Z.lxor e (Z.land (Z.lnot a) b)) in
  a = KeccakP.store w
        (Z.lxor c0 (Z.land (Z.lnot c1) (Z.lxor c2 (Z.land (Z.lnot c3) c4)))).
Proof.
  intros Hw Ha c0 c1 c2 c3 c4. subst c0 c1 c2 c3 c4. unfold KeccakP.store.
  rewrite <- (Z.mod_small a (2 ^ w)) at 1 by exact Ha.
  apply Z.bits_inj'. intros n Hn.
  repeat rewrite ?Z.testbit_mod_pow2, ?Z.lxor_spec, ?Z.land_spec, ?Z.lnot_spec by lia.
  destruct (n <? w), (Z.testbit a n), (Z.testbit b n), (Z.testbit c n),
    (Z.testbit d n), (Z.testbit e n); reflexivity.
Qed.

Lemma chi_lane_inj (w a b c d e a' b' c' d' e' : Z) :
  KeccakP.store w (Z.lxor a (Z.land (Z.lnot b) c)) =
    KeccakP.store w (Z.lxor a' (Z.land (Z.lnot b') c')) ->
  KeccakP.store w (Z.lxor b (Z.land (Z.lnot c) d)) =
    KeccakP.store w (Z.lxor b' (Z.land (Z.lnot c') d')) ->
  KeccakP.store w (Z.lxor c (Z.land (Z.lnot d) e)) =
    KeccakP.store w (Z.lxor c' (Z.land (Z.lnot d') e')) ->
  KeccakP.store w (Z.lxor d (Z.land (Z.lnot e) a)) =
    KeccakP.store w (Z.lxor d' (Z.land (Z.lnot e') a')) ->
  KeccakP.store w (Z.lxor e (Z.land (Z.lnot a) b)) =
    KeccakP.store w (Z.lxor e' (Z.land (Z.lnot a') b')) ->
  0 <= w -> 0 <= a < 2 ^ w -> 0 <= a' < 2 ^ w ->
  a = a'.
Proof.
  intros E0 E1 E2 E3 E4 Hw Ha Ha'.
  rewrite (chi_lane_inv w a b c d e Hw Ha), (chi_lane_inv w a' b' c' d' e' Hw Ha').
  cbv zeta. now rewrite E0, E1, E2, E3, E4.
Qed.

Lemma iota_lane (w a rc : Z) :
  0 <= w -> 0 <= a < 2 ^ w ->
  KeccakP.store w (Z.lxor (KeccakP.store w (Z.lxor a rc)) rc) = a.
Proof.
  intros Hw Ha. unfold KeccakP.store.
  rewrite <- (Z.mod_small a (2 ^ w)) at 2 by exact Ha.
  apply Z.bits_inj'. intros n Hn.
  repeat rewrite ?Z.testbit_mod_pow2, ?Z.lxor_spec by lia.
  destruct (n <? w), (Z.testbit a n), (Z.testbit rc n); reflexivity.
Qed.

Ltac lanes_small :=
  repeat match goal with
         | H : 0 <= ?v < 2 ^ ?w |- context [KeccakP.store ?w ?v] =>
             rewrite (store_small w v H)
         | H : 0 <= ?v < 2 ^ ?w, E : context [KeccakP.store ?w ?v] |- _ =>
             rewrite (store_small w v H) in E
         end.

Lemma pi_400_injective (A B : KeccakP.StateArray) :
  well_formed 16 A -> well_formed 16 B ->
  Keccak400.pi A = Keccak400.pi B -> A = B.
Proof.
  intros HA HB. explode_state A HA. explode_state B HB.
  run_steps. intros E. lanes_small. congruence.
Qed.

Lemma pi_200_injective (A B : KeccakP.StateArray) :
  well_formed 8 A -> well_formed 8 B ->
  Keccak200.pi A = Keccak200.pi B -> A = B.
Proof.
  intros HA HB. explode_state A HA. explode_state B HB.
  run_steps. intros E. lanes_small. congruence.
Qed.

Ltac split_rows :=
  repeat match goal with
         | H : _ :: _ = _ :: _ |- _ => injection H as ? ?
         | H : @nil _ = @nil _ |- _ => clear H
         end.

Lemma chi_400_injective (A B : KeccakP.StateArray) :
  well_formed 16 A -> well_formed 16 B ->
  Keccak400.chi A = Keccak400.chi B -> A = B.
Proof.
  intros HA HB. explode_state A HA. explode_state B HB.
  run_steps. intros E. split_rows.
  repeat f_equal;
    (eapply (chi_lane_inj 16); [eassumption | eassumption | eassumption | eassumption
                                | eassumption | lia | assumption | assumption]).
Qed.

Lemma chi_200_injective (A B : KeccakP.StateArray) :
  well_formed 8 A -> well_formed 8 B ->
  Keccak200.chi A = Keccak200.chi B -> A = B.
Proof.
  intros HA HB. explode_state A HA. explode_state B HB.
  run_steps. intros E. split_rows.
  repeat f_equal;
    (eapply (chi_lane_inj 8); [eassumption | eassumption | eassumption | eassumption
                               | eassumption | lia | assumption | assumption]).
Qed.

Lemma iota_400_involutive (A : KeccakP.StateArray) (rc : Z) :
  well_formed 16 A -> Keccak400.iota (Keccak400.iota A rc) rc = A.
Proof.
  intros HA. explode_state A HA. run_steps.
  rewrite iota_lane by (lia || assumption). reflexivity.
Qed.

Lemma iota_200_involutive (A : KeccakP.StateArray) (rc : Z) :
  well_formed 8 A -> Keccak200.iota (Keccak200.iota A rc) rc = A.
Proof.
  intros HA. explode_state A HA. run_steps.
  rewrite iota_lane by (lia || assumption). reflexivity.
Qed.

(** X15: three of the step mappings lose nothing of a state array of five
    rows of five [w]-bit lanes: [pi] and [chi] are injective, and [iota]
    with the same round constant undoes itself; in both files. *)
Theorem pi_chi_iota_invertible (A B : KeccakP.StateArray) (rc : Z) :
  (well_formed 16 A -> well_formed 16 B ->
   (Keccak400.pi A = Keccak400.pi B -> A = B) /\
   (Keccak400.chi A = Keccak400.chi B -> A = B) /\
   Keccak400.iota (Keccak400.iota A rc) rc = A) /\
  (well_formed 8 A -> well_formed 8 B ->
   (Keccak200.pi A = Keccak200.pi B -> A = B) /\
   (Keccak200.chi A = Keccak200.chi B -> A = B) /\
   Keccak200.iota (Keccak200.iota A rc) rc = A).
Proof.
  split; intros HA HB; (split; [ | split]).
  - now apply pi_400_injective.
  - now apply chi_400_injective.
  - now apply iota_400_involutive.
  - now apply pi_200_injective.
  - now apply chi_200_injective.
  - now apply iota_200_involutive.
Qed.

Lemma createStateArray_well_formed (w : Z) :
  0 <= w -> well_formed w KeccakP.createStateArray.
Proof.
  intros Hw. assert (0 < 2 ^ w) by (apply Z.pow_pos_nonneg; lia).
  split; [reflexivity | ].
  repeat (apply Forall_cons;
          [split; [reflexivity | repeat (apply Forall_cons; [lia | ]); apply Forall_nil] | ]).
  apply Forall_nil.
Qed.

(** The state array of zeros, to run X15 on. *)
Lemma pi_chi_iota_invertible_witness :
  Keccak400.iota (Keccak400.iota KeccakP.createStateArray 0x8000) 0x8000 =
    KeccakP.createStateArray /\
  Keccak200.iota (Keccak200.iota KeccakP.createStateArray 0x80) 0x80 =
    KeccakP.createStateArray.
Proof.
  split.
  - apply (proj1 (pi_chi_iota_invertible KeccakP.createStateArray
                    KeccakP.createStateArray 0x8000));
      apply createStateArray_well_formed; lia.
  - apply (proj2 (pi_chi_iota_invertible KeccakP.createStateArray
                    KeccakP.createStateArray 0x80));
      apply createStateArray_well_formed; lia.
Defined.

Lemma store_range (w v : Z) : 0 <= w -> 0 <= KeccakP.store w v < 2 ^ w.
Proof.
  intros Hw. unfold KeccakP.store. apply Z.mod_pos_bound.
  apply Z.pow_pos_nonneg; lia.
Qed.

Ltac well_formed_rows :=
  split;
  [ reflexivity
  | repeat (apply Forall_cons;
            [ split;
              [ reflexivity
              | repeat (apply Forall_cons;
                        [ (apply store_range; lia) || assumption | ]);
                apply Forall_nil ]
            | ]);
    apply Forall_nil ].

Ltac run_round :=
  unfold KeccakP.theta, KeccakP.rhoPi, KeccakP.chi, KeccakP.iota, KeccakP.for5;
  change (KeccakP.w Keccak400.PERMUTATION) with 16 in *;
  change (KeccakP.w Keccak200.PERMUTATION) with 8 in *;
  cbn -[KeccakP.store Z.lxor Z.land Z.lnot].

Lemma round_400_well_formed (rotateL : Z -> Z -> Z) (rc : Z) (A : KeccakP.StateArray) :
  well_formed 16 (KeccakP.iota Keccak400.PERMUTATION
                    (KeccakP.chi Keccak400.PERMUTATION
                       (KeccakP.rhoPi Keccak400.PERMUTATION Keccak400.R rotateL
                          (KeccakP.theta Keccak400.PERMUTATION rotateL A))) rc).
Proof.
  set (B := KeccakP.rhoPi _ _ _ _). clearbody B.
  run_round. well_formed_rows.
Qed.

Lemma round_200_well_formed (rotateL : Z -> Z -> Z) (rc : Z) (A : KeccakP.StateArray) :
  well_formed 8 (KeccakP.iota Keccak200.PERMUTATION
                   (KeccakP.chi Keccak200.PERMUTATION
                      (KeccakP.rhoPi Keccak200.PERMUTATION Keccak200.R rotateL
                         (KeccakP.theta Keccak200.PERMUTATION rotateL A))) rc).
Proof.
  set (B := KeccakP.rhoPi _ _ _ _). clearbody B.
  run_round. well_formed_rows.
Qed.

Lemma theta_400_well_formed (rotateL : Z -> Z -> Z) (A : KeccakP.StateArray) :
  well_formed 16 A -> well_formed 16 (Keccak400.theta rotateL A).
Proof.
  intros HA. explode_state A HA. unfold Keccak400.theta. run_round. well_formed_rows.
Qed.

Lemma theta_200_well_formed (rotateL : Z -> Z -> Z) (A : KeccakP.StateArray) :
  well_formed 8 A -> well_formed 8 (Keccak200.theta rotateL A).
Proof.
  intros HA. explode_state A HA. unfold Keccak200.theta. run_round. well_formed_rows.
Qed.

Lemma rounds_invariant (P : KeccakP.KeccakPermutation) (R : list (list Z))
    (rotateL : Z -> Z -> Z) (_RC : list Z) (I : KeccakP.StateArray -> Prop) :
  (forall A rc, I (KeccakP.iota P (KeccakP.chi P (KeccakP.rhoPi P R rotateL
                     (KeccakP.theta P rotateL A))) rc)) ->
  forall n A, I A -> I (KeccakP.rounds P R rotateL _RC n A).
Proof.
  intros Hstep n A HA. unfold KeccakP.rounds.
  generalize (seq 0 (Z.to_nat n)). intros l. revert A HA.
  induction l as [ | i l IH]; intros A HA; cbn [fold_left]; [exact HA | ].
  apply IH. apply Hstep.
Qed.

(** X16: the state array stays five rows of five [w]-bit lanes through
    the rounds, whatever the imported rotation returns and however many
    round constants there are: [theta] keeps the shape, and after any
    number of rounds on a well-formed state array the state array is
    well-formed; in both files. *)
Theorem rounds_keep_state_array_well_formed (rotateL : Z -> Z -> Z)
    (_RC : list Z) (n : Z) (A : KeccakP.StateArray) :
  (well_formed 16 A ->
   well_formed 16 (Keccak400.theta rotateL A) /\
   well_formed 16
     (KeccakP.rounds Keccak400.PERMUTATION Keccak400.R rotateL _RC n A)) /\
  (well_formed 8 A ->
   well_formed 8 (Keccak200.theta rotateL A) /\
   well_formed 8
     (KeccakP.rounds Keccak200.PERMUTATION Keccak200.R rotateL _RC n A)).
Proof.
  split; intros HA; split.
  - now apply theta_400_well_formed.
  - apply rounds_invariant; [intros; apply round_400_well_formed | exact HA].
  - now apply theta_200_well_formed.
  - apply rounds_invariant; [intros; apply round_200_well_formed | exact HA].
Qed.

(** The state array of zeros and two rounds, to run X16 on. *)
Lemma rounds_keep_state_array_well_formed_witness :
  well_formed 16
    (KeccakP.rounds Keccak400.PERMUTATION Keccak400.R (fun x _ => x) Keccak400.RC 2
       KeccakP.createStateArray) /\
  well_formed 8
    (KeccakP.rounds Keccak200.PERMUTATION Keccak200.R (fun x _ => x) Keccak200.RC 2
       KeccakP.createStateArray).
Proof.
  split.
  - apply (proj1 (rounds_keep_state_array_well_formed (fun x _ => x) Keccak400.RC 2
                    KeccakP.createStateArray)).
    apply createStateArray_well_formed. lia.
  - apply (proj2 (rounds_keep_state_array_well_formed (fun x _ => x) Keccak200.RC 2
                    KeccakP.createStateArray)).
    apply createStateArray_well_formed. lia.
Defined.

(** * HMAC *)

Section HMACProofs.
Variable joinBuffer : list byte -> list byte -> list byte.
Variable hash : HMAC.Hash.

Lemma hmac_short_key (K M : list byte) :
  (length K <= HMAC.BLOCK_SIZE hash)%nat ->
  HMAC._hmac joinBuffer hash K M =
  let K0 := K ++ repeat Byte.x00 (HMAC.BLOCK_SIZE hash - length K) in
  Ok (HMAC.call hash
        (joinBuffer (map (fun byte => byte.xor byte Byte.x5c) K0)
           (HMAC.call hash
              (joinBuffer (map (fun byte => byte.xor byte Byte.x36) K0) M)))).
Proof.
  intros H. unfold HMAC._hmac.
  destruct (Nat.ltb_spec (HMAC.BLOCK_SIZE hash) (length K)) as [Hlt | _]; [lia | ].
  rewrite set_new by lia. now rewrite Nat2Z.id.
Qed.

(** X17: a key no longer than the block is padded with zero bytes, so a
    key and the same key followed by zero bytes, up to the block size,
    give the same MAC of every message. *)
Theorem hmac_key_zero_padding (K M : list byte) (n : nat) :
  (length K + n <= HMAC.BLOCK_SIZE hash)%nat ->
  HMAC._hmac joinBuffer hash (K ++ repeat Byte.x00 n) M =
  HMAC._hmac joinBuffer hash K M.
Proof.
  intros H. rewrite !hmac_short_key by (rewrite ?length_app, ?repeat_length; lia).
  cbv zeta. rewrite length_app, repeat_length, <- app_assoc, <- repeat_app.
  replace (n + (HMAC.BLOCK_SIZE hash - (length K + n)))%nat
    with (HMAC.BLOCK_SIZE hash - length K)%nat by lia.
  reflexivity.
Qed.

Lemma hmac_long_key (K M : list byte) :
  (HMAC.BLOCK_SIZE hash < length K)%nat ->
  (length (HMAC.call hash K) <= HMAC.BLOCK_SIZE hash)%nat ->
  HMAC._hmac joinBuffer hash K M =
  HMAC._hmac joinBuffer hash (HMAC.call hash K) M.
Proof.
  intros HK Hh. rewrite (hmac_short_key (HMAC.call hash K)) by exact Hh.
  unfold HMAC._hmac.
  destruct (Nat.ltb_spec (HMAC.BLOCK_SIZE hash) (length K)) as [_ | Hge]; [ | lia].
  rewrite set_new by lia. now rewrite Nat2Z.id.
Qed.

(** X18: a key longer than the block is replaced by its hash: it gives
    the MAC that its hash gives as a key, when the hash fits a block; when
    the hash of the key is longer than a block, [K0.set] throws a
    [RangeError]. *)
Theorem hmac_long_key_is_hashed (K M : list byte) :
  (HMAC.BLOCK_SIZE hash < length K)%nat ->
  ((length (HMAC.call hash K) <= HMAC.BLOCK_SIZE hash)%nat ->
   HMAC._hmac joinBuffer hash K M =
   HMAC._hmac joinBuffer hash (HMAC.call hash K) M) /\
  ((HMAC.BLOCK_SIZE hash < length (HMAC.call hash K))%nat ->
   HMAC._hmac joinBuffer hash K M = Throw RangeError).
Proof.
  intros HK. split; intros Hh.
  - now apply hmac_long_key.
  - unfold HMAC._hmac.
    destruct (Nat.ltb_spec (HMAC.BLOCK_SIZE hash) (length K)) as [_ | Hge]; [ | lia].
    unfold U8.set, U8.new. rewrite repeat_length, Nat2Z.id.
    destruct (Nat.leb_spec (length (HMAC.call hash K)) (HMAC.BLOCK_SIZE hash));
      [lia | reflexivity].
Qed.

Lemma ToInt32_small (z : Z) : - 2 ^ 31 <= z < 2 ^ 31 -> HMAC.ToInt32 z = z.
Proof. intros H. unfold HMAC.ToInt32. rewrite Z.mod_small by lia. lia. Qed.

Lemma d_size_bytes_nonneg (d : Z) :
  0 <= d < 2 ^ 31 ->
  HMAC.d_size_bytes hash (Some d) =
  if d =? 0 then Z.of_nat (HMAC.DIGEST_SIZE hash)
  else Z.min (d / 8) (Z.of_nat (HMAC.DIGEST_SIZE hash)).
Proof.
  intros Hd. unfold HMAC.d_size_bytes.
  destruct d as [ | d | d]; [reflexivity | | lia].
  rewrite ToInt32_small by lia. rewrite Z.shiftr_div_pow2 by lia. reflexivity.
Qed.

Lemma slice_0_firstn (b : list byte) (e : Z) :
  0 <= e -> HMAC.slice_0 b e = firstn (Z.to_nat e) b.
Proof.
  intros He. unfold HMAC.slice_0.
  destruct (Z.ltb_spec e 0) as [Hlt | _]; [lia | ].
  destruct (Z.le_gt_cases e (Z.of_nat (length b))) as [Hle | Hgt].
  - now rewrite Z.min_l by lia.
  - rewrite Z.min_r, Nat2Z.id by lia. rewrite !firstn_all2; [reflexivity | lia | lia].
Qed.

(** X19: the digest size is given in bits and cut down to whole bytes.
    For [0 <= d_size < 2^31] the MAC that [hmac] returns is the first
    [min(d_size / 8, DIGEST_SIZE)] bytes of the full MAC, all
    [DIGEST_SIZE] bytes of it when [d_size] is 0 or left out; a [d_size]
    from 1 to 7 gives the empty MAC. *)
Theorem hmac_digest_truncates (d : Z) (K M mac : list byte) :
  0 <= d < 2 ^ 31 ->
  HMAC._hmac joinBuffer hash K M = Ok mac ->
  HMAC.hmac_digest joinBuffer hash (Some d) K M =
    Ok (firstn (if d =? 0 then HMAC.DIGEST_SIZE hash
                else Nat.min (Z.to_nat (d / 8)) (HMAC.DIGEST_SIZE hash)) mac) /\
  HMAC.hmac_digest joinBuffer hash None K M = Ok (firstn (HMAC.DIGEST_SIZE hash) mac) /\
  (0 < d < 8 -> HMAC.hmac_digest joinBuffer hash (Some d) K M = Ok []).
Proof.
  intros Hd Hmac. unfold HMAC.hmac_digest. rewrite Hmac.
  assert (H8 : 0 <= d / 8) by (apply Z.div_pos; lia).
  assert (E : HMAC.slice_0 mac (HMAC.d_size_bytes hash (Some d)) =
              firstn (if d =? 0 then HMAC.DIGEST_SIZE hash
                      else Nat.min (Z.to_nat (d / 8)) (HMAC.DIGEST_SIZE hash)) mac).
  { rewrite d_size_bytes_nonneg by exact Hd.
    destruct (Z.eqb_spec d 0) as [E0 | Hnz].
    - rewrite slice_0_firstn by lia. now rewrite Nat2Z.id.
    - rewrite slice_0_firstn by lia. f_equal. lia. }
  rewrite E. split; [reflexivity | split].
  - cbn [HMAC.d_size_bytes]. rewrite slice_0_firstn by lia. now rewrite Nat2Z.id.
  - intros H7. destruct (Z.eqb_spec d 0) as [E0 | _]; [lia | ].
    rewrite (Z.div_small d 8) by lia. reflexivity.
Qed.

(** X20: the digest size that [hmac] advertises is the length of its
    MACs: when the hash returns [DIGEST_SIZE] bytes and this is no more
    than a block, then for every key, every message and every
    [0 <= d_size < 2^31] the MAC has exactly [description.DIGEST_SIZE]
    bytes. *)
Theorem hmac_advertised_digest_size (d k : option Z) (K M : list byte) :
  (forall m, length (HMAC.call hash m) = HMAC.DIGEST_SIZE hash) ->
  (HMAC.DIGEST_SIZE hash <= HMAC.BLOCK_SIZE hash)%nat ->
  match d with Some d => 0 <= d < 2 ^ 31 | None => True end ->
  exists mac,
    HMAC.hmac_digest joinBuffer hash d K M = Ok mac /\
    Z.of_nat (length mac) =
      HMAC.description_DIGEST_SIZE (HMAC.hmac_description hash d k).
Proof.
  intros Hlen Hfit Hd.
  assert (Hmac : exists mac, HMAC._hmac joinBuffer hash K M = Ok mac /\
                             length mac = HMAC.DIGEST_SIZE hash).
  { destruct (Nat.le_gt_cases (length K) (HMAC.BLOCK_SIZE hash)) as [Hs | Hl].
    - rewrite hmac_short_key by exact Hs. eexists. split; [reflexivity | apply Hlen].
    - rewrite hmac_long_key, hmac_short_key by (rewrite ?Hlen; lia).
      eexists. split; [reflexivity | apply Hlen]. }
  destruct Hmac as (mac & Hmac & Hl).
  unfold HMAC.hmac_digest. rewrite Hmac. eexists. split; [reflexivity | ].
  cbn [HMAC.hmac_description HMAC.description_DIGEST_SIZE].
  destruct d as [d | ].
  - rewrite d_size_bytes_nonneg by exact Hd.
    assert (H8 : 0 <= d / 8) by (apply Z.div_pos; lia).
    destruct (Z.eqb_spec d 0) as [E0 | Hnz].
    + rewrite slice_0_firstn, Nat2Z.id, length_firstn by lia. lia.
    + rewrite slice_0_firstn, length_firstn by lia. lia.
  - cbn [HMAC.d_size_bytes]. rewrite slice_0_firstn, Nat2Z.id, length_firstn by lia. lia.
Qed.

(** X21: a negative [d_size] is not rejected.  For [-2^31 <= d_size < 0]
    the description advertises the negative digest size [d_size >> 3], and
    the MAC is the full MAC without its last [-(d_size >> 3)] bytes. *)
Theorem hmac_negative_digest_size (d : Z) (k : option Z) (K M mac : list byte) :
  - 2 ^ 31 <= d < 0 ->
  HMAC._hmac joinBuffer hash K M = Ok mac ->
  HMAC.description_DIGEST_SIZE (HMAC.hmac_description hash (Some d) k) = Z.shiftr d 3 /\
  Z.shiftr d 3 < 0 /\
  HMAC.hmac_digest joinBuffer hash (Some d) K M =
    Ok (firstn (length mac - Z.to_nat (- Z.shiftr d 3)) mac).
Proof.
  intros Hd Hmac.
  assert (Hneg : Z.shiftr d 3 < 0) by (apply Z.shiftr_neg; lia).
  assert (E : HMAC.d_size_bytes hash (Some d) = Z.shiftr d 3).
  { unfold HMAC.d_size_bytes. destruct d as [ | d | d]; [lia | lia | ].
    rewrite ToInt32_small by lia. apply Z.min_l. lia. }
  split; [exact E | split; [exact Hneg | ]].
  unfold HMAC.hmac_digest. rewrite Hmac, E. unfold HMAC.slice_0.
  destruct (Z.ltb_spec (Z.shiftr d 3) 0) as [_ | Hge]; [ | lia].
  do 2 f_equal. lia.
Qed.

End HMACProofs.

Lemma toy_hash_length (m : list byte) :
  length (HMAC.call Toy.hash m) = HMAC.DIGEST_SIZE Toy.hash.
Proof.
  cbn [HMAC.call HMAC.DIGEST_SIZE Toy.hash].
  rewrite length_firstn, length_app, repeat_length. lia.
Qed.

(** A key of one byte and three zero bytes after it, to run X17 on. *)
Lemma hmac_key_zero_padding_witness :
  HMAC._hmac Toy.joinBuffer Toy.hash ([Byte.x01] ++ repeat Byte.x00 3) [Byte.x02] =
  HMAC._hmac Toy.joinBuffer Toy.hash [Byte.x01] [Byte.x02].
Proof.
  apply (hmac_key_zero_padding Toy.joinBuffer Toy.hash [Byte.x01] [Byte.x02] 3).
  cbn. lia.
Defined.

(** A key of nine bytes for a block of eight, to run X18 on. *)
Lemma hmac_long_key_is_hashed_witness :
  HMAC._hmac Toy.joinBuffer Toy.hash (repeat Byte.x01 9) [Byte.x02] =
  HMAC._hmac Toy.joinBuffer Toy.hash (HMAC.call Toy.hash (repeat Byte.x01 9)) [Byte.x02].
Proof.
  destruct (hmac_long_key_is_hashed Toy.joinBuffer Toy.hash (repeat Byte.x01 9) [Byte.x02])
    as [H _].
  - cbn. lia.
  - apply H. cbn. lia.
Defined.

(** A digest size of 20 bits, to run X19 on. *)
Lemma hmac_digest_truncates_witness :
  exists mac,
    HMAC._hmac Toy.joinBuffer Toy.hash [Byte.x01] [Byte.x02] = Ok mac /\
    HMAC.hmac_digest Toy.joinBuffer Toy.hash (Some 20) [Byte.x01] [Byte.x02] =
      Ok (firstn 2 mac).
Proof.
  eexists. split; [vm_compute; reflexivity | ].
  apply (hmac_digest_truncates Toy.joinBuffer Toy.hash 20 [Byte.x01] [Byte.x02]).
  - lia.
  - vm_compute. reflexivity.
Defined.

(** The same hash and 20 bits, to run X20 on. *)
Lemma hmac_advertised_digest_size_witness :
  exists mac,
    HMAC.hmac_digest Toy.joinBuffer Toy.hash (Some 20) [Byte.x01] [Byte.x02] = Ok mac /\
    Z.of_nat (length mac) =
      HMAC.description_DIGEST_SIZE (HMAC.hmac_description Toy.hash (Some 20) None).
Proof.
  apply (hmac_advertised_digest_size Toy.joinBuffer Toy.hash (Some 20) None
           [Byte.x01] [Byte.x02]).
  - exact toy_hash_length.
  - cbn. lia.
  - lia.
Defined.

(** A digest size of -8 bits, to run X21 on. *)
Lemma hmac_negative_digest_size_witness :
  exists mac,
    HMAC._hmac Toy.joinBuffer Toy.hash [Byte.x01] [Byte.x02] = Ok mac /\
    HMAC.description_DIGEST_SIZE (HMAC.hmac_description Toy.hash (Some (-8)) None) =
      Z.shiftr (-8) 3 /\
    Z.shiftr (-8) 3 < 0 /\
    HMAC.hmac_digest Toy.joinBuffer Toy.hash (Some (-8)) [Byte.x01] [Byte.x02] =
      Ok (firstn (length mac - Z.to_nat (- Z.shiftr (-8) 3)) mac).
Proof.
  eexists. split; [vm_compute; reflexivity | ].
  apply (hmac_negative_digest_size Toy.joinBuffer Toy.hash (-8) None [Byte.x01] [Byte.x02]).
  - lia.
  - vm_compute. reflexivity.
Defined.
